(** * threads.cc: worker threads collaborating on shared data

    A shallow embedding of [threads.cc] and the proofs of its accounting
    properties.  Each workload lambda is embedded as a per-thread step
    function over the variables it captures; one step is one access to
    shared memory (a mutex operation, one access to a variable protected
    by the mutex, or one operation on a [std::atomic]), together with the
    thread-local computation that follows it.  All shared accesses of the
    program are either made under [std::mutex] or are sequentially
    consistent atomics, so the program is data-race free and its
    executions are the interleavings of these steps. *)

From stdpp Require Import base tactics option list numbers relations strings.
From Stdlib Require Import ZArith Lia Sorted.
From Stdlib Require QArith.

Local Open Scope Z_scope.

(** ** Machine integers *)

Module Machine.

Definition INT_MIN : Z := -2147483648.
Definition INT_MAX : Z := 2147483647.

Definition int_range (z : Z) : Prop := INT_MIN ≤ z ≤ INT_MAX.

(** [int]: 32 bits, two's complement. Signed overflow is undefined in C++;
    the embedding gives it the wrap-around of the target machine. *)
Definition wrap_int (z : Z) : Z :=
  (z + 2147483648) mod 4294967296 - 2147483648.

(** [unsigned] *)
Definition wrap_u32 (z : Z) : Z := z mod 4294967296.

(** [uint64_t] *)
Definition wrap_u64 (z : Z) : Z := z mod 18446744073709551616.

(** [int64_t] *)
Definition wrap_i64 (z : Z) : Z :=
  (z + 9223372036854775808) mod 18446744073709551616 - 9223372036854775808.

Lemma wrap_int_id z : int_range z → wrap_int z = z.
Proof.
  unfold int_range, INT_MIN, INT_MAX, wrap_int. intros H.
  rewrite Z.mod_small; lia.
Qed.

Lemma wrap_int_in_range z : int_range (wrap_int z).
Proof.
  unfold int_range, INT_MIN, INT_MAX, wrap_int.
  pose proof (Z.mod_pos_bound (z + 2147483648) 4294967296). lia.
Qed.

Lemma wrap_u64_id z : 0 ≤ z < 18446744073709551616 → wrap_u64 z = z.
Proof. unfold wrap_u64. intros H. rewrite Z.mod_small; lia. Qed.

Lemma wrap_i64_id z :
  -9223372036854775808 ≤ z ≤ 9223372036854775807 → wrap_i64 z = z.
Proof. unfold wrap_i64. intros H. rewrite Z.mod_small; lia. Qed.

End Machine.

Import Machine.

(** ** Sums over the per-thread states *)

Fixpoint sumZ {A : Type} (f : A → Z) (l : list A) : Z :=
  match l with
  | [] => 0
  | x :: l' => f x + sumZ f l'
  end.

Lemma sumZ_app {A} (f : A → Z) l1 l2 :
  sumZ f (l1 ++ l2) = sumZ f l1 + sumZ f l2.
Proof. induction l1 as [|x l1 IH]; simpl; lia. Qed.

Lemma sumZ_insert {A} (f : A → Z) l (t : nat) x y :
  l !! t = Some x → sumZ f (<[t:=y]> l) = sumZ f l - f x + f y.
Proof.
  revert t. induction l as [|a l IH]; intros [|t] H; simpl in *; try done.
  - injection H as ->. lia.
  - rewrite (IH t) by done. lia.
Qed.

Lemma sumZ_nonneg {A} (f : A → Z) l :
  (∀ t x, l !! t = Some x → 0 ≤ f x) → 0 ≤ sumZ f l.
Proof.
  induction l as [|a l IH]; intros H; simpl; [lia|].
  pose proof (H 0%nat a eq_refl).
  assert (0 ≤ sumZ f l) by (apply IH; intros t x Hx; exact (H (S t) x Hx)).
  lia.
Qed.

Lemma sumZ_elem_le {A} (f : A → Z) l (t : nat) x :
  (∀ t x, l !! t = Some x → 0 ≤ f x) → l !! t = Some x → f x ≤ sumZ f l.
Proof.
  revert t. induction l as [|a l IH]; intros [|t] Hnn H; simpl in *; try done.
  - injection H as ->.
    assert (0 ≤ sumZ f l)
      by (apply sumZ_nonneg; intros k y Hy; exact (Hnn (S k) y Hy)).
    lia.
  - pose proof (Hnn 0%nat a eq_refl).
    assert (f x ≤ sumZ f l)
      by (apply (IH t); [intros k y Hy; exact (Hnn (S k) y Hy)|done]).
    lia.
Qed.

Lemma sumZ_const {A} (f : A → Z) l c :
  (∀ t x, l !! t = Some x → f x = c) → sumZ f l = Z.of_nat (length l) * c.
Proof.
  induction l as [|a l IH]; intros H; simpl length; simpl sumZ; [lia|].
  rewrite (H 0%nat a eq_refl), IH; [lia|].
  intros t x Hx; exact (H (S t) x Hx).
Qed.

Lemma sumZ_zero {A} (f : A → Z) l :
  (∀ t x, l !! t = Some x → f x = 0) → sumZ f l = 0.
Proof. intros H. rewrite (sumZ_const f l 0) by done. lia. Qed.

Lemma sumZ_zero_inv {A} (f : A → Z) l (t : nat) x :
  (∀ t x, l !! t = Some x → 0 ≤ f x) → sumZ f l = 0 →
  l !! t = Some x → f x = 0.
Proof.
  intros Hnn H0 Hx. pose proof (sumZ_elem_le f l t x Hnn Hx).
  pose proof (Hnn t x Hx). lia.
Qed.

Lemma sumZ_ext {A} (f g : A → Z) l :
  (∀ t x, l !! t = Some x → f x = g x) → sumZ f l = sumZ g l.
Proof.
  induction l as [|a l IH]; intros H; simpl; [done|].
  rewrite (H 0%nat a eq_refl), IH; [done|].
  intros t x Hx; exact (H (S t) x Hx).
Qed.

Lemma sumZ_le_const {A} (f : A → Z) l c :
  (∀ t x, l !! t = Some x → f x ≤ c) → sumZ f l ≤ Z.of_nat (length l) * c.
Proof.
  induction l as [|a l IH]; intros H; simpl length; simpl sumZ; [lia|].
  pose proof (H 0%nat a eq_refl).
  assert (sumZ f l ≤ Z.of_nat (length l) * c)
    by (apply IH; intros t x Hx; exact (H (S t) x Hx)).
  lia.
Qed.

Lemma sumZ_mono {A} (f g : A → Z) l :
  (∀ t x, l !! t = Some x → f x ≤ g x) → sumZ f l ≤ sumZ g l.
Proof.
  induction l as [|a l IH]; intros H; simpl; [lia|].
  pose proof (H 0%nat a eq_refl).
  assert (sumZ f l ≤ sumZ g l)
    by (apply IH; intros t x Hx; exact (H (S t) x Hx)).
  lia.
Qed.

(** ** A lexicographic order for progress measures *)

Definition lex3 (x y : Z * Z * Z) : Prop :=
  0 ≤ x.1.1 < y.1.1 ∨
  (x.1.1 = y.1.1 ∧
   (0 ≤ x.1.2 < y.1.2 ∨ (x.1.2 = y.1.2 ∧ 0 ≤ x.2 < y.2))).

Lemma lex3_wf : well_founded lex3.
Proof.
  intros [[a b] c]. revert b c.
  induction (Z.lt_wf 0 a) as [a _ IHa]. intros b.
  induction (Z.lt_wf 0 b) as [b _ IHb]. intros c.
  induction (Z.lt_wf 0 c) as [c _ IHc].
  constructor. intros [[a' b'] c'] H. unfold lex3 in H. simpl in H.
  destruct H as [H|[-> [H|[-> H]]]].
  - by apply IHa.
  - by apply IHb.
  - by apply IHc.
Qed.

Lemma exists_or_all {A} (b : A → bool) (l : list A) :
  (∃ t x, l !! t = Some x ∧ b x = true) ∨
  (∀ t x, l !! t = Some x → b x = false).
Proof.
  induction l as [|a l IH].
  - right. by intros t x.
  - destruct (b a) eqn:Ea.
    + left. by exists 0%nat, a.
    + destruct IH as [(t & x & Hx & Hb)|IH].
      * left. by exists (S t), x.
      * right. intros [|t] x Hx; simpl in Hx; [congruence|by apply (IH t)].
Qed.

(** ** Command-line arguments *)

(** [struct arg_t], with the defaults of its member initialisers. *)
Record arg_t := ArgT {
  num_ints : Z;
  num_threads : Z;
  behavior : string;
  usage : bool
}.

Definition default_args : arg_t :=
  {| num_ints := 64; num_threads := 1; behavior := "counter"; usage := false |}.

(** Both numeric members are C [int]s. *)
Definition wf_args (a : arg_t) : Prop :=
  int_range (num_ints a) ∧ int_range (num_threads a).


(** ** The timed runner: [run_timed_test] *)

Module Runner.

(** The [std::function<void(int)> task] handed to [run_timed_test]: the
    variables it captures ([shared]), the frame of one call ([local]), the
    frame at the call [task(i)] ([entry]), one step of a call ([tstep];
    [None] when the call is blocked or has returned) and whether the call
    has returned; a call that has returned takes no further step. *)
Record Task := MkTask {
  shared : Type;
  local : Type;
  entry : nat → local;
  tstep : nat → shared → local → option (shared * local);
  returned : local → bool;
  returned_stuck : ∀ t g l, returned l = true → tstep t g l = None
}.

(** Program points of [run_timed_test] itself. *)
Inductive mpc :=
  | MStart              (* t1 = now() *)
  | MSpawn (i : Z)      (* for (int i = 0; i < args.num_threads; ++i) *)
  | MJoin (j : nat)     (* for (auto &th : threads) th.join() *)
  | MStop               (* t2 = now() *)
  | MReport             (* printf("Total time: ...") *)
  | MDone.

(** [threads] is the part of the array [std::thread threads[num_threads]]
    that has been started; [total_time] is the printed duration, in ticks
    of [high_resolution_clock].  [started] is a history variable: the
    arguments [i] of the calls [std::thread(task, i)] made so far. *)
Record rstate (T : Task) := RState {
  main : mpc;
  t1 : Z;
  t2 : Z;
  total_time : option Z;
  started : list Z;
  mem : shared T;
  threads : list (local T)
}.
Arguments RState {T}.
Arguments main {T}.
Arguments t1 {T}.
Arguments t2 {T}.
Arguments total_time {T}.
Arguments started {T}.
Arguments mem {T}.
Arguments threads {T}.

(** What the scheduler picks next: the launching thread (with the value
    the clock returns if that step reads it) or worker [t]. *)
Inductive action :=
  | AMain (now : Z)
  | AWorker (t : nat).

Section Runner.
Context (T : Task) (args : arg_t) (g0 : shared T).

(** The length of [std::thread threads[args.num_threads]].  A negative
    bound is undefined in the source; the embedding stands for the
    program when [num_threads] is not negative. *)
Definition nthreads : nat := Z.to_nat (num_threads args).

Definition set_main (m : mpc) (s : rstate T) : rstate T :=
  RState m (t1 s) (t2 s) (total_time s) (started s) (mem s) (threads s).

Definition set_workers (g : shared T) (ls : list (local T)) (s : rstate T)
  : rstate T :=
  RState (main s) (t1 s) (t2 s) (total_time s) (started s) g ls.

Definition rstep (a : action) (s : rstate T) : option (rstate T) :=
  match a with
  | AMain now =>
      match main s with
      | MStart =>
          Some (RState (MSpawn 0) now (t2 s) (total_time s) (started s)
                  (mem s) (threads s))
      | MSpawn i =>
          if i <? num_threads args
          then Some (RState (MSpawn (wrap_int (i + 1))) (t1 s) (t2 s)
                       (total_time s) (started s ++ [i]) (mem s)
                       (threads s ++ [entry T (Z.to_nat i)]))
          else Some (set_main (MJoin 0) s)
      | MJoin j =>
          if (j <? nthreads)%nat
          then match threads s !! j with
               | Some l => if returned T l then Some (set_main (MJoin (S j)) s)
                           else None
               | None => None
               end
          else Some (set_main MStop s)
      | MStop =>
          Some (RState MReport (t1 s) now (total_time s) (started s) (mem s)
                  (threads s))
      | MReport =>
          Some (RState MDone (t1 s) (t2 s) (Some (t2 s - t1 s)) (started s)
                  (mem s) (threads s))
      | MDone => None
      end
  | AWorker t =>
      match threads s !! t with
      | Some l =>
          match tstep T t (mem s) l with
          | Some (g', l') => Some (set_workers g' (<[t:=l']> (threads s)) s)
          | None => None
          end
      | None => None
      end
  end.

Definition rinit : rstate T := RState MStart 0 0 None [] g0 [].

Definition step (s s' : rstate T) : Prop := ∃ a, rstep a s = Some s'.

Definition reachable (s : rstate T) : Prop := rtc step rinit s.

(** Running a schedule, for concrete executions. *)
Fixpoint exec (sched : list action) (s : rstate T) : option (rstate T) :=
  match sched with
  | [] => Some s
  | a :: sched' =>
      match rstep a s with
      | Some s' => exec sched' s'
      | None => None
      end
  end.

Definition run (sched : list action) : rstate T :=
  default rinit (exec sched rinit).

(** *** The workers alone

    The same task with all [nthreads] calls present from the start.  A
    thread that has not been started yet behaves as one that has not taken
    a step yet, so every state of the runner is a state of this system. *)

Definition fstate : Type := shared T * list (local T).

Definition fstep_at (t : nat) (f : fstate) : option fstate :=
  match f.2 !! t with
  | Some l =>
      match tstep T t f.1 l with
      | Some (g', l') => Some (g', <[t:=l']> f.2)
      | None => None
      end
  | None => None
  end.

Definition fstep (f f' : fstate) : Prop := ∃ t, fstep_at t f = Some f'.

Definition finit : fstate := (g0, entry T <$> seq 0 nthreads).

Definition freach (f : fstate) : Prop := rtc fstep finit f.

Definition all_returned (ls : list (local T)) : Prop :=
  ∀ t l, ls !! t = Some l → returned T l = true.

Definition flat_of (s : rstate T) : fstate :=
  (mem s,
   threads s ++
   (entry T <$> seq (length (threads s)) (nthreads - length (threads s)))).

(** What the launching thread knows at each of its program points. *)
Definition rinv (s : rstate T) : Prop :=
  started s = seqZ 0 (Z.of_nat (length (threads s))) ∧
  match main s with
  | MStart => threads s = []
  | MSpawn i =>
      i = Z.of_nat (length (threads s)) ∧ (length (threads s) ≤ nthreads)%nat
  | MJoin j =>
      length (threads s) = nthreads ∧ (j ≤ nthreads)%nat ∧
      ∀ k l, (k < j)%nat → threads s !! k = Some l → returned T l = true
  | MStop | MReport =>
      length (threads s) = nthreads ∧ all_returned (threads s)
  | MDone =>
      length (threads s) = nthreads ∧ all_returned (threads s) ∧
      total_time s = Some (t2 s - t1 s)
  end.

(** *** Facts about the runner *)

Hypothesis Hwf : wf_args args.

Lemma exec_app sched1 sched2 s :
  exec (sched1 ++ sched2) s =
  match exec sched1 s with Some s' => exec sched2 s' | None => None end.
Proof.
  revert s. induction sched1 as [|a sched1 IH]; intros s; simpl; [done|].
  destruct (rstep a s); [apply IH|done].
Qed.

Lemma exec_steps sched s s' : exec sched s = Some s' → rtc step s s'.
Proof.
  revert s. induction sched as [|a sched IH]; intros s H; simpl in H.
  - injection H as ->. apply rtc_refl.
  - destruct (rstep a s) as [s1|] eqn:E; [|done].
    eapply rtc_l; [by exists a|by apply IH].
Qed.

Lemma steps_exec s s' : rtc step s s' → ∃ sched, exec sched s = Some s'.
Proof.
  induction 1 as [s|s s1 s' [a Ha] _ [sched IH]].
  - by exists [].
  - exists (a :: sched). simpl. by rewrite Ha.
Qed.

Lemma run_reachable sched s : exec sched rinit = Some s → reachable s.
Proof. apply exec_steps. Qed.

Lemma nthreads_spec (n : nat) :
  (n < nthreads)%nat ↔ Z.of_nat n < num_threads args.
Proof. unfold nthreads. lia. Qed.

Lemma rinv_step s s' : rinv s → step s s' → rinv s'.
Proof.
  intros [Hst Hinv] [a Hstep]. destruct Hwf as [_ Hnt].
  unfold int_range, INT_MIN, INT_MAX in Hnt.
  destruct a as [now|t]; simpl in Hstep.
  - destruct s as [m a1 a2 tt st g ls]; simpl in *.
    destruct m as [|i|j| | |]; simpl in *.
    + injection Hstep as <-. subst ls. unfold rinv; simpl.
      split; [done|]. split; [done|lia].
    + destruct Hinv as [-> Hle].
      destruct (Z.ltb_spec (Z.of_nat (length ls)) (num_threads args)).
      * injection Hstep as <-. unfold rinv; simpl.
        rewrite length_app; simpl.
        rewrite wrap_int_id by (unfold int_range, INT_MIN, INT_MAX; lia).
        split; [|split; [lia|apply nthreads_spec in H; lia]].
        rewrite Hst. replace (length ls + 1)%nat with (S (length ls)) by lia.
        rewrite seqZ_S. done.
      * injection Hstep as <-. unfold rinv; simpl.
        split; [done|]. split; [|split; [lia|intros; lia]].
        assert (¬ (length ls < nthreads)%nat) by (rewrite nthreads_spec; lia).
        lia.
    + destruct Hinv as (Hlen & Hj & Hret).
      destruct (Nat.ltb_spec j nthreads).
      * destruct (ls !! j) as [l|] eqn:El; [|done].
        destruct (returned T l) eqn:Er; [|done].
        injection Hstep as <-. unfold rinv; simpl.
        split; [done|]. split; [done|]. split; [lia|].
        intros k l' Hk Hl'. destruct (decide (k = j)) as [->|].
        -- congruence.
        -- apply (Hret k); [lia|done].
      * injection Hstep as <-. unfold rinv; simpl.
        split; [done|]. split; [done|].
        intros k l Hl. apply (Hret k); [|done].
        apply lookup_lt_Some in Hl. lia.
    + injection Hstep as <-. by split.
    + injection Hstep as <-. unfold rinv; simpl.
      destruct Hinv as [? ?]. repeat split; done.
    + done.
  - destruct (threads s !! t) as [l|] eqn:El; [|done].
    destruct (tstep T t (mem s) l) as [[g' l']|] eqn:Et; [|done].
    injection Hstep as <-.
    assert (Hkeep : ∀ k x, <[t:=l']> (threads s) !! k = Some x →
              (∀ y, threads s !! k = Some y → returned T y = true) →
              returned T x = true).
    { intros k x Hk Hr. destruct (decide (t = k)) as [<-|].
      - pose proof (returned_stuck T t (mem s) l (Hr l El)). congruence.
      - rewrite list_lookup_insert_ne in Hk by done. by apply Hr. }
    unfold rinv; simpl. rewrite length_insert. split; [done|].
    destruct (main s) as [|i|j| | |].
    + rewrite Hinv in El. done.
    + done.
    + destruct Hinv as (Hlen & Hj & Hret). split; [done|]. split; [done|].
      intros k x Hk Hx. apply (Hkeep k x Hx). intros y. by apply Hret.
    + destruct Hinv as (Hlen & Hret). split; [done|].
      intros k x Hx. apply (Hkeep k x Hx). intros y. by apply Hret.
    + destruct Hinv as (Hlen & Hret). split; [done|].
      intros k x Hx. apply (Hkeep k x Hx). intros y. by apply Hret.
    + destruct Hinv as (Hlen & Hret & Htt). split; [done|]. split; [|done].
      intros k x Hx. apply (Hkeep k x Hx). intros y. by apply Hret.
Qed.

Lemma reachable_rinv s : reachable s → rinv s.
Proof.
  revert s. apply rtc_ind_r.
  - unfold rinv; simpl. done.
  - intros s1 s2 _ Hs IH. by apply (rinv_step s1).
Qed.

Lemma flat_of_full s :
  length (threads s) = nthreads → flat_of s = (mem s, threads s).
Proof.
  intros H. unfold flat_of. rewrite H, Nat.sub_diag. simpl.
  by rewrite app_nil_r.
Qed.

(** Every step of the runner is a step of the workers alone, or leaves
    their state as it was. *)
Lemma rstep_main_flat now s s' :
  rinv s → rstep (AMain now) s = Some s' → flat_of s' = flat_of s.
Proof.
  intros [Hst Hinv] Hstep. simpl in Hstep.
  destruct s as [m a1 a2 tt st g ls]; simpl in *.
  destruct m as [|i|j| | |]; simpl in *.
  - by injection Hstep as <-.
  - destruct Hinv as [-> Hle].
    destruct (Z.ltb_spec (Z.of_nat (length ls)) (num_threads args)).
    + injection Hstep as <-. unfold flat_of; simpl. f_equal.
      apply nthreads_spec in H. rewrite length_app; simpl.
      rewrite Nat2Z.id.
      replace (nthreads - length ls)%nat
        with (S (nthreads - (length ls + 1)))%nat by lia.
      simpl. rewrite <- app_assoc. simpl.
      by replace (S (length ls)) with (length ls + 1)%nat by lia.
    + by injection Hstep as <-.
  - destruct (j <? nthreads)%nat.
    + destruct (ls !! j) as [l|]; [|done].
      destruct (returned T l); [|done]. by injection Hstep as <-.
    + by injection Hstep as <-.
  - by injection Hstep as <-.
  - by injection Hstep as <-.
  - done.
Qed.

Lemma rstep_flat a s s' :
  rinv s → rstep a s = Some s' →
  flat_of s' = flat_of s ∨ fstep (flat_of s) (flat_of s').
Proof.
  intros Hrinv Hstep. destruct a as [now|t].
  { left. by eapply rstep_main_flat. }
  simpl in Hstep. right. exists t.
  destruct (threads s !! t) as [l|] eqn:El; [|done].
  destruct (tstep T t (mem s) l) as [[g' l']|] eqn:Et; [|done].
  injection Hstep as <-.
  pose proof (lookup_lt_Some _ _ _ El) as Hlt.
  unfold fstep_at, flat_of; simpl.
  rewrite lookup_app_l, El, Et by done.
  by rewrite insert_app_l, length_insert.
Qed.

Lemma reachable_flat s : reachable s → freach (flat_of s).
Proof.
  revert s. apply rtc_ind_r.
  - unfold flat_of, freach, finit; simpl. rewrite Nat.sub_0_r.
    apply rtc_refl.
  - intros s1 s2 Hr [a Hs] IH.
    destruct (rstep_flat a s1 s2 (reachable_rinv s1 Hr) Hs) as [->|Hf];
      [done|]. by eapply rtc_r.
Qed.

(** When [run_timed_test] is past its join loop, all [nthreads] calls
    have been made and all have returned. *)
Lemma joined_all s :
  reachable s → main s = MStop ∨ main s = MReport ∨ main s = MDone →
  freach (mem s, threads s) ∧ length (threads s) = nthreads ∧
  all_returned (threads s).
Proof.
  intros Hr Hm. pose proof (reachable_rinv s Hr) as [_ Hinv].
  pose proof (reachable_flat s Hr) as Hf.
  assert (length (threads s) = nthreads ∧ all_returned (threads s)) as [? ?].
  { destruct Hm as [Hm|[Hm|Hm]]; rewrite Hm in Hinv; tauto. }
  rewrite flat_of_full in Hf; done.
Qed.


(** *** Termination of the runner from termination of the workers *)

Lemma fstep_step f f' s :
  fstep f f' → mem s = f.1 → threads s = f.2 →
  step s (set_workers f'.1 f'.2 s).
Proof.
  intros [t Ht] Hm Hl. exists (AWorker t). unfold fstep_at in Ht. simpl.
  rewrite Hm, Hl. destruct (f.2 !! t) as [l|]; [|done].
  destruct (tstep T t f.1 l) as [[g' l']|]; [|done].
  by injection Ht as <-.
Qed.

Lemma fsteps_steps f f' s :
  rtc fstep f f' → mem s = f.1 → threads s = f.2 →
  rtc step s (set_workers f'.1 f'.2 s).
Proof.
  intros H. revert s. induction H as [f|f f1 f' Hs _ IH]; intros s Hm Hl.
  - destruct s; simpl in *; subst. apply rtc_refl.
  - eapply rtc_l; [by eapply fstep_step|].
    specialize (IH (set_workers f1.1 f1.2 s) eq_refl eq_refl).
    by destruct s.
Qed.

(** The spawn loop runs to its end without touching the workers. *)
Lemma spawn_rest n s :
  rinv s → (∃ i, main s = MSpawn i) →
  (nthreads - length (threads s))%nat = n →
  ∃ s', rtc step s s' ∧ main s' = MJoin 0 ∧ flat_of s' = flat_of s.
Proof.
  revert s. induction n as [|n IH]; intros s Hinv [i Hi] Hn.
  all: destruct (rstep (AMain 0) s) as [s1|] eqn:E1;
    [|simpl in E1; rewrite Hi in E1; by destruct (i <? num_threads args)].
  all: assert (Hst : step s s1) by (by exists (AMain 0)).
  all: pose proof (rinv_step _ _ Hinv Hst) as Hinv1.
  all: pose proof (rstep_main_flat _ _ _ Hinv E1) as Hf.
  all: simpl in E1; rewrite Hi in E1.
  all: pose proof Hinv as [_ Hi'].
  all: rewrite Hi in Hi'; destruct Hi' as [-> Hle].
  all: destruct (Z.ltb_spec (Z.of_nat (length (threads s))) (num_threads args))
    as [Hlt|Hge]; injection E1 as E1.
  - apply nthreads_spec in Hlt. lia.
  - exists s1. split; [by apply rtc_once|]. by subst s1.
  - destruct (IH s1 Hinv1) as (s' & Hs' & Hm' & Hf').
    + subst s1. simpl. eauto.
    + subst s1. simpl. rewrite length_app. simpl. lia.
    + exists s'. split; [by eapply rtc_l|]. split; [done|congruence].
  - exists s1. split; [by apply rtc_once|]. by subst s1.
Qed.

Lemma spawn_all s :
  rinv s → main s = MStart ∨ (∃ i, main s = MSpawn i) →
  ∃ s', rtc step s s' ∧ main s' = MJoin 0 ∧ flat_of s' = flat_of s.
Proof.
  intros Hinv [Hm|Hm]; [|by eapply spawn_rest].
  destruct (rstep (AMain 0) s) as [s1|] eqn:E1;
    [|simpl in E1; by rewrite Hm in E1].
  assert (Hst : step s s1) by (by exists (AMain 0)).
  pose proof (rinv_step _ _ Hinv Hst) as Hinv1.
  pose proof (rstep_main_flat _ _ _ Hinv E1) as Hf.
  destruct (spawn_rest (nthreads - length (threads s1)) s1 Hinv1)
    as (s' & Hs' & Hm' & Hf'); [|done|].
  - simpl in E1. rewrite Hm in E1. injection E1 as <-. simpl. eauto.
  - exists s'. split; [by eapply rtc_l|]. split; [done|congruence].
Qed.

(** The join loop runs to its end once every worker has returned. *)
Lemma join_rest n s j :
  main s = MJoin j → all_returned (threads s) →
  length (threads s) = nthreads → (nthreads - j)%nat = n →
  ∃ s', rtc step s s' ∧ main s' = MDone ∧
        mem s' = mem s ∧ threads s' = threads s.
Proof.
  revert s j. induction n as [|n IH]; intros s j Hm Hret Hlen Hn.
  - exists (RState MDone (t1 s) 0 (Some (0 - t1 s)) (started s) (mem s)
              (threads s)).
    split; [|done].
    eapply rtc_l; [exists (AMain 0)|eapply rtc_l; [exists (AMain 0)|
      eapply rtc_l; [exists (AMain 0)|apply rtc_refl]]]; simpl.
    + rewrite Hm. destruct (Nat.ltb_spec j nthreads); [lia|done].
    + done.
    + done.
  - assert (Hj : (j < nthreads)%nat) by lia.
    destruct (lookup_lt_is_Some_2 (threads s) j) as [l Hl]; [lia|].
    destruct (IH (set_main (MJoin (S j)) s) (S j))
      as (s' & Hs' & Hm' & Hg & Hls);
      [done|done|done|simpl; lia|].
    exists s'. split; [|done].
    eapply rtc_l; [exists (AMain 0)|exact Hs']. simpl. rewrite Hm.
    destruct (Nat.ltb_spec j nthreads); [|lia].
    by rewrite Hl, (Hret j l Hl).
Qed.

(** If the workers alone can always run to completion, so can
    [run_timed_test]. *)
Lemma can_finish :
  (∀ f, freach f → ∃ f', rtc fstep f f' ∧ all_returned f'.2) →
  ∀ s, reachable s → ∃ s', rtc step s s' ∧ main s' = MDone.
Proof.
  intros Hlive.
  assert (Hjoin : ∀ s j, reachable s → main s = MJoin j →
            ∃ s', rtc step s s' ∧ main s' = MDone).
  { intros s j Hr Hm. pose proof (reachable_rinv s Hr) as [_ Hinv].
    rewrite Hm in Hinv. destruct Hinv as (Hlen & _ & _).
    pose proof (reachable_flat s Hr) as Hf. rewrite flat_of_full in Hf by done.
    destruct (Hlive _ Hf) as (f' & Hsteps & Hret).
    pose proof (fsteps_steps _ _ s Hsteps eq_refl eq_refl) as Hs2.
    set (s2 := set_workers f'.1 f'.2 s) in *.
    assert (Hr2 : reachable s2) by (by eapply rtc_trans).
    pose proof (reachable_rinv s2 Hr2) as [_ Hinv2]. simpl in Hinv2.
    rewrite Hm in Hinv2. destruct Hinv2 as (Hlen2 & _ & _).
    destruct (join_rest _ s2 j Hm Hret Hlen2 eq_refl) as (s' & Hs' & Hm' & _).
    exists s'. split; [by eapply rtc_trans|done]. }
  intros s Hr. pose proof (reachable_rinv s Hr) as Hinv.
  destruct (main s) as [|i|j| | |] eqn:Hm.
  - destruct (spawn_all s Hinv) as (s1 & Hs1 & Hm1 & _); [by left|].
    destruct (Hjoin s1 0%nat) as (s' & Hs' & Hm'); [by eapply rtc_trans|done|].
    exists s'. split; [by eapply rtc_trans|done].
  - destruct (spawn_all s Hinv) as (s1 & Hs1 & Hm1 & _); [right; eauto|].
    destruct (Hjoin s1 0%nat) as (s' & Hs' & Hm'); [by eapply rtc_trans|done|].
    exists s'. split; [by eapply rtc_trans|done].
  - by eapply Hjoin.
  - eexists. split; [|shelve].
    eapply rtc_l; [exists (AMain 0); simpl; by rewrite Hm|].
    eapply rtc_l; [exists (AMain 0); simpl; done|apply rtc_refl].
    Unshelve. done.
  - eexists. split; [eapply rtc_once; exists (AMain 0); simpl; by rewrite Hm|].
    done.
  - exists s. split; [apply rtc_refl|done].
Qed.

(** *** The shape of a complete run *)

Lemma exec_snoc sched a s s' :
  exec (sched ++ [a]) s = Some s' ↔
  ∃ s1, exec sched s = Some s1 ∧ rstep a s1 = Some s'.
Proof.
  rewrite exec_app. destruct (exec sched s) as [s1|]; simpl.
  - destruct (rstep a s1) as [s2|] eqn:E; split.
    + intros H. exists s1. by rewrite E.
    + intros (? & [= <-] & H). by rewrite E in H.
    + done.
    + intros (? & [= <-] & H). by rewrite E in H.
  - split; [done|]. by intros (? & ? & _).
Qed.

(** Once every worker has been joined no worker can take a step. *)
Lemma worker_stuck t s :
  rinv s → main s = MStop ∨ main s = MReport ∨ main s = MDone →
  rstep (AWorker t) s = None.
Proof.
  intros [_ Hinv] Hm. simpl.
  destruct (threads s !! t) as [l|] eqn:El; [|done].
  assert (returned T l = true) as Hr.
  { destruct Hm as [Hm|[Hm|Hm]]; rewrite Hm in Hinv.
    - destruct Hinv as [_ Hret]. by apply (Hret t).
    - destruct Hinv as [_ Hret]. by apply (Hret t).
    - destruct Hinv as (_ & Hret & _). by apply (Hret t). }
  by rewrite (returned_stuck T t (mem s) l Hr).
Qed.

(** The first clock reading is kept once taken. *)
Lemma t1_kept a s s' :
  rstep a s = Some s' → main s ≠ MStart → t1 s' = t1 s ∧ main s' ≠ MStart.
Proof.
  intros Hstep Hm. destruct a as [now|t]; simpl in Hstep.
  - destruct (main s) as [|i|j| | |]; try done.
    + destruct (i <? num_threads args); by injection Hstep as <-.
    + destruct (j <? nthreads)%nat.
      * destruct (threads s !! j) as [l|]; [|done].
        destruct (returned T l); [|done]. by injection Hstep as <-.
      * by injection Hstep as <-.
    + by injection Hstep as <-.
    + by injection Hstep as <-.
  - destruct (threads s !! t) as [l|]; [|done].
    destruct (tstep T t (mem s) l) as [[g' l']|]; [|done].
    by injection Hstep as <-.
Qed.

Lemma t1_kept_exec sched s s' :
  exec sched s = Some s' → main s ≠ MStart → t1 s' = t1 s ∧ main s' ≠ MStart.
Proof.
  revert s. induction sched as [|a sched IH]; intros s H Hm; simpl in H.
  - by injection H as <-.
  - destruct (rstep a s) as [s1|] eqn:E; [|done].
    destruct (t1_kept _ _ _ E Hm) as [Ht Hm1].
    destruct (IH s1 H Hm1) as [Ht' ?]. split; [congruence|done].
Qed.

(** A complete run of [run_timed_test] starts by reading the clock, ends
    by reading it again and printing, and everything the workers do lies
    between the two readings; the printed duration is their difference. *)
Lemma complete_run_shape sched s :
  exec sched rinit = Some s → main s = MDone →
  ∃ now1 mid now2 x,
    sched = AMain now1 :: mid ++ [AMain now2; AMain x] ∧
    total_time s = Some (now2 - now1).
Proof.
  intros Hex Hm.
  destruct sched as [|[now1|t] rest]; simpl in Hex.
  { injection Hex as <-. done. }
  2:{ done. }
  set (s1 := RState (T:=T) (MSpawn 0) now1 0 None [] g0 []) in *.
  assert (Hr1 : reachable s1).
  { apply rtc_once. by exists (AMain now1). }
  destruct (t1_kept_exec _ _ _ Hex) as [Ht1 _]; [done|]. simpl in Ht1.
  pose proof (run_reachable (AMain now1 :: rest) s) as Hrs. simpl in Hrs.
  specialize (Hrs Hex). pose proof (reachable_rinv s Hrs) as [_ Hinv].
  rewrite Hm in Hinv. destruct Hinv as (_ & _ & Htt).
  (* the last step *)
  destruct rest as [|b rest' _] using rev_ind.
  { simpl in Hex. injection Hex as <-. done. }
  apply exec_snoc in Hex as (s2 & Hex2 & Hstep2).
  assert (Hr2 : reachable s2).
  { eapply rtc_trans; [exact Hr1|by eapply exec_steps]. }
  pose proof (reachable_rinv s2 Hr2) as Hinv2.
  destruct b as [x|t].
  2:{ assert (main s2 = MDone) as Hm2.
      { simpl in Hstep2. destruct (threads s2 !! t) as [l|]; [|done].
        destruct (tstep T t (mem s2) l) as [[g' l']|]; [|done].
        injection Hstep2 as <-. done. }
      rewrite worker_stuck in Hstep2 by auto. done. }
  assert (main s2 = MReport ∧ t2 s = t2 s2) as [Hm2 Ht2].
  { simpl in Hstep2. destruct (main s2) as [|i|j| | |]; try done.
    - injection Hstep2 as <-. done.
    - destruct (i <? num_threads args); injection Hstep2 as <-; done.
    - destruct (j <? nthreads)%nat.
      + destruct (threads s2 !! j) as [l|]; [|done].
        destruct (returned T l); [|done]. injection Hstep2 as <-. done.
      + injection Hstep2 as <-. done.
    - injection Hstep2 as <-. done.
    - injection Hstep2 as <-. done. }
  (* the step before it *)
  destruct rest' as [|c rest'' _] using rev_ind.
  { simpl in Hex2. injection Hex2 as <-. done. }
  apply exec_snoc in Hex2 as (s3 & Hex3 & Hstep3).
  assert (Hr3 : reachable s3).
  { eapply rtc_trans; [exact Hr1|by eapply exec_steps]. }
  pose proof (reachable_rinv s3 Hr3) as Hinv3.
  destruct c as [now2|t].
  2:{ assert (main s3 = MReport) as Hm3.
      { simpl in Hstep3. destruct (threads s3 !! t) as [l|]; [|done].
        destruct (tstep T t (mem s3) l) as [[g' l']|]; [|done].
        injection Hstep3 as <-. done. }
      rewrite worker_stuck in Hstep3 by auto. done. }
  assert (t2 s2 = now2) as Hnow2.
  { simpl in Hstep3. destruct (main s3) as [|i|j| | |]; try done.
    - injection Hstep3 as <-. done.
    - destruct (i <? num_threads args); injection Hstep3 as <-; done.
    - destruct (j <? nthreads)%nat.
      + destruct (threads s3 !! j) as [l|]; [|done].
        destruct (returned T l); [|done]. injection Hstep3 as <-. done.
      + injection Hstep3 as <-. done.
    - injection Hstep3 as <-. done.
    - injection Hstep3 as <-. done. }
  exists now1, rest'', now2, x. split.
  - by rewrite <- !app_assoc.
  - rewrite Htt. congruence.
Qed.

(** *** Invariants and progress measures for the workers *)

Lemma all_returned_dec ls :
  all_returned ls ∨ ∃ t l, ls !! t = Some l ∧ returned T l = false.
Proof.
  induction ls as [|a ls IH].
  - left. by intros t l.
  - destruct (returned T a) eqn:Ea.
    + destruct IH as [IH|(t & l & Hl & Hr)].
      * left. intros [|t] l Hl; simpl in Hl; [congruence|by apply (IH t)].
      * right. by exists (S t), l.
    + right. by exists 0%nat, a.
Qed.

Lemma fstep_inv f f' :
  fstep f f' →
  ∃ t l g' l', f.2 !! t = Some l ∧ tstep T t f.1 l = Some (g', l') ∧
               f' = (g', <[t:=l']> f.2).
Proof.
  intros [t Ht]. unfold fstep_at in Ht.
  destruct (f.2 !! t) as [l|] eqn:El; [|done].
  destruct (tstep T t f.1 l) as [[g' l']|] eqn:Et; [|done].
  injection Ht as <-. by exists t, l, g', l'.
Qed.

Lemma fstep_intro t l g' l' g ls :
  ls !! t = Some l → tstep T t g l = Some (g', l') →
  fstep (g, ls) (g', <[t:=l']> ls).
Proof. intros Hl Ht. exists t. unfold fstep_at; simpl. by rewrite Hl, Ht. Qed.

Lemma finit_lookup t l : finit.2 !! t = Some l → l = entry T t.
Proof.
  unfold finit; simpl. rewrite list_lookup_fmap.
  destruct (seq 0 nthreads !! t) as [k|] eqn:E; [|done].
  apply lookup_seq in E as [-> _]. simpl. by intros [= <-].
Qed.

Lemma finit_length : length finit.2 = nthreads.
Proof. unfold finit; simpl. by rewrite length_fmap, length_seq. Qed.

Lemma freach_inv (I : fstate → Prop) :
  I finit → (∀ f f', I f → fstep f f' → I f') → ∀ f, freach f → I f.
Proof.
  intros Hinit Hpres. apply rtc_ind_r; [done|].
  intros f f' _ Hs IH. by apply (Hpres f).
Qed.

(** Without workers nothing happens to the shared variables. *)
Lemma no_threads f : nthreads = 0%nat → freach f → f = finit.
Proof.
  intros H0 Hf. revert f Hf. apply rtc_ind_r; [done|].
  intros f1 f2 _ Hs ->. apply fstep_inv in Hs as (t & l & _ & _ & Hl & _).
  unfold finit in Hl. rewrite H0 in Hl. done.
Qed.

Lemma reachable_inv (I : fstate → Prop) :
  I finit → (∀ f f', I f → fstep f f' → I f') →
  ∀ s, reachable s → I (flat_of s).
Proof.
  intros Hinit Hpres s Hs. apply freach_inv; [done|done|].
  by apply reachable_flat.
Qed.

Lemma threads_flat s t l :
  threads s !! t = Some l → (flat_of s).2 !! t = Some l.
Proof.
  intros H. unfold flat_of; simpl. rewrite lookup_app_l; [done|].
  by eapply lookup_lt_Some.
Qed.

(** If some step lowers a well-founded measure in every state in which a
    worker has not returned, the workers can run to completion from every
    state. *)
Lemma flat_live {A} (R : A → A → Prop) (μ : fstate → A) (I : fstate → Prop) :
  well_founded R →
  (∀ f f', I f → fstep f f' → I f') →
  (∀ f, I f → ¬ all_returned f.2 → ∃ f', fstep f f' ∧ R (μ f') (μ f)) →
  ∀ f, I f → ∃ f', rtc fstep f f' ∧ all_returned f'.2.
Proof.
  intros HR Hpres Hprog f.
  remember (μ f) as m eqn:Hm. revert f Hm.
  induction (HR m) as [m _ IH]. intros f -> Hf.
  destruct (all_returned_dec f.2) as [Hall|(t & l & Hl & Hr)].
  - exists f. split; [apply rtc_refl|done].
  - destruct (Hprog f Hf) as (f1 & Hs & Hlt).
    + intros Hall. rewrite (Hall t l Hl) in Hr. done.
    + destruct (IH (μ f1) Hlt f1 eq_refl) as (f' & Hs' & Hall').
      * by apply (Hpres f).
      * exists f'. split; [by eapply rtc_l|done].
Qed.

(** If every step lowers a measure in [nat], no execution of the workers
    is longer than the measure of its first state. *)
Lemma flat_bounded (μ : fstate → nat) (I : fstate → Prop) :
  (∀ f f', I f → fstep f f' → I f' ∧ (μ f' < μ f)%nat) →
  ∀ n f f', I f → nsteps fstep n f f' → (n + μ f' ≤ μ f)%nat.
Proof.
  intros Hdec n f f' Hf H. induction H as [f|n f f1 f' Hs _ IH]; [lia|].
  destruct (Hdec f f1 Hf Hs) as [Hf1 Hlt]. specialize (IH Hf1). lia.
Qed.

(** *** Round-robin schedulers, for concrete runs *)

Definition try_step (a : action) (s : rstate T) : rstate T :=
  default s (rstep a s).

(** One round: the launching thread, then the workers in the given order;
    whoever cannot take a step is skipped. *)
Definition round_in (order : list nat) (now : Z) (s : rstate T) : rstate T :=
  foldl (λ s t, try_step (AWorker t) s) (try_step (AMain now) s) order.

(** [n] rounds; the clock advances by [tick] per round. *)
Fixpoint rounds_in (order : list nat) (tick : Z) (n : nat) (now : Z)
    (s : rstate T) : rstate T :=
  match n with
  | O => s
  | S n' => rounds_in order tick n' (now + tick) (round_in order now s)
  end.

Definition rounds (n : nat) : rstate T :=
  rounds_in (seq 0 nthreads) 1 n 0 rinit.

Lemma try_step_steps a s : rtc step s (try_step a s).
Proof.
  unfold try_step. destruct (rstep a s) as [s'|] eqn:E; simpl.
  - apply rtc_once. by exists a.
  - apply rtc_refl.
Qed.

Lemma round_in_steps order now s : rtc step s (round_in order now s).
Proof.
  unfold round_in. eapply rtc_trans; [apply (try_step_steps (AMain now))|].
  generalize (try_step (AMain now) s).
  induction order as [|t ts IH]; intros s0; simpl; [apply rtc_refl|].
  eapply rtc_trans; [apply (try_step_steps (AWorker t))|apply IH].
Qed.

Lemma rounds_in_steps order tick n now s :
  rtc step s (rounds_in order tick n now s).
Proof.
  revert now s. induction n as [|n IH]; intros now s; simpl; [apply rtc_refl|].
  eapply rtc_trans; [apply round_in_steps|apply IH].
Qed.

Lemma rounds_in_reachable order tick n now :
  reachable (rounds_in order tick n now rinit).
Proof. apply rounds_in_steps. Qed.

Lemma rounds_reachable n : reachable (rounds n).
Proof. apply rounds_in_reachable. Qed.

(** The printed duration: ticks of the clock times the length of a tick
    in seconds. *)
Definition seconds (period : QArith_base.Q) (ticks : Z) : QArith_base.Q :=
  QArith_base.Qmult (QArith_base.inject_Z ticks) period.

Definition printed_seconds (period : QArith_base.Q) (s : rstate T)
  : option QArith_base.Q :=
  seconds period <$> total_time s.

End Runner.
End Runner.

(** ** One counter under a lock: [run_counter_test] *)

Module Counter.
Import Runner.

(** Program points of the workload lambda.  [counter++] on a plain
    [uint64_t] is a load followed by a store. *)
Inductive wpc :=
  | WLoop     (* loop test, then lock_guard's constructor *)
  | WLoad     (* read counter *)
  | WStore    (* write counter *)
  | WUnlock   (* lock_guard's destructor, then ++i *)
  | WRet.

Record wlocal := WLocal { pc : wpc; i : Z; tmp : Z }.

(** The captured variables: [std::mutex lock] (its owner, if any) and
    [uint64_t counter]. *)
Record wshared := WShared { lock : option nat; counter : Z }.

Section Workload.
Context (args : arg_t).

Definition workload (id : nat) (g : wshared) (l : wlocal)
  : option (wshared * wlocal) :=
  match pc l with
  | WLoop =>
      if i l <? num_ints args
      then match lock g with
           | None => Some (WShared (Some id) (counter g),
                           WLocal WLoad (i l) (tmp l))
           | Some _ => None
           end
      else Some (g, WLocal WRet (i l) (tmp l))
  | WLoad => Some (g, WLocal WStore (i l) (counter g))
  | WStore =>
      Some (WShared (lock g) (wrap_u64 (tmp l + 1)),
            WLocal WUnlock (i l) (tmp l))
  | WUnlock =>
      Some (WShared None (counter g),
            WLocal WLoop (wrap_int (i l + 1)) (tmp l))
  | WRet => None
  end.

Definition has_returned (l : wlocal) : bool :=
  match pc l with WRet => true | _ => false end.

Lemma counter_workload_returned t g l :
  has_returned l = true → workload t g l = None.
Proof. destruct l as [p a b]. destruct p; done. Qed.

Definition task : Task :=
  MkTask wshared wlocal (λ _, WLocal WLoop 0 0) workload has_returned
    counter_workload_returned.

Definition init : wshared := WShared None 0.

(** [run_counter_test(args)] under a schedule: the state in which the
    schedule leaves it. *)
Definition run_counter_test (sched : list action) : rstate task :=
  run task args init sched.

Definition reach (s : rstate task) : Prop := reachable task args init s.

(** *** Invariant *)

Definition critical (p : wpc) : bool :=
  match p with WLoad | WStore | WUnlock => true | _ => false end.

(** Completed increments of one worker. *)
Definition iters (l : wlocal) : Z :=
  match pc l with WUnlock => i l + 1 | _ => i l end.

Definition bound : Z := Z.max 0 (num_ints args).

Definition tinv (id : nat) (g : wshared) (l : wlocal) : Prop :=
  0 ≤ i l ≤ bound ∧
  (critical (pc l) = true → i l < bound) ∧
  (critical (pc l) = true ↔ lock g = Some id) ∧
  (pc l = WStore → tmp l = counter g) ∧
  (pc l = WRet → i l = bound).

Definition finv (f : fstate task) : Prop :=
  length f.2 = nthreads args ∧
  counter f.1 = sumZ iters f.2 ∧
  (∀ h, lock f.1 = Some h → (h < length f.2)%nat) ∧
  (∀ t l, f.2 !! t = Some l → tinv t f.1 l).

(** Steps still to be taken by one worker. *)
Definition remaining (l : wlocal) : Z :=
  match pc l with
  | WLoop => 4 * (bound - i l) + 1
  | WLoad => 4 * (bound - i l)
  | WStore => 4 * (bound - i l) - 1
  | WUnlock => 4 * (bound - i l) - 2
  | WRet => 0
  end.

Definition measure (f : fstate task) : nat := Z.to_nat (sumZ remaining f.2).

Local Ltac own_tinv :=
  unfold tinv, bound in *; simpl in *;
  intuition (try congruence; try lia).

Lemma counter_finv_init : finv (finit task args init).
Proof.
  unfold finv, finit; simpl. rewrite length_fmap, length_seq.
  split; [done|]. split.
  - symmetry. apply sumZ_zero. intros t x Hx.
    rewrite list_lookup_fmap in Hx.
    destruct (seq 0 (nthreads args) !! t); [|done]. by injection Hx as <-.
  - split; [done|]. intros t l Hl. rewrite list_lookup_fmap in Hl.
    destruct (seq 0 (nthreads args) !! t); [|done]. injection Hl as <-.
    own_tinv.
Qed.

Hypothesis Hwf : wf_args args.

Lemma counter_bound_range : 0 ≤ bound ≤ INT_MAX.
Proof.
  destruct Hwf as [H _]. unfold int_range, INT_MIN, INT_MAX, bound in *. lia.
Qed.

Lemma counter_nthreads_range : Z.of_nat (nthreads args) ≤ INT_MAX.
Proof.
  destruct Hwf as [_ H]. unfold int_range, INT_MIN, INT_MAX, nthreads in *.
  lia.
Qed.

Lemma iters_bounds t g l : tinv t g l → 0 ≤ iters l ≤ bound.
Proof.
  intros (Hi & Hc & _). unfold iters. destruct l as [p a b]; simpl in *.
  destruct p; simpl in *; lia.
Qed.

Lemma remaining_nonneg t g l : tinv t g l → 0 ≤ remaining l.
Proof.
  intros (Hi & Hc & _). unfold remaining. destruct l as [p a b]; simpl in *.
  destruct p; simpl in *; lia.
Qed.

(** No update is lost: the counter is always the number of completed
    increments, and it never reaches the range of [uint64_t]. *)
Lemma counter_no_wrap f :
  finv f → 0 ≤ counter f.1 ≤ INT_MAX * INT_MAX.
Proof.
  destruct f as [g ls]. intros (Hlen & Hcnt & _ & Hth). simpl in *.
  rewrite Hcnt. pose proof counter_bound_range.
  pose proof counter_nthreads_range.
  split.
  - apply sumZ_nonneg. intros t x Hx.
    by destruct (iters_bounds _ _ _ (Hth t x Hx)).
  - etrans.
    + apply (sumZ_le_const _ _ bound). intros t x Hx.
      by destruct (iters_bounds _ _ _ (Hth t x Hx)).
    + rewrite Hlen. unfold INT_MAX in *. nia.
Qed.

Lemma tinv_other t t' g g' l l' :
  t ≠ t' → tinv t g l → lock g = Some t ∨ lock g' = Some t →
  (lock g = None ∨ lock g = Some t) → (lock g' = None ∨ lock g' = Some t) →
  tinv t' g l' → tinv t' g' l'.
Proof.
  intros Hne Ht Hown Hg Hg' (Hi & Hc & Hl & Hs & Hr).
  assert (critical (pc l') = false) as Hnc.
  { destruct (critical (pc l')) eqn:E; [|done].
    destruct Hl as [Hl _]. specialize (Hl eq_refl).
    destruct Hg as [Hg|Hg]; congruence. }
  split; [done|]. split; [done|]. split; [|split; [|done]].
  - rewrite Hnc. split; [done|]. destruct Hg' as [Hg'|Hg']; congruence.
  - intros Hp. rewrite Hp in Hnc. done.
Qed.

Lemma counter_finv_step f f' :
  finv f → fstep task f f' → finv f' ∧ (measure f' < measure f)%nat.
Proof.
  intros Hinv Hstep. pose proof (counter_no_wrap f Hinv) as Hcw.
  destruct Hinv as (Hlen & Hcnt & Hlock & Hth).
  apply fstep_inv in Hstep as (t & l & g' & l' & Hl & Hstep & ->).
  destruct f as [g ls]; simpl in *.
  pose proof (Hth t l Hl) as Ht.
  pose proof (lookup_lt_Some _ _ _ Hl) as Hlt.
  pose proof counter_bound_range as Hb. unfold INT_MAX in *.
  assert (Hfin : finv (g', <[t:=l']> ls) ∧ remaining l' < remaining l).
  { unfold finv; simpl. rewrite length_insert, (sumZ_insert _ _ _ l) by done.
    destruct Ht as (Hi & Hc & Hlk & Hs & Hr).
    destruct l as [p a b], g as [lk c]; unfold workload in Hstep;
      simpl in *.
    destruct p; simpl in *.
    - (* WLoop *)
      destruct (Z.ltb_spec a (num_ints args)).
      + destruct lk as [h|]; [done|]. injection Hstep as <- <-.
        unfold iters, remaining in *; simpl. split; [|lia].
        split; [done|]. split; [lia|]. split.
        * intros h [= <-]. done.
        * intros t' l'' [(<- & <- & _)|(Hne & Hl'')]%list_lookup_insert_Some.
          -- own_tinv.
          -- apply (tinv_other t t' (WShared None c) _ (WLocal WLoop a b));
               simpl; auto; unfold tinv; simpl; repeat split; auto; done.
      + injection Hstep as <- <-. unfold iters, remaining in *; simpl.
        split; [|lia]. split; [done|]. split; [lia|]. split; [done|].
        intros t' l'' [(<- & <- & _)|(Hne & Hl'')]%list_lookup_insert_Some.
        * own_tinv.
        * by apply Hth.
    - (* WLoad *)
      injection Hstep as <- <-. unfold iters, remaining in *; simpl.
      split; [|lia]. split; [done|]. split; [lia|]. split; [done|].
      intros t' l'' [(<- & <- & _)|(Hne & Hl'')]%list_lookup_insert_Some.
      + own_tinv.
      + by apply Hth.
    - (* WStore *)
      injection Hstep as <- <-. unfold iters, remaining in *; simpl.
      specialize (Hs eq_refl). specialize (Hc eq_refl). subst b.
      rewrite wrap_u64_id by lia.
      split; [|lia]. split; [done|]. split; [lia|]. split; [done|].
      intros t' l'' [(<- & <- & _)|(Hne & Hl'')]%list_lookup_insert_Some.
      + own_tinv.
      + destruct Hlk as [Hlk _]. specialize (Hlk eq_refl).
        apply (tinv_other t t' (WShared lk c) _ (WLocal WStore a c));
          simpl; auto; unfold tinv; simpl; repeat split; auto; done.
    - (* WUnlock *)
      injection Hstep as <- <-. unfold iters, remaining in *; simpl.
      specialize (Hc eq_refl).
      rewrite wrap_int_id by (unfold int_range, INT_MIN, INT_MAX; lia).
      split; [|lia]. split; [done|]. split; [lia|]. split; [done|].
      intros t' l'' [(<- & <- & _)|(Hne & Hl'')]%list_lookup_insert_Some.
      + own_tinv.
      + destruct Hlk as [Hlk _]. specialize (Hlk eq_refl).
        apply (tinv_other t t' (WShared lk c) _ (WLocal WUnlock a b));
          simpl; auto; unfold tinv; simpl; repeat split; auto; done.
    - done. }
  destruct Hfin as [Hfin Hrem]. split; [done|].
  unfold measure; simpl. rewrite (sumZ_insert _ _ _ l) by done.
  assert (0 ≤ sumZ remaining (<[t:=l']> ls)).
  { apply sumZ_nonneg. intros k x Hx. destruct Hfin as (_ & _ & _ & Hth').
    by apply (remaining_nonneg k g'), Hth'. }
  rewrite (sumZ_insert _ _ _ l) in H by done. lia.
Qed.

(** *** Progress and final value *)

Lemma counter_finv_progress f :
  finv f → ¬ all_returned task f.2 → ∃ f', fstep task f f'.
Proof.
  intros (Hlen & Hcnt & Hlock & Hth) Hnot. destruct f as [g ls]; simpl in *.
  assert (∃ t l x, ls !! t = Some l ∧ workload t g l = Some x)
    as (t & l & [g' l'] & Hl & Hx).
  { destruct (lock g) as [h|] eqn:Elk.
    - destruct (lookup_lt_is_Some_2 ls h (Hlock h eq_refl)) as [l Hl].
      exists h, l. destruct (Hth h l Hl) as (_ & _ & [_ Hc] & _).
      specialize (Hc Elk). unfold workload.
      destruct l as [p a b]; simpl in *. destruct p; try done; eauto.
    - destruct (all_returned_dec task ls) as [?|(t & l & Hl & Hr)]; [done|].
      exists t, l. destruct (Hth t l Hl) as (_ & _ & [Hc _] & _).
      unfold workload. destruct l as [p a b]; simpl in *.
      destruct p; simpl in *; try done;
        try (specialize (Hc eq_refl); congruence).
      rewrite Elk. destruct (a <? num_ints args); eauto. }
  eexists. by eapply (fstep_intro task).
Qed.

(** From every state of the workers some execution runs to completion. *)
Lemma counter_live f :
  finv f → ∃ f', rtc (fstep task) f f' ∧ all_returned task f'.2.
Proof.
  apply (flat_live task lt measure finv lt_wf).
  - intros f1 f2 H1 Hs. by destruct (counter_finv_step f1 f2 H1 Hs).
  - intros f1 H1 Hnot. destruct (counter_finv_progress f1 H1 Hnot) as [f2 Hs].
    exists f2. split; [done|]. by destruct (counter_finv_step f1 f2 H1 Hs).
Qed.

(** Every execution of the workers is finite: at most four steps per
    increment and one more per worker. *)
Lemma counter_bounded n f :
  nsteps (fstep task) n (finit task args init) f →
  Z.of_nat n ≤ Z.of_nat (nthreads args) * (4 * bound + 1).
Proof.
  intros H.
  pose proof (flat_bounded task measure finv counter_finv_step n _ _
                counter_finv_init H) as Hb.
  assert (measure (finit task args init)
          = Z.to_nat (Z.of_nat (nthreads args) * (4 * bound + 1))) as Hm.
  { unfold measure, finit; simpl. f_equal.
    rewrite (sumZ_const _ _ (4 * bound + 1)).
    - by rewrite length_fmap, length_seq.
    - intros t x Hx. rewrite list_lookup_fmap in Hx.
      destruct (seq 0 (nthreads args) !! t); [|done]. injection Hx as <-.
      unfold remaining; simpl. lia. }
  pose proof counter_bound_range. lia.
Qed.

Lemma counter_final f :
  finv f → all_returned task f.2 →
  counter f.1 = Z.of_nat (nthreads args) * bound.
Proof.
  intros (Hlen & Hcnt & Hlock & Hth) Hall. rewrite Hcnt, <- Hlen.
  apply sumZ_const. intros t l Hl.
  specialize (Hall t l Hl). destruct (Hth t l Hl) as (_ & _ & _ & _ & Hr).
  unfold iters. destruct l as [p a b]; simpl in *. destruct p; try done.
  by apply Hr.
Qed.

Lemma counter_reach_finv s : reach s → finv (flat_of task args s).
Proof.
  apply (reachable_inv task args init Hwf finv counter_finv_init).
  intros f f' Hf Hs. by destruct (counter_finv_step f f' Hf Hs).
Qed.

(** When [run_counter_test] returns, the counter holds one increment per
    iteration of every worker. *)
Lemma run_counter_test_final s :
  reach s → main s = MDone →
  counter (mem s) = Z.max 0 (num_threads args) * Z.max 0 (num_ints args).
Proof.
  intros Hr Hm.
  destruct (joined_all task args init Hwf s Hr)
    as (Hf & Hlen & Hall); [auto|].
  pose proof (counter_reach_finv s Hr) as Hinv.
  rewrite flat_of_full in Hinv by done.
  pose proof (counter_final _ Hinv Hall) as Hfin. simpl in Hfin.
  rewrite Hfin. unfold nthreads, bound. lia.
Qed.

(** The counter never exceeds one increment per iteration of every
    worker. *)
Lemma run_counter_test_bounds s :
  reach s →
  0 ≤ counter (mem s) ≤ Z.max 0 (num_threads args) * Z.max 0 (num_ints args).
Proof.
  intros Hr. pose proof (counter_reach_finv s Hr) as Hinv.
  destruct (flat_of task args s) as [g ls] eqn:Hf.
  unfold flat_of in Hf. injection Hf as Hg _. subst g.
  destruct Hinv as (Hlen & Hcnt & _ & Hth). simpl in *.
  rewrite Hcnt. split.
  - apply sumZ_nonneg. intros t x Hx.
    by destruct (iters_bounds _ _ _ (Hth t x Hx)).
  - etrans.
    + apply (sumZ_le_const _ _ bound). intros t x Hx.
      by destruct (iters_bounds _ _ _ (Hth t x Hx)).
    + rewrite Hlen. unfold nthreads, bound. pose proof counter_bound_range. nia.
Qed.

(** From every state of [run_counter_test] some execution returns. *)
Lemma run_counter_test_returns s :
  reach s → ∃ s', rtc (step task args) s s' ∧ main s' = MDone.
Proof.
  apply (can_finish task args init Hwf).
  intros f Hf. apply counter_live.
  apply (freach_inv task args init finv counter_finv_init); [|done].
  intros f1 f2 H1 Hs. by destruct (counter_finv_step f1 f2 H1 Hs).
Qed.

(** The counter is read and written only by the owner of the lock. *)
Lemma counter_access_locked s t l :
  reach s → threads s !! t = Some l → pc l = WLoad ∨ pc l = WStore →
  lock (mem s) = Some t.
Proof.
  intros Hr Hl Hpc. destruct (counter_reach_finv s Hr) as (_ & _ & _ & Hth).
  pose proof (threads_flat task args s t l Hl) as Hl'.
  destruct (Hth t l Hl') as (_ & _ & [Hc _] & _). simpl in Hc.
  apply Hc. by destruct Hpc as [-> | ->].
Qed.

End Workload.
End Counter.

(** ** 1024 padded atomic counters: [run_counters_test] *)

Module Counters.
Import Runner.

Inductive spc :=
  | SLoop     (* loop test, rand_r, fetch-and-add, ++i *)
  | SRet
  | SFault.   (* counters[idx] outside the array *)

Record slocal := SLocal { pc : spc; i : Z; seed : Z }.

Definition NCOUNTERS : nat := 1024.

(** [rand_r(&seed) % 1024], with the remainder of C (truncating). *)
Definition shard_index (r : Z) : Z := Z.rem r 1024.

(** [counters[idx].counter++] on [std::atomic<uint64_t>]: one
    fetch-and-add; [None] when [idx] is outside the array. *)
Definition fetch_add (counters : list Z) (idx : Z) : option (list Z) :=
  if idx <? 0 then None
  else match counters !! Z.to_nat idx with
       | Some v => Some (<[Z.to_nat idx := wrap_u64 (v + 1)]> counters)
       | None => None
       end.

Section Workload.
Context (args : arg_t).

(** [rand_r] of the C library, as a function from the seed to the value
    returned and the seed left behind. *)
Context (rand_r : Z → Z * Z).

Definition workload (id : nat) (counters : list Z) (l : slocal)
  : option (list Z * slocal) :=
  match pc l with
  | SLoop =>
      if i l <? num_ints args
      then let (r, seed') := rand_r (seed l) in
           let idx := shard_index r in
           match fetch_add counters idx with
           | Some counters' =>
               Some (counters', SLocal SLoop (wrap_int (i l + 1)) seed')
           | None => Some (counters, SLocal SFault (i l) seed')
           end
      else Some (counters, SLocal SRet (i l) (seed l))
  | SRet | SFault => None
  end.

Definition has_returned (l : slocal) : bool :=
  match pc l with SRet => true | _ => false end.

Lemma counters_workload_returned t g l :
  has_returned l = true → workload t g l = None.
Proof. destruct l as [p a b]. destruct p; done. Qed.

Definition task : Task :=
  MkTask (list Z) slocal (λ id, SLocal SLoop 0 (wrap_u32 (Z.of_nat id)))
    workload has_returned counters_workload_returned.

(** [for (int i = 0; i < 1024; ++i) counters[i].counter = 0;] *)
Definition init : list Z := replicate NCOUNTERS 0.

Definition run_counters_test (sched : list action) : rstate task :=
  run task args init sched.

Definition reach (s : rstate task) : Prop := reachable task args init s.

(** The sum over all slots. *)
Definition slot_sum (counters : list Z) : Z := sumZ (λ v, v) counters.

(** *** Invariant *)

Definition bound : Z := Z.max 0 (num_ints args).

Definition tinv (l : slocal) : Prop :=
  0 ≤ i l ≤ bound ∧ pc l ≠ SFault ∧ (pc l = SRet → i l = bound).

Definition finv (f : fstate task) : Prop :=
  length f.2 = nthreads args ∧
  length f.1 = NCOUNTERS ∧
  (∀ k v, f.1 !! k = Some v → 0 ≤ v) ∧
  slot_sum f.1 = sumZ i f.2 ∧
  (∀ t l, f.2 !! t = Some l → tinv l).

Definition remaining (l : slocal) : Z :=
  match pc l with
  | SLoop => bound - i l + 1
  | SRet | SFault => 0
  end.

Definition measure (f : fstate task) : nat := Z.to_nat (sumZ remaining f.2).

Lemma shard_index_range r : 0 ≤ r → 0 ≤ shard_index r < 1024.
Proof. intros H. unfold shard_index. apply Z.rem_bound_pos; lia. Qed.

Lemma fetch_add_in_range counters idx :
  length counters = NCOUNTERS → 0 ≤ idx < 1024 →
  ∃ v, counters !! Z.to_nat idx = Some v ∧
       fetch_add counters idx
       = Some (<[Z.to_nat idx := wrap_u64 (v + 1)]> counters).
Proof.
  intros Hlen Hidx. unfold fetch_add.
  destruct (Z.ltb_spec idx 0); [lia|].
  destruct (lookup_lt_is_Some_2 counters (Z.to_nat idx)) as [v Hv].
  { rewrite Hlen. unfold NCOUNTERS. lia. }
  exists v. by rewrite Hv.
Qed.

Lemma counters_finv_init : finv (finit task args init).
Proof.
  unfold finv, finit, init; cbn [fst snd].
  rewrite length_fmap, length_seq, length_replicate.
  split; [done|]. split; [done|]. split; [|split].
  - intros k v [-> _]%lookup_replicate. lia.
  - unfold slot_sum. rewrite (sumZ_zero (λ v, v)), sumZ_zero; [done| |].
    + intros t x Hx. rewrite list_lookup_fmap in Hx.
      destruct (seq 0 (nthreads args) !! t); [|done]. by injection Hx as <-.
    + by intros k v [-> _]%lookup_replicate.
  - intros t l Hl. rewrite list_lookup_fmap in Hl.
    destruct (seq 0 (nthreads args) !! t); [|done]. injection Hl as <-.
    unfold tinv, bound; simpl. repeat split; try done; lia.
Qed.

(** *** No iterations: [num_ints <= 0]

    The loop guard fails at once, [rand_r] is never called and no slot is
    touched. *)

Definition idle (f : fstate task) : Prop :=
  f.1 = init ∧
  ∀ t l, f.2 !! t = Some l → i l = 0 ∧ (pc l = SLoop ∨ pc l = SRet).

Definition waiting (l : slocal) : Z :=
  match pc l with SLoop => 1 | _ => 0 end.

Lemma idle_init : idle (finit task args init).
Proof.
  split; [done|]. intros t l ->%(finit_lookup task args init). simpl. auto.
Qed.

Lemma idle_step f f' :
  num_ints args ≤ 0 → idle f → fstep task f f' →
  idle f' ∧ 0 ≤ sumZ waiting f'.2 < sumZ waiting f.2.
Proof.
  intros Hn [Hg Hth] Hstep.
  apply fstep_inv in Hstep as (t & l & g' & l' & Hl & Hstep & ->).
  destruct f as [g ls]; cbn [fst snd shared local task] in *. subst g.
  destruct (Hth t l Hl) as [Hi Hpc]. cbn [tstep task] in Hstep.
  unfold workload in Hstep. destruct l as [p a sd]; cbn [pc i seed] in *.
  subst a. assert (p = SLoop) as ->.
  { destruct Hpc as [->| ->]; [done|discriminate Hstep]. }
  destruct (Z.ltb_spec 0 (num_ints args)) as [?|_]; [lia|].
  injection Hstep as <- <-.
  assert (idle (init, <[t:=SLocal SRet 0 sd]> ls)) as Hidle.
  { split; [done|]. cbn [fst snd].
    intros t' l'' [(_ & <- & _)|(_ & Hl'')]%list_lookup_insert_Some;
      [simpl; auto|by apply (Hth t')]. }
  split; [done|]. rewrite (sumZ_insert _ _ _ _ _ Hl).
  assert (0 ≤ sumZ waiting (<[t:=SLocal SRet 0 sd]> ls)) as H0.
  { apply sumZ_nonneg. intros k x _. unfold waiting. destruct (pc x); lia. }
  rewrite (sumZ_insert _ _ _ _ _ Hl) in H0. unfold waiting in *.
  cbn [pc] in *. lia.
Qed.

Lemma idle_progress f :
  idle f → ¬ all_returned task f.2 → ∃ f', fstep task f f'.
Proof.
  intros [Hg Hth] Hnot. destruct f as [g ls]; cbn [fst snd] in *.
  destruct (all_returned_dec task ls) as [?|(t & l & Hl & Hr)]; [done|].
  destruct (Hth t l Hl) as [Hi Hpc].
  assert (∃ x, workload t g l = Some x) as [[g' l'] Hx].
  { unfold workload. destruct l as [p a sd]; cbn [pc i seed] in *.
    destruct Hpc as [->| ->]; [|done].
    destruct (a <? num_ints args); [|eauto].
    destruct (rand_r sd) as [r sd'].
    destruct (fetch_add g (shard_index r)); eauto. }
  eexists. by eapply (fstep_intro task).
Qed.

Lemma idle_live f :
  num_ints args ≤ 0 → idle f →
  ∃ f', rtc (fstep task) f f' ∧ all_returned task f'.2.
Proof.
  intros Hn.
  apply (flat_live task (λ n m, 0 ≤ n < m) (λ f, sumZ waiting f.2) idle
           (Z.lt_wf 0)).
  - intros f1 f2 H1 Hs. by destruct (idle_step f1 f2 Hn H1 Hs).
  - intros f1 H1 Hnot. destruct (idle_progress f1 H1 Hnot) as [f2 Hs].
    exists f2. split; [done|]. by destruct (idle_step f1 f2 Hn H1 Hs).
Qed.

Lemma slot_sum_init : slot_sum init = 0.
Proof.
  unfold slot_sum, init. apply sumZ_zero.
  by intros k v [-> _]%lookup_replicate.
Qed.

Hypothesis Hwf : wf_args args.

(** [rand_r] returns a value between 0 and [RAND_MAX]. *)
Hypothesis rand_r_nonneg : ∀ s, 0 ≤ (rand_r s).1.

Lemma counters_bound_range : 0 ≤ bound ≤ INT_MAX.
Proof.
  destruct Hwf as [H _]. unfold int_range, INT_MIN, INT_MAX, bound in *. lia.
Qed.

Lemma counters_nthreads_range : Z.of_nat (nthreads args) ≤ INT_MAX.
Proof.
  destruct Hwf as [_ H]. unfold int_range, INT_MIN, INT_MAX, nthreads in *.
  lia.
Qed.

(** The slots together never hold more than one increment per iteration
    of every worker, far below the range of [uint64_t]. *)
Lemma slots_no_wrap f k v :
  finv f → f.1 !! k = Some v → 0 ≤ v ≤ INT_MAX * INT_MAX.
Proof.
  destruct f as [g ls]. intros (Hlen & Hlc & Hnn & Hsum & Hth) Hv.
  simpl in *. pose proof counters_bound_range.
  pose proof counters_nthreads_range.
  split; [by apply (Hnn k)|].
  etrans; [apply (sumZ_elem_le (λ v, v) g k v Hnn Hv)|].
  unfold slot_sum in Hsum. rewrite Hsum.
  etrans.
  - apply (sumZ_le_const _ _ bound). intros t x Hx.
    destruct (Hth t x Hx) as (? & _). lia.
  - rewrite Hlen. unfold INT_MAX in *. nia.
Qed.

Lemma counters_finv_step f f' :
  finv f → fstep task f f' → finv f' ∧ (measure f' < measure f)%nat.
Proof.
  intros Hinv Hstep. pose proof (slots_no_wrap f) as Hnw.
  specialize (λ k v, Hnw k v Hinv).
  destruct Hinv as (Hlen & Hlc & Hnn & Hsum & Hth).
  apply fstep_inv in Hstep as (t & l & g' & l' & Hl & Hstep & ->).
  destruct f as [g ls]; cbn [fst snd shared local task] in *.
  pose proof (Hth t l Hl) as (Hi & Hnf & Hr).
  pose proof counters_bound_range as Hb. unfold INT_MAX in *.
  assert (num_ints args ≤ bound) as Hnb by (unfold bound; lia).
  assert (Hfin : finv (g', <[t:=l']> ls) ∧ remaining l' < remaining l).
  { unfold finv; cbn [fst snd].
    rewrite length_insert, (sumZ_insert _ _ _ l) by done.
    cbn [tstep task] in Hstep.
    destruct l as [p a sd]; unfold workload in Hstep; cbn [pc i seed] in *.
    destruct p; [|done|done].
    destruct (Z.ltb_spec a (num_ints args)) as [Hlt|Hge].
    - destruct (rand_r sd) as [r sd'] eqn:Er.
      pose proof (rand_r_nonneg sd) as Hr0. rewrite Er in Hr0. simpl in Hr0.
      destruct (fetch_add_in_range g (shard_index r) Hlc
                  (shard_index_range r Hr0)) as (v & Hv & Hfa).
      rewrite Hfa in Hstep. injection Hstep as <- <-.
      specialize (Hnw _ _ Hv).
      rewrite wrap_u64_id by lia.
      rewrite wrap_int_id by (unfold int_range, INT_MIN, INT_MAX; lia).
      unfold remaining; cbn [pc i seed].
      split; [|lia]. split; [done|]. split; [by rewrite length_insert|].
      split; [|split].
      + intros k x [(_ & <- & _)|(_ & Hx)]%list_lookup_insert_Some;
          [lia|by apply (Hnn k)].
      + unfold slot_sum in *. rewrite (sumZ_insert _ _ _ v) by done.
        rewrite Hsum. lia.
      + intros t' l'' [(_ & <- & _)|(_ & Hl'')]%list_lookup_insert_Some;
          [|by apply (Hth t')].
        unfold tinv, bound in *; cbn [pc i seed]. repeat split; try done; lia.
    - injection Hstep as <- <-. unfold remaining; cbn [pc i seed].
      split; [|lia]. split; [done|]. split; [done|]. split; [done|].
      split; [lia|].
      intros t' l'' [(_ & <- & _)|(_ & Hl'')]%list_lookup_insert_Some;
        [|by apply (Hth t')].
      unfold tinv, bound in *; cbn [pc i seed]. repeat split; try done; lia. }
  destruct Hfin as [Hfin Hrem]. split; [done|].
  unfold measure; cbn [fst snd]. rewrite (sumZ_insert _ _ _ l) by done.
  assert (0 ≤ sumZ remaining (<[t:=l']> ls)) as H.
  { apply sumZ_nonneg. intros k x Hx. destruct Hfin as (_ & _ & _ & _ & Hth').
    destruct (Hth' k x Hx) as (? & _). unfold remaining.
    destruct (pc x); lia. }
  rewrite (sumZ_insert _ _ _ l) in H by done. lia.
Qed.

Lemma counters_finv_progress f :
  finv f → ¬ all_returned task f.2 → ∃ f', fstep task f f'.
Proof.
  intros (Hlen & Hlc & Hnn & Hsum & Hth) Hnot.
  destruct f as [g ls]; cbn [fst snd] in *.
  destruct (all_returned_dec task ls) as [?|(t & l & Hl & Hr)]; [done|].
  assert (∃ x, workload t g l = Some x) as [[g' l'] Hx].
  { destruct (Hth t l Hl) as (_ & Hnf & _). unfold workload.
    destruct l as [p a sd]; cbn [pc i seed] in *.
    destruct p; [|done|done].
    destruct (a <? num_ints args); [|eauto].
    destruct (rand_r sd) as [r sd'].
    destruct (fetch_add g (shard_index r)); eauto. }
  eexists. by eapply (fstep_intro task).
Qed.

Lemma counters_live f :
  finv f → ∃ f', rtc (fstep task) f f' ∧ all_returned task f'.2.
Proof.
  apply (flat_live task lt measure finv lt_wf).
  - intros f1 f2 H1 Hs. by destruct (counters_finv_step f1 f2 H1 Hs).
  - intros f1 H1 Hnot. destruct (counters_finv_progress f1 H1 Hnot) as [f2 Hs].
    exists f2. split; [done|]. by destruct (counters_finv_step f1 f2 H1 Hs).
Qed.

(** Every execution of the workers is finite: one step per increment
    and one more per worker. *)
Lemma counters_bounded n f :
  nsteps (fstep task) n (finit task args init) f →
  Z.of_nat n ≤ Z.of_nat (nthreads args) * (bound + 1).
Proof.
  intros H.
  pose proof (flat_bounded task measure finv counters_finv_step n _ _
                counters_finv_init H) as Hb.
  assert (measure (finit task args init)
          = Z.to_nat (Z.of_nat (nthreads args) * (bound + 1))) as Hm.
  { unfold measure, finit; cbn [fst snd]. f_equal.
    rewrite (sumZ_const _ _ (bound + 1)).
    - by rewrite length_fmap, length_seq.
    - intros t x Hx. rewrite list_lookup_fmap in Hx.
      destruct (seq 0 (nthreads args) !! t); [|done]. injection Hx as <-.
      unfold remaining; cbn [pc i seed]. lia. }
  pose proof counters_bound_range. lia.
Qed.

Lemma counters_final f :
  finv f → all_returned task f.2 →
  slot_sum f.1 = Z.of_nat (nthreads args) * bound.
Proof.
  intros (Hlen & Hlc & Hnn & Hsum & Hth) Hall. rewrite Hsum, <- Hlen.
  apply sumZ_const. intros t l Hl.
  specialize (Hall t l Hl). destruct (Hth t l Hl) as (_ & _ & Hr).
  destruct l as [p a sd]; cbn [pc i seed] in *. destruct p; try done.
  by apply Hr.
Qed.

Lemma counters_reach_finv s : reach s → finv (flat_of task args s).
Proof.
  apply (reachable_inv task args init Hwf finv counters_finv_init).
  intros f f' Hf Hs. by destruct (counters_finv_step f f' Hf Hs).
Qed.

(** When [run_counters_test] returns, the slots together hold one
    increment per iteration of every worker. *)
Lemma run_counters_test_final s :
  reach s → main s = MDone →
  length (mem s) = NCOUNTERS ∧
  slot_sum (mem s) = Z.max 0 (num_threads args) * Z.max 0 (num_ints args).
Proof.
  intros Hr Hm.
  destruct (joined_all task args init Hwf s Hr)
    as (Hf & Hlen & Hall); [auto|].
  pose proof (counters_reach_finv s Hr) as Hinv.
  rewrite flat_of_full in Hinv by done.
  pose proof (counters_final _ Hinv Hall) as Hfin. cbn [fst snd] in Hfin.
  destruct Hinv as (_ & Hlc & _). split; [done|].
  rewrite Hfin. unfold nthreads, bound. lia.
Qed.

Lemma run_counters_test_returns s :
  reach s → ∃ s', rtc (step task args) s s' ∧ main s' = MDone.
Proof.
  apply (can_finish task args init Hwf).
  intros f Hf. apply counters_live.
  apply (freach_inv task args init finv counters_finv_init); [|done].
  intros f1 f2 H1 Hs. by destruct (counters_finv_step f1 f2 H1 Hs).
Qed.

(** No worker ever indexes outside the array. *)
Lemma no_out_of_bounds s t l :
  reach s → threads s !! t = Some l → pc l ≠ SFault.
Proof.
  intros Hr Hl. destruct (counters_reach_finv s Hr) as (_ & _ & _ & _ & Hth).
  pose proof (threads_flat task args s t l Hl) as Hl'.
  by destruct (Hth t l Hl') as (_ & ? & _).
Qed.

(** With [num_ints <= 0] the slots stay as initialised, whatever [rand_r]
    is, and the run returns. *)
Lemma run_counters_test_idle s :
  num_ints args ≤ 0 → reach s → mem s = init.
Proof.
  intros Hn Hr.
  assert (idle (flat_of task args s)) as [Hg _]; [|done].
  apply (reachable_inv task args init Hwf idle idle_init); [|done].
  intros f f' Hf Hs. by destruct (idle_step f f' Hn Hf Hs).
Qed.

Lemma run_counters_test_idle_returns s :
  num_ints args ≤ 0 → reach s →
  ∃ s', rtc (step task args) s s' ∧ main s' = MDone.
Proof.
  intros Hn. apply (can_finish task args init Hwf).
  intros f Hf. apply idle_live; [done|].
  apply (freach_inv task args init idle idle_init); [|done].
  intros f1 f2 H1 Hs. by destruct (idle_step f1 f2 Hn H1 Hs).
Qed.

End Workload.

(** A sample generator for concrete runs: the linear congruential
    generator of the C standard's example. *)
Definition sample_rand_r (seed : Z) : Z * Z :=
  let next := (seed * 1103515245 + 12345) mod 4294967296 in
  ((next / 65536) mod 32768, next).

Lemma sample_rand_r_nonneg s : 0 ≤ (sample_rand_r s).1.
Proof.
  unfold sample_rand_r. simpl.
  pose proof (Z.mod_pos_bound
    (((s * 1103515245 + 12345) mod 4294967296) / 65536) 32768). lia.
Qed.

End Counters.

(** ** One producer, many consumers: [run_queue_test] *)

Module Queue.
Import Runner.

(** Program points of the workload lambda. *)
Inductive qpc :=
  (* producer, id == 0 *)
  | PLoop      (* loop test; lock_guard's constructor, or done = true *)
  | PPush      (* my_queue.push(i) *)
  | PUnlock    (* lock_guard's destructor, then ++i *)
  (* consumers *)
  | CLock      (* lock_guard's constructor *)
  | CEmpty     (* my_queue.empty() of the first test *)
  | CDone      (* && done *)
  | CEmpty2    (* !my_queue.empty() of the second test *)
  | CFront     (* my_sum += my_queue.front() *)
  | CPop       (* ++my_count; my_queue.pop() *)
  | CUnlock    (* lock_guard's destructor at the end of the loop body *)
  | CBreak     (* lock_guard's destructor on break *)
  | CPrint     (* printf("Thread/Count/Sum ...") *)
  | CAddSum    (* sum += my_sum *)
  | CAddCount  (* count += my_count *)
  (* everyone *)
  | Barrier    (* while (count != (num_threads - 1) * num_ints) {} *)
  | PTotal     (* printf("Total Sum: ...", sum.load()) *)
  | QRet.

Record qlocal := QLocal { pc : qpc; i : Z; my_sum : Z; my_count : Z }.

Inductive output :=
  | ThreadCountSum (id : nat) (c s : Z)
  | TotalSum (s : Z).

(** The captured variables, the lines written to standard output, and
    two history variables that no step reads: the items pushed so far and
    the items popped so far, each with the thread that popped it. *)
Record qshared := QShared {
  lock : option nat;
  my_queue : list Z;
  done : bool;
  sum : Z;
  count : Z;
  out : list output;
  pushed : list Z;
  popped : list (nat * Z)
}.

Definition set_pc (p : qpc) (l : qlocal) : qlocal :=
  QLocal p (i l) (my_sum l) (my_count l).

Definition set_lock (o : option nat) (g : qshared) : qshared :=
  QShared o (my_queue g) (done g) (sum g) (count g) (out g) (pushed g)
    (popped g).

Definition set_done (b : bool) (g : qshared) : qshared :=
  QShared (lock g) (my_queue g) b (sum g) (count g) (out g) (pushed g)
    (popped g).

Definition set_sum (z : Z) (g : qshared) : qshared :=
  QShared (lock g) (my_queue g) (done g) z (count g) (out g) (pushed g)
    (popped g).

Definition set_count (z : Z) (g : qshared) : qshared :=
  QShared (lock g) (my_queue g) (done g) (sum g) z (out g) (pushed g)
    (popped g).

Definition print (o : output) (g : qshared) : qshared :=
  QShared (lock g) (my_queue g) (done g) (sum g) (count g) (out g ++ [o])
    (pushed g) (popped g).

Definition push (v : Z) (g : qshared) : qshared :=
  QShared (lock g) (my_queue g ++ [v]) (done g) (sum g) (count g) (out g)
    (pushed g ++ [v]) (popped g).

(** [pop] by thread [id] of a queue whose front is [v] and rest is [q]. *)
Definition pop (id : nat) (v : Z) (q : list Z) (g : qshared) : qshared :=
  QShared (lock g) q (done g) (sum g) (count g) (out g) (pushed g)
    (popped g ++ [(id, v)]).

Definition is_empty (q : list Z) : bool :=
  match q with [] => true | _ => false end.

Section Workload.
Context (args : arg_t).

(** [(args.num_threads - 1) * args.num_ints], computed in [int]. *)
Definition total_work : Z :=
  wrap_int (wrap_int (num_threads args - 1) * num_ints args).

Definition workload (id : nat) (g : qshared) (l : qlocal)
  : option (qshared * qlocal) :=
  match pc l with
  | PLoop =>
      if i l <? total_work
      then match lock g with
           | None => Some (set_lock (Some id) g, set_pc PPush l)
           | Some _ => None
           end
      else Some (set_done true g, set_pc Barrier l)
  | PPush => Some (push (i l) g, set_pc PUnlock l)
  | PUnlock =>
      Some (set_lock None g,
            QLocal PLoop (wrap_int (i l + 1)) (my_sum l) (my_count l))
  | CLock =>
      match lock g with
      | None => Some (set_lock (Some id) g, set_pc CEmpty l)
      | Some _ => None
      end
  | CEmpty =>
      Some (g, set_pc (if is_empty (my_queue g) then CDone else CEmpty2) l)
  | CDone => Some (g, set_pc (if done g then CBreak else CEmpty2) l)
  | CEmpty2 =>
      Some (g, set_pc (if is_empty (my_queue g) then CUnlock else CFront) l)
  | CFront =>
      match my_queue g with
      | v :: _ =>
          Some (g, QLocal CPop (i l) (wrap_i64 (my_sum l + v)) (my_count l))
      | [] => None
      end
  | CPop =>
      match my_queue g with
      | v :: q =>
          Some (pop id v q g,
                QLocal CUnlock (i l) (my_sum l) (wrap_int (my_count l + 1)))
      | [] => None
      end
  | CUnlock => Some (set_lock None g, set_pc CLock l)
  | CBreak => Some (set_lock None g, set_pc CPrint l)
  | CPrint =>
      Some (print (ThreadCountSum id (my_count l) (my_sum l)) g,
            set_pc CAddSum l)
  | CAddSum =>
      Some (set_sum (wrap_i64 (sum g + my_sum l)) g, set_pc CAddCount l)
  | CAddCount =>
      Some (set_count (wrap_int (count g + my_count l)) g, set_pc Barrier l)
  | Barrier =>
      if count g =? total_work
      then Some (g, set_pc (if (id =? 0)%nat then PTotal else QRet) l)
      else Some (g, l)
  | PTotal => Some (print (TotalSum (sum g)) g, set_pc QRet l)
  | QRet => None
  end.

Definition has_returned (l : qlocal) : bool :=
  match pc l with QRet => true | _ => false end.

(** The call [workload(id)]: the branch on [id == 0] is local. *)
Definition enter (id : nat) : qlocal :=
  QLocal (if (id =? 0)%nat then PLoop else CLock) 0 0 0.

Lemma queue_workload_returned t g l :
  has_returned l = true → workload t g l = None.
Proof. destruct l as [p a b c]. destruct p; done. Qed.

Definition task : Task :=
  MkTask qshared qlocal enter workload has_returned queue_workload_returned.

Definition init : qshared := QShared None [] false 0 0 [] [] [].

Definition run_queue_test (sched : list action) : rstate task :=
  run task args init sched.

Definition reach (s : rstate task) : Prop := reachable task args init s.

(** *** Invariant *)

(** Program points inside a critical section of [lock]. *)
Definition critical (p : qpc) : bool :=
  match p with
  | PPush | PUnlock | CEmpty | CDone | CEmpty2 | CFront | CPop | CUnlock
  | CBreak => true
  | _ => false
  end.

(** Program points that touch [my_queue]. *)
Definition uses_queue (p : qpc) : bool :=
  match p with
  | PPush | CEmpty | CEmpty2 | CFront | CPop => true
  | _ => false
  end.

Definition is_prod (p : qpc) : bool :=
  match p with
  | PLoop | PPush | PUnlock | Barrier | PTotal | QRet => true
  | _ => false
  end.

Definition is_cons (p : qpc) : bool :=
  match p with
  | PLoop | PPush | PUnlock | PTotal => false
  | _ => true
  end.

(** The producer has left its loop. *)
Definition past_loop (p : qpc) : bool :=
  match p with Barrier | PTotal | QRet => true | _ => false end.

(** A consumer has left its loop. *)
Definition after_loop (p : qpc) : bool :=
  match p with
  | CBreak | CPrint | CAddSum | CAddCount | Barrier | QRet => true
  | _ => false
  end.

Definition needs_item (p : qpc) : bool :=
  match p with CFront | CPop => true | _ => false end.

(** Past the barrier. *)
Definition exited (p : qpc) : bool :=
  match p with PTotal | QRet => true | _ => false end.

(** Items popped by a consumer and not yet added to [count]. *)
Definition cnt_pend (l : qlocal) : Z :=
  match pc l with Barrier | PTotal | QRet => 0 | _ => my_count l end.

(** Their values, not yet added to [sum]. *)
Definition sum_pend (l : qlocal) : Z :=
  match pc l with
  | CAddCount | Barrier | PTotal | QRet => 0
  | _ => my_sum l
  end.

(** Between [front] and [pop] the front item is in [my_sum] already. *)
Definition front_taken (q : list Z) (l : qlocal) : Z :=
  match pc l with CPop => hd 0 q | _ => 0 end.

(** Items pushed by the producer. *)
Definition produced (l : qlocal) : Z :=
  match pc l with PUnlock => i l + 1 | _ => i l end.

(** The number of items the producer pushes in all. *)
Definition work : Z := Z.max 0 total_work.

Definition triangle (n : Z) : Z := n * (n - 1) / 2.

Definition values (ps : list (nat * Z)) : list Z := snd <$> ps.

Definition total (vs : list Z) : Z := sumZ (λ v, v) vs.

Definition prod_inv (g : qshared) (l : qlocal) : Prop :=
  is_prod (pc l) = true ∧ my_sum l = 0 ∧ my_count l = 0 ∧
  0 ≤ i l ≤ work ∧
  (critical (pc l) = true → i l < total_work) ∧
  Z.of_nat (length (pushed g)) = produced l ∧
  done g = past_loop (pc l) ∧
  (past_loop (pc l) = true → i l = work) ∧
  (pc l = QRet → TotalSum (triangle work) ∈ out g).

Definition cons_inv (g : qshared) (l : qlocal) : Prop :=
  is_cons (pc l) = true ∧ i l = 0 ∧
  (needs_item (pc l) = true → my_queue g ≠ []) ∧
  (pc l = CDone → my_queue g = []) ∧
  (after_loop (pc l) = true → my_queue g = [] ∧ done g = true).

Definition tinv (id : nat) (g : qshared) (l : qlocal) : Prop :=
  (critical (pc l) = true ↔ lock g = Some id) ∧
  (exited (pc l) = true → count g = total_work) ∧
  0 ≤ my_count l ∧ 0 ≤ my_sum l ∧
  (pc l ≠ CPop → my_count l = 0 → my_sum l = 0) ∧
  if (id =? 0)%nat then prod_inv g l else cons_inv g l.

Record ginv (g : qshared) (ls : list qlocal) : Prop := GInv {
  g_len : length ls = nthreads args;
  g_lock : ∀ h, lock g = Some h → (h < length ls)%nat;
  g_seq : pushed g = seqZ 0 (Z.of_nat (length (pushed g)));
  g_work : Z.of_nat (length (pushed g)) ≤ work;
  g_fifo : pushed g = values (popped g) ++ my_queue g;
  g_count : count g + sumZ cnt_pend ls = Z.of_nat (length (popped g));
  g_sum : sum g + sumZ sum_pend ls
          = total (values (popped g)) + sumZ (front_taken (my_queue g)) ls;
  g_count0 : 0 ≤ count g;
  g_sum0 : 0 ≤ sum g;
  g_out : ∀ x, TotalSum x ∈ out g → x = triangle work;
  g_threads : ∀ t l, ls !! t = Some l → tinv t g l;
  g_poppers : ∀ id v, (id, v) ∈ popped g → id ≠ 0%nat ∧ (id < length ls)%nat
}.

Definition finv (f : fstate task) : Prop := ginv f.1 f.2.

(** *** Arithmetic of the items *)

Lemma total_app vs ws : total (vs ++ ws) = total vs + total ws.
Proof. apply sumZ_app. Qed.

Lemma total_seqZ (n : nat) :
  2 * total (seqZ 0 (Z.of_nat n)) = Z.of_nat n * (Z.of_nat n - 1).
Proof.
  induction n as [|n IH].
  - done.
  - rewrite seqZ_S, total_app. unfold total at 2. simpl sumZ. lia.
Qed.

Lemma triangle_spec (n : nat) :
  total (seqZ 0 (Z.of_nat n)) = triangle (Z.of_nat n).
Proof.
  unfold triangle. rewrite <- total_seqZ.
  by rewrite Z.mul_comm, Z.div_mul.
Qed.

Lemma total_nonneg vs : (∀ v, v ∈ vs → 0 ≤ v) → 0 ≤ total vs.
Proof.
  intros H. apply sumZ_nonneg. intros t x Hx. apply H.
  by apply list_elem_of_lookup_2 in Hx.
Qed.

Lemma seqZ_nonneg (n : nat) v : v ∈ seqZ 0 (Z.of_nat n) → 0 ≤ v.
Proof. intros [k [-> _]%lookup_seqZ]%list_elem_of_lookup. lia. Qed.

Lemma triangle_mono n m : 0 ≤ n ≤ m → triangle n ≤ triangle m.
Proof.
  intros H. unfold triangle. apply Z.div_le_mono; [lia|].
  destruct (decide (m = 0)) as [->|Hm].
  - assert (n = 0) as -> by lia. lia.
  - assert (0 ≤ (m - n) * (m + n - 1)) by (apply Z.mul_nonneg_nonneg; lia).
    lia.
Qed.

Lemma triangle_nonneg n : 0 ≤ n → 0 ≤ triangle n.
Proof.
  intros H. unfold triangle. apply Z.div_pos; [|lia].
  destruct (decide (n = 0)) as [->|]; [lia|nia].
Qed.

(** *** Consequences of the invariant *)

Lemma total_work_range : int_range total_work.
Proof. apply wrap_int_in_range. Qed.

Lemma work_range : 0 ≤ work ≤ INT_MAX.
Proof.
  pose proof total_work_range. unfold int_range, INT_MIN, INT_MAX, work in *.
  lia.
Qed.

Lemma queue_finv_init : finv (finit task args init).
Proof.
  pose proof work_range.
  split; cbn [fst snd init lock my_queue done sum count out pushed popped].
  - apply (finit_length task args init).
  - done.
  - done.
  - simpl. lia.
  - done.
  - rewrite sumZ_zero; [done|]. intros t l ->%(finit_lookup task args init).
    unfold cnt_pend, entry, task, enter; simpl. by destruct (t =? 0)%nat.
  - rewrite !sumZ_zero; [done| |].
    + intros t l ->%(finit_lookup task args init).
      unfold front_taken, entry, task, enter; simpl. by destruct (t =? 0)%nat.
    + intros t l ->%(finit_lookup task args init).
      unfold sum_pend, entry, task, enter; simpl. by destruct (t =? 0)%nat.
  - done.
  - done.
  - intros x Hx. by apply elem_of_nil in Hx.
  - intros t l ->%(finit_lookup task args init).
    unfold tinv, entry, task, enter, prod_inv, cons_inv; simpl.
    destruct (t =? 0)%nat eqn:E; simpl; rewrite ?E; repeat split;
      try done; try lia.
  - intros id v Hx. by apply elem_of_nil in Hx.
Qed.

Section Facts.
Context (g : qshared) (ls : list qlocal) (Hinv : ginv g ls).

(** Mutual exclusion: only the owner of the lock is inside a critical
    section. *)
Lemma not_owner_not_critical t l :
  ls !! t = Some l → lock g ≠ Some t → critical (pc l) = false.
Proof.
  intros Hl Hne. destruct (g_threads g ls Hinv t l Hl) as ([Hc _] & _).
  destruct (critical (pc l)); [|done]. by specialize (Hc eq_refl).
Qed.

Lemma owner_critical t :
  lock g = Some t → ∃ l, ls !! t = Some l ∧ critical (pc l) = true.
Proof.
  intros Hlk.
  destruct (lookup_lt_is_Some_2 ls t (g_lock g ls Hinv t Hlk)) as [l Hl].
  exists l. split; [done|].
  destruct (g_threads g ls Hinv t l Hl) as ([_ Hc] & _). by apply Hc.
Qed.

Lemma pushed_values v : v ∈ pushed g → 0 ≤ v.
Proof. rewrite (g_seq g ls Hinv). apply seqZ_nonneg. Qed.

Lemma queue_values v : v ∈ my_queue g → 0 ≤ v.
Proof.
  intros Hv. apply pushed_values. rewrite (g_fifo g ls Hinv).
  apply elem_of_app. by right.
Qed.

Lemma popped_values v : v ∈ values (popped g) → 0 ≤ v.
Proof.
  intros Hv. apply pushed_values. rewrite (g_fifo g ls Hinv).
  apply elem_of_app. by left.
Qed.

Lemma total_pushed :
  total (values (popped g)) + total (my_queue g)
  = triangle (Z.of_nat (length (pushed g))).
Proof.
  rewrite <- total_app, <- (g_fifo g ls Hinv), <- triangle_spec.
  by rewrite <- (g_seq g ls Hinv).
Qed.

Lemma lengths_pushed :
  Z.of_nat (length (popped g)) + Z.of_nat (length (my_queue g))
  = Z.of_nat (length (pushed g)).
Proof.
  rewrite (g_fifo g ls Hinv). unfold values.
  rewrite length_app, length_fmap. lia.
Qed.

Lemma triangle_work_range : 0 ≤ triangle work ≤ 4611686018427387904.
Proof.
  pose proof work_range as Hw. unfold INT_MAX in Hw. split.
  - apply triangle_nonneg. lia.
  - etrans; [apply (triangle_mono work 2147483647); lia|].
    by vm_compute.
Qed.

Lemma total_pushed_range :
  0 ≤ triangle (Z.of_nat (length (pushed g))) ≤ 4611686018427387904.
Proof.
  pose proof triangle_work_range. pose proof (g_work g ls Hinv). split.
  - apply triangle_nonneg. lia.
  - etrans; [apply (triangle_mono _ work); lia|]. lia.
Qed.

Lemma cnt_pend_nonneg t l : ls !! t = Some l → 0 ≤ cnt_pend l.
Proof.
  intros Hl. destruct (g_threads g ls Hinv t l Hl) as (_ & _ & ? & _).
  unfold cnt_pend. destruct (pc l); lia.
Qed.

Lemma sum_pend_nonneg t l : ls !! t = Some l → 0 ≤ sum_pend l.
Proof.
  intros Hl. destruct (g_threads g ls Hinv t l Hl) as (_ & _ & _ & ? & _).
  unfold sum_pend. destruct (pc l); lia.
Qed.

(** Nobody is between [front] and [pop] unless it owns the lock. *)
Lemma front_taken_zero q :
  (∀ t l, ls !! t = Some l → lock g = Some t → pc l ≠ CPop) →
  sumZ (front_taken q) ls = 0.
Proof.
  intros H. apply sumZ_zero. intros t l Hl. unfold front_taken.
  destruct (pc l) eqn:Ep; try done.
  destruct (decide (lock g = Some t)) as [Hlk|Hlk].
  - by destruct (H t l Hl Hlk).
  - pose proof (not_owner_not_critical t l Hl Hlk) as Hc.
    by rewrite Ep in Hc.
Qed.

Lemma front_taken_owner q t l :
  ls !! t = Some l → lock g = Some t →
  sumZ (front_taken q) ls = front_taken q l.
Proof.
  intros Hl Hlk.
  assert (sumZ (front_taken q) (<[t:=set_pc CLock l]> ls) = 0) as H0.
  { apply sumZ_zero. intros t' l' Hl'.
    apply list_lookup_insert_Some in Hl' as [(_ & <- & _)|(Hne & Hl')];
      [done|].
    unfold front_taken. destruct (pc l') eqn:Ep; try done.
    assert (lock g ≠ Some t') as Hlk' by congruence.
    pose proof (not_owner_not_critical t' l' Hl' Hlk') as Hc.
    by rewrite Ep in Hc. }
  rewrite (sumZ_insert _ _ _ l) in H0 by done.
  unfold front_taken at 3 in H0. simpl in H0. lia.
Qed.

Lemma front_taken_bounds :
  0 ≤ sumZ (front_taken (my_queue g)) ls ≤ total (my_queue g).
Proof.
  assert (0 ≤ hd 0 (my_queue g) ≤ total (my_queue g)) as Hhd.
  { pose proof queue_values as Hq.
    destruct (my_queue g) as [|v q]; simpl; [done|].
    assert (0 ≤ v) by (apply Hq; left).
    assert (0 ≤ total q); [|unfold total in *; simpl; lia].
    apply total_nonneg. intros x Hx. apply Hq. by right. }
  destruct (lock g) as [h|] eqn:Elk.
  - destruct (owner_critical h Elk) as (l & Hl & _).
    rewrite (front_taken_owner _ h l Hl Elk). unfold front_taken.
    destruct (pc l); lia.
  - rewrite front_taken_zero; [lia|]. intros t l _ Hlk. congruence.
Qed.

(** The accumulators never leave the range of their types. *)
Lemma sum_bounds :
  sum g + sumZ sum_pend ls ≤ 4611686018427387904.
Proof.
  rewrite (g_sum g ls Hinv). pose proof front_taken_bounds.
  pose proof total_pushed. pose proof total_pushed_range. lia.
Qed.

Lemma count_bounds :
  count g + sumZ cnt_pend ls + Z.of_nat (length (my_queue g)) ≤ work.
Proof.
  rewrite (g_count g ls Hinv). pose proof lengths_pushed.
  pose proof (g_work g ls Hinv). lia.
Qed.

End Facts.

Section Frame.
Context (g : qshared) (ls : list qlocal) (Hinv : ginv g ls).

(** Once [count] has reached the total, the queue is empty, nothing is
    pending at any consumer, and [sum] has its final value. *)
Lemma count_full :
  count g = total_work →
  total_work = work ∧ my_queue g = [] ∧
  Z.of_nat (length (pushed g)) = work ∧
  Z.of_nat (length (popped g)) = work ∧
  (∀ t l, ls !! t = Some l → cnt_pend l = 0) ∧
  sum g = triangle work.
Proof.
  intros Hc. pose proof (g_count0 g ls Hinv) as H0.
  pose proof (count_bounds g ls Hinv) as Hb.
  pose proof (g_count g ls Hinv) as Hcnt.
  pose proof (lengths_pushed g ls Hinv) as Hlen.
  assert (0 ≤ sumZ cnt_pend ls) as Hnn
    by (apply sumZ_nonneg, (cnt_pend_nonneg g ls Hinv)).
  assert (total_work = work) as Hw by (unfold work; lia).
  assert (my_queue g = []) as Hq.
  { destruct (my_queue g); [done|]. simpl length in Hb. lia. }
  assert (sumZ cnt_pend ls = 0) as Hz by lia.
  assert (∀ t l, ls !! t = Some l → cnt_pend l = 0) as Hcz.
  { intros t l Hl.
    by apply (sumZ_zero_inv cnt_pend ls t l (cnt_pend_nonneg g ls Hinv)). }
  rewrite Hq in *. simpl length in *.
  split; [done|]. split; [done|]. split; [lia|]. split; [lia|].
  split; [done|].
  pose proof (g_sum g ls Hinv) as Hs. pose proof (total_pushed g ls Hinv) as Ht.
  rewrite Hq in Hs, Ht.
  rewrite (sumZ_zero (front_taken [])) in Hs
    by (intros t l _; unfold front_taken; by destruct (pc l)).
  rewrite (sumZ_zero sum_pend) in Hs.
  - replace (Z.of_nat (length (pushed g))) with work in Ht by lia.
    unfold total in *. simpl in Ht. lia.
  - intros t l Hl. specialize (Hcz t l Hl).
    destruct (g_threads g ls Hinv t l Hl) as (_ & _ & _ & _ & Hms & Hrole).
    unfold cnt_pend, sum_pend in *.
    destruct (t =? 0)%nat.
    + destruct Hrole as (_ & -> & _). by destruct (pc l).
    + destruct Hrole as (_ & _ & Hni & _).
      destruct (pc l) eqn:Ep; try done; try (by apply Hms).
      by destruct Hni.
Qed.

(** A step of thread [t] keeps what every other thread knows. *)
Lemma tinv_frame t t' l g' l' l'' :
  ls !! t = Some l → ls !! t' = Some l'' → t ≠ t' →
  workload t g l = Some (g', l') → tinv t' g' l''.
Proof.
  intros Hl Hl'' Hne Hstep.
  pose proof (g_threads g ls Hinv t l Hl) as Ht.
  pose proof (g_threads g ls Hinv t' l'' Hl'') as Ht'.
  assert (Hcrit : lock g = Some t → critical (pc l'') = false).
  { intros Hlk. apply (not_owner_not_critical g ls Hinv t' l'' Hl'').
    congruence. }
  assert (Hcf : count g = total_work → cnt_pend l = 0).
  { intros Hc. destruct (count_full Hc) as (_ & _ & _ & _ & Hz & _).
    by apply (Hz t). }
  pose proof total_work_range as Htw.
  unfold workload in Hstep.
  destruct l as [p a ms mc]; cbn [pc i my_sum my_count] in *.
  destruct Ht as ([Hc1 Hc2] & Hex & Hmc & Hms & Hz & Hrole).
  destruct Ht' as ([Hc1' Hc2'] & Hex' & Hmc' & Hms' & Hz' & Hrole').
  cbn [pc i my_sum my_count] in *.
  assert (Ht0 : is_cons p = false → (t =? 0)%nat = true).
  { intros Hp. destruct (t =? 0)%nat; [done|].
    destruct Hrole as (Hic & _). simpl in Hic. congruence. }
  assert (Ht1 : is_prod p = false → (t =? 0)%nat = false).
  { intros Hp. destruct (t =? 0)%nat; [|done].
    destruct Hrole as (Hic & _). simpl in Hic. congruence. }
  assert (Ht0' : (t =? 0)%nat = true → (t' =? 0)%nat = false).
  { intros ?%Nat.eqb_eq. apply Nat.eqb_neq. lia. }
  destruct p; simpl in Hstep.
  all: repeat match type of Hstep with
       | (if ?c then _ else _) = _ => destruct c eqn:?
       | match ?c with _ => _ end = _ => destruct c eqn:?
       end; try discriminate Hstep.
  all: injection Hstep as <- <-.
  all: unfold tinv, set_lock, set_done, set_sum, set_count, print, push, pop;
       cbn [lock my_queue done sum count out pushed popped].
  all: try (specialize (Hcrit (Hc1 eq_refl))).
  all: try (specialize (Ht0 eq_refl)); try (specialize (Ht1 eq_refl)).
  all: try (specialize (Ht0' Ht0)).
  all: refine (conj _ (conj _ (conj Hmc' (conj Hms' (conj Hz' _))))).
  (* the lock *)
  all: try (split; intros HH;
            first [ by apply Hc1' | by apply Hc2' | exfalso; congruence
                  | exfalso; apply Hc1' in HH; congruence ]).
  (* the barrier *)
  all: try (intros HH; first [ exact (Hex' HH) | fail ]).
  all: try (intros HH; specialize (Hcf (Hex' HH)); unfold cnt_pend in Hcf;
            cbn [pc my_count] in Hcf; subst mc; rewrite Z.add_0_r;
            rewrite wrap_int_id; [exact (Hex' HH)|rewrite (Hex' HH); exact Htw]).
  (* the roles *)
  all: try assumption.
  - (* done = true *)
    rewrite Ht0' in *. destruct Hrole' as (H1 & H2 & H3 & H4 & H5).
    split; [done|]. split; [done|]. split; [done|]. split; [done|].
    intros Ha. by destruct (H5 Ha).
  - (* push *)
    rewrite Ht0' in *. rewrite Ht0 in Hrole.
    destruct Hrole' as (H1 & H2 & H3 & H4 & H5).
    destruct Hrole as (_ & _ & _ & _ & _ & _ & Hd & _).
    cbn [pc past_loop] in Hd.
    assert (after_loop (pc l'') = false) as Hal.
    { destruct (after_loop (pc l'')); [|done].
      destruct (H5 eq_refl). congruence. }
    split; [done|]. split; [done|]. cbn [my_queue done].
    split; [|split].
    + intros _. by destruct (my_queue g).
    + intros Hp. rewrite Hp in Hcrit. done.
    + intros Ha. congruence.
  - (* pop *)
    destruct (t' =? 0)%nat; [exact Hrole'|].
    destruct Hrole' as (H1 & H2 & H3 & H4 & H5).
    split; [done|]. split; [done|]. cbn [my_queue done].
    split; [|split].
    + intros Hp. destruct (pc l''); done.
    + intros Hp. rewrite Hp in Hcrit. done.
    + intros Ha. destruct (H5 Ha). congruence.
  - (* printf, consumer *)
    destruct (t' =? 0)%nat; [|exact Hrole'].
    destruct Hrole' as (H1 & H2 & H3 & H4 & H5 & H6 & H7 & H8 & H9).
    split; [done|]. split; [done|]. split; [done|]. split; [done|].
    split; [done|]. split; [done|]. split; [done|]. split; [done|].
    intros Hp. cbn [out]. apply elem_of_app. left. by apply H9.
  - (* printf, producer *)
    destruct (t' =? 0)%nat; [|exact Hrole'].
    destruct Hrole' as (H1 & H2 & H3 & H4 & H5 & H6 & H7 & H8 & H9).
    split; [done|]. split; [done|]. split; [done|]. split; [done|].
    split; [done|]. split; [done|]. split; [done|]. split; [done|].
    intros Hp. cbn [out]. apply elem_of_app. left. by apply H9.
Qed.

End Frame.

Section Step.
Context (g : qshared) (ls : list qlocal) (Hinv : ginv g ls).
Context (t : nat) (l : qlocal) (Hl : ls !! t = Some l).

(** No arithmetic of a step leaves the range of its type. *)
Lemma step_no_wrap :
  (pc l = PUnlock → wrap_int (i l + 1) = i l + 1) ∧
  (pc l = CFront → ∀ v q, my_queue g = v :: q →
     0 ≤ v ∧ wrap_i64 (my_sum l + v) = my_sum l + v) ∧
  (pc l = CPop → my_queue g ≠ [] →
     wrap_int (my_count l + 1) = my_count l + 1) ∧
  (pc l = CAddSum → wrap_i64 (sum g + my_sum l) = sum g + my_sum l) ∧
  (pc l = CAddCount →
     wrap_int (count g + my_count l) = count g + my_count l).
Proof.
  pose proof (g_threads g ls Hinv t l Hl)
    as ([Hc1 Hc2] & Hex & Hmc & Hms & Hz & Hrole).
  pose proof work_range as Hw. unfold INT_MAX in Hw.
  pose proof total_work_range as Htw.
  unfold int_range, INT_MIN, INT_MAX in Htw.
  pose proof (count_bounds g ls Hinv) as Hcb.
  pose proof (sum_bounds g ls Hinv) as Hsb.
  pose proof (g_count0 g ls Hinv) as Hc0.
  pose proof (g_sum0 g ls Hinv) as Hs0.
  pose proof (sumZ_elem_le cnt_pend ls t l (cnt_pend_nonneg g ls Hinv) Hl)
    as Hce.
  pose proof (sumZ_elem_le sum_pend ls t l (sum_pend_nonneg g ls Hinv) Hl)
    as Hse.
  unfold cnt_pend at 1 in Hce. unfold sum_pend at 1 in Hse.
  destruct l as [p a ms mc]; cbn [pc i my_sum my_count] in *.
  unfold prod_inv, cons_inv in Hrole; cbn [pc i my_sum my_count] in Hrole.
  split; [|split; [|split; [|split]]]; intros ->; cbn beta iota in Hce, Hse.
  - apply wrap_int_id. unfold int_range, INT_MIN, INT_MAX.
    destruct (t =? 0)%nat.
    + destruct Hrole as (_ & _ & _ & Hi & Hlt & _).
      specialize (Hlt eq_refl). unfold work in *. lia.
    + by destruct Hrole as (? & _).
  - intros v q Hq.
    assert (0 ≤ v) as Hv.
    { apply (queue_values g ls Hinv). rewrite Hq. left. }
    split; [done|]. apply wrap_i64_id.
    pose proof (g_sum g ls Hinv) as Hs.
    rewrite (front_taken_owner g ls Hinv _ t _ Hl (Hc1 eq_refl)) in Hs.
    unfold front_taken in Hs. cbn [pc] in Hs.
    pose proof (total_pushed g ls Hinv) as Htp.
    pose proof (total_pushed_range g ls Hinv) as Htr.
    rewrite Hq in Htp. unfold total in Htp. simpl sumZ in Htp.
    assert (0 ≤ sumZ (λ v, v) q).
    { apply sumZ_nonneg. intros k x Hx. apply (queue_values g ls Hinv).
      rewrite Hq. right. by eapply list_elem_of_lookup_2. }
    unfold total in Hs. lia.
  - intros Hq. apply wrap_int_id. unfold int_range, INT_MIN, INT_MAX.
    assert (1 ≤ Z.of_nat (length (my_queue g))).
    { destruct (my_queue g); [done|]. simpl length. lia. }
    assert (0 ≤ sumZ cnt_pend ls)
      by (apply sumZ_nonneg, (cnt_pend_nonneg g ls Hinv)).
    lia.
  - apply wrap_i64_id. lia.
  - apply wrap_int_id. unfold int_range, INT_MIN, INT_MAX.
    assert (0 ≤ Z.of_nat (length (my_queue g))) by lia. lia.
Qed.

Lemma ginv_step g' l' :
  workload t g l = Some (g', l') → ginv g' (<[t:=l']> ls).
Proof.
  intros Hstep. pose proof Hstep as Hstep0.
  destruct step_no_wrap as (Hw1 & Hw2 & Hw3 & Hw4 & Hw5).
  pose proof (g_threads g ls Hinv t l Hl) as Ht.
  pose proof (λ l', sumZ_insert cnt_pend ls t l l' Hl) as HinsC.
  pose proof (λ l', sumZ_insert sum_pend ls t l l' Hl) as HinsS.
  pose proof (λ q l', sumZ_insert (front_taken q) ls t l l' Hl) as HinsF.
  pose proof (λ q H, front_taken_owner g ls Hinv q t l Hl H) as Hown.
  pose proof (count_full g ls Hinv) as Hcf.
  pose proof (g_count g ls Hinv) as Hcnt.
  pose proof (g_sum g ls Hinv) as Hsum.
  pose proof (g_seq g ls Hinv) as Hseq.
  pose proof (g_fifo g ls Hinv) as Hfifo.
  pose proof (g_out g ls Hinv) as Hout.
  pose proof (g_count0 g ls Hinv) as Hc0.
  pose proof (g_sum0 g ls Hinv) as Hs0.
  pose proof (g_work g ls Hinv) as Hwk.
  pose proof (lookup_lt_Some _ _ _ Hl) as Hlt.
  pose proof total_work_range as Htw.
  pose proof work_range as Hwr.
  unfold workload in Hstep.
  destruct l as [p a ms mc]; cbn [pc i my_sum my_count] in *.
  destruct Ht as ([Hc1 Hc2] & Hex & Hmc & Hms & Hz & Hrole).
  unfold prod_inv, cons_inv in Hrole. cbn [pc i my_sum my_count] in *.
  destruct p; simpl in Hstep.
  all: repeat match type of Hstep with
       | (if ?c then _ else _) = _ => destruct c eqn:?
       | match ?c with _ => _ end = _ => destruct c eqn:?
       end; try discriminate Hstep.
  all: injection Hstep as <- <-.
  all: unfold set_lock, set_done, set_sum, set_count, print, push, pop, set_pc
         in *;
       cbn [pc i my_sum my_count] in *.
  all: destruct (t =? 0)%nat eqn:Et0;
       [ destruct Hrole as (Hp1 & Hp2 & Hp3 & Hp4 & Hp5 & Hp6 & Hp7 & Hp8 & Hp9)
       | destruct Hrole as (Hq1 & Hq2 & Hq3 & Hq4 & Hq5) ];
       try discriminate.
  all: cbn [critical needs_item past_loop after_loop exited produced pc i]
         in *.
  all: try subst ms; try subst mc.
  all: try (specialize (Hw1 eq_refl)); try (specialize (Hw3 eq_refl));
       try (specialize (Hw4 eq_refl)); try (specialize (Hw5 eq_refl));
       try (specialize (Hc1 eq_refl)).
  all: try (edestruct (Hw2 eq_refl) as [Hv0 Hw2']; [reflexivity|];
            rewrite Hw2' in Hstep0 |- *).
  all: rewrite ?Hw1, ?Hw4, ?Hw5 in Hstep0 |- *.
  all: try (rewrite Hw3 in Hstep0 |- * by done).
  all: try match goal with
           | |- context [is_empty ?q] => destruct q eqn:Equeue
           | |- context [if done g then _ else _] => destruct (done g) eqn:Edone
           end;
       cbn [is_empty] in *.
  all: split;
       cbn [lock my_queue done sum count out pushed popped];
       try match goal with H : my_queue g = _ |- _ => rewrite ?H end;
       [ (* g_len *) rewrite length_insert; exact (g_len g ls Hinv)
       | (* g_lock *)
         intros h Hh; rewrite length_insert;
         first [ exact (g_lock g ls Hinv h Hh) | by injection Hh as <-
               | discriminate Hh ]
       | (* g_seq *) try exact Hseq
       | (* g_work *) try exact Hwk
       | (* g_fifo *) try exact Hfifo
       | (* g_count *)
         rewrite HinsC, ?length_app; unfold cnt_pend at 2 3;
         cbn [pc my_count length]; try lia
       | (* g_sum *)
         rewrite HinsS, HinsF; unfold sum_pend at 2 3;
         unfold front_taken at 2 3; cbn [pc my_sum hd]; try lia
       | (* g_count0 *) try lia
       | (* g_sum0 *) try lia
       | (* g_out *) try exact Hout
       | (* g_threads *)
         intros t' l'' [(<- & <- & _)|(Hne & Hl'')]%list_lookup_insert_Some;
         [|exact (tinv_frame g ls Hinv t t' _ _ _ l'' Hl Hl'' Hne Hstep0)]
       | (* g_poppers *)
         intros id v Hid; rewrite length_insert;
         first [ exact (g_poppers g ls Hinv id v Hid)
               | apply elem_of_app in Hid as [Hid|Hid];
                 [ exact (g_poppers g ls Hinv id v Hid)
                 | apply list_elem_of_singleton in Hid; injection Hid as -> ->;
                   split; [by apply Nat.eqb_neq|done] ] ] ].
  all: try (unfold tinv; rewrite Et0;
            cbn [lock my_queue done sum count out pushed popped pc i my_sum
                 my_count];
            refine (conj _ (conj _ (conj _ (conj _ (conj _ _)))));
            [ (* the lock *)
              split; intros HH;
              first [ done | exact Hc1 | exact (Hc2 HH) | discriminate
                    | congruence ]
            | (* the barrier *)
              intros HH;
              first [ discriminate HH | by apply Z.eqb_eq | by apply Hex ]
            | lia
            | lia
            | intros HH1 HH2;
              first [ done | lia | apply Hz; [discriminate|lia] ]
            | ]).
  all: try match goal with H : my_queue g = _ |- _ => rewrite ?H end.
  (* the producer's part *)
  all: try (unfold prod_inv;
            cbn [lock my_queue done sum count out pushed popped pc i my_sum
                 my_count is_prod critical past_loop produced];
            refine (conj eq_refl (conj eq_refl (conj eq_refl
                   (conj _ (conj _ (conj _ (conj _ (conj _ _))))))));
            [ unfold work in *; try apply Z.ltb_lt in Heqb; lia
            | intros HH;
              first [ discriminate HH | by apply Z.ltb_lt | by apply Hp5 ]
            | rewrite ?length_app; cbn [length]; lia
            | first [ done | reflexivity ]
            | intros HH;
              first [ discriminate HH | by apply Hp8
                    | apply Z.ltb_ge in Heqb; unfold work in *; lia ]
            | intros HH; try discriminate HH ]).
  (* a consumer's part *)
  all: try (unfold cons_inv;
            cbn [lock my_queue done sum count out pushed popped pc i my_sum
                 my_count is_cons needs_item after_loop];
            refine (conj eq_refl (conj Hq2 (conj _ (conj _ _))));
            try match goal with H : my_queue g = _ |- _ => rewrite ?H end;
            [ intros HH; first [ discriminate HH | done ]
            | intros HH; first [ discriminate HH | done ]
            | intros HH;
              first [ discriminate HH | by apply Hq5
                    | split; [by apply Hq4|done] ] ]).
  - (* push: the items are 0, 1, 2, ... *)
    rewrite length_app; cbn [length].
    replace (length (pushed g) + 1)%nat with (S (length (pushed g))) by lia.
    rewrite seqZ_S, <- Hseq. f_equal. f_equal. lia.
  - rewrite length_app; cbn [length]. specialize (Hp5 eq_refl).
    unfold work. lia.
  - by rewrite app_assoc, <- Hfifo.
  - rewrite (Hown _ Hc1). rewrite (Hown _ Hc1) in Hsum.
    unfold front_taken in *. cbn [pc] in *. lia.
  - (* pop *)
    unfold values. rewrite fmap_app, <- app_assoc. exact Hfifo.
  - rewrite (Hown _ Hc1). rewrite (Hown _ Hc1) in Hsum.
    unfold front_taken in *. cbn [pc hd] in *.
    unfold values. rewrite fmap_app, total_app. unfold total at 2.
    cbn [fmap list_fmap snd sumZ]. unfold values in Hsum. lia.
  - (* printf *)
    intros x [Hx|Hx]%elem_of_app; [by apply Hout|].
    by apply list_elem_of_singleton in Hx.
  - intros x [Hx|Hx]%elem_of_app; [by apply Hout|].
    apply list_elem_of_singleton in Hx. injection Hx as ->.
    by destruct (Hcf (Hex eq_refl)) as (_ & _ & _ & _ & _ & ?).
  - apply elem_of_app. right. apply list_elem_of_singleton.
    by destruct (Hcf (Hex eq_refl)) as (_ & _ & _ & _ & _ & ->).
Qed.

End Step.

(** *** The invariant holds in every state *)

Lemma queue_finv_step f f' : finv f → fstep task f f' → finv f'.
Proof.
  intros Hinv Hstep.
  apply fstep_inv in Hstep as (t & l & g' & l' & Hl & Hstep & ->).
  destruct f as [g ls]. by apply (ginv_step g ls Hinv t l Hl).
Qed.

Lemma freach_finv f : freach task args init f → finv f.
Proof. apply freach_inv; [apply queue_finv_init|apply queue_finv_step]. Qed.

Context (Hwf : wf_args args).

Lemma queue_reach_finv s : reach s → finv (flat_of task args s).
Proof.
  apply (reachable_inv task args init Hwf finv queue_finv_init).
  apply queue_finv_step.
Qed.

(** With one thread there is no work. *)
Lemma one_thread_no_work : nthreads args = 1%nat → total_work = 0.
Proof.
  unfold nthreads, total_work. intros H.
  replace (num_threads args) with 1 by lia. done.
Qed.

(** The state in which the workers leave the shared variables. *)
Lemma queue_final g ls :
  ginv g ls → all_returned task ls → (0 < length ls)%nat →
  0 ≤ total_work ∧
  count g = total_work ∧
  sum g = triangle total_work ∧
  done g = true ∧
  my_queue g = [] ∧
  pushed g = seqZ 0 total_work ∧
  values (popped g) = seqZ 0 total_work ∧
  TotalSum (triangle total_work) ∈ out g ∧
  (∀ x, TotalSum x ∈ out g → x = triangle total_work).
Proof.
  intros Hinv Hall Hlen.
  destruct (lookup_lt_is_Some_2 ls 0%nat Hlen) as [l0 Hl0].
  pose proof (Hall _ _ Hl0) as Hr0. simpl in Hr0. unfold has_returned in Hr0.
  destruct (g_threads g ls Hinv _ _ Hl0) as (_ & Hex & _ & _ & _ & Hrole).
  cbn [Nat.eqb] in Hrole.
  destruct Hrole as (_ & _ & _ & _ & _ & Hpush & Hdone & Hpast & Hout).
  destruct (pc l0) eqn:Epc; try done.
  specialize (Hex eq_refl).
  destruct (count_full g ls Hinv Hex) as (Hw & Hq & Hlp & Hlq & _ & Hs).
  pose proof (g_seq g ls Hinv) as Hseq. rewrite Hlp in Hseq.
  pose proof (g_fifo g ls Hinv) as Hfifo. rewrite Hq, app_nil_r in Hfifo.
  rewrite Hw in Hex |- *.
  split; [apply work_range|]. split; [done|]. split; [done|].
  split; [done|]. split; [done|]. split; [done|].
  split; [by rewrite <- Hfifo|]. split; [by apply Hout|].
  apply (g_out g ls Hinv).
Qed.

(** *** Progress *)

(** Steps the producer still takes inside its loop. *)
Definition prod_left (l : qlocal) : Z :=
  match pc l with
  | PLoop => 3 * (work - i l) + 1
  | PPush => 3 * (work - i l)
  | PUnlock => 3 * (work - i l) - 1
  | _ => 0
  end.

(** A rank of the program points of a consumer that falls with every
    step it takes while the queue and [done] stay as they are, except for
    a poll that finds the queue empty before [done] is set. *)
Definition weight (g : qshared) (l : qlocal) : Z :=
  match pc l with
  | PLoop | PPush | PUnlock => 0
  | CEmpty =>
      if is_empty (my_queue g) then (if done g then 8 else 14) else 9
  | CDone => if done g then 7 else 13
  | CEmpty2 => if is_empty (my_queue g) then 12 else 8
  | CUnlock => 11
  | CLock => 10
  | CFront => 7
  | CPop => 6
  | CBreak => 6
  | CPrint => 5
  | CAddSum => 4
  | CAddCount => 3
  | Barrier => 2
  | PTotal => 1
  | QRet => 0
  end.

Definition measure (f : fstate task) : Z * Z * Z :=
  (sumZ prod_left f.2, Z.of_nat (length (my_queue f.1)), sumZ (weight f.1) f.2).

Lemma weight_nonneg g l : 0 ≤ weight g l.
Proof.
  unfold weight.
  destruct (pc l), (is_empty (my_queue g)), (done g); lia.
Qed.

Lemma weight_ext g g' l :
  my_queue g' = my_queue g → done g' = done g → weight g' l = weight g l.
Proof. intros Hq Hd. unfold weight. by rewrite Hq, Hd. Qed.

Lemma prod_left_nonneg g ls t l :
  ginv g ls → ls !! t = Some l → 0 ≤ prod_left l.
Proof.
  intros Hinv Hl.
  destruct (g_threads g ls Hinv t l Hl) as (_ & _ & _ & _ & _ & Hrole).
  unfold prod_left. destruct (t =? 0)%nat.
  - destruct Hrole as (_ & _ & _ & Hi & Hlt & _).
    destruct (pc l); try lia; specialize (Hlt eq_refl); unfold work in *; lia.
  - destruct Hrole as (Hc & _). by destruct (pc l).
Qed.

(** Every step lowers the measure, except a consumer taking the lock
    before [done] is set and a turn of the barrier loop. *)
Lemma step_decreases g ls t l g' l' :
  ginv g ls → ls !! t = Some l → workload t g l = Some (g', l') →
  (pc l = CLock → done g = true) →
  (pc l = Barrier → count g = total_work) →
  lex3 (measure (g', <[t:=l']> ls)) (measure (g, ls)).
Proof.
  intros Hinv Hl Hstep Hgood1 Hgood2.
  pose proof (ginv_step g ls Hinv t l Hl g' l' Hstep) as Hinv'.
  assert (0 ≤ sumZ prod_left (<[t:=l']> ls)) as Hn1.
  { apply sumZ_nonneg. intros k x Hx. by eapply prod_left_nonneg. }
  assert (0 ≤ sumZ (weight g') (<[t:=l']> ls)) as Hn3.
  { apply sumZ_nonneg. intros k x Hx. apply weight_nonneg. }
  unfold measure, lex3. cbn [fst snd].
  rewrite (sumZ_insert prod_left _ _ l) in Hn1 |- * by done.
  rewrite (sumZ_insert (weight g') _ _ l) in Hn3 |- * by done.
  destruct (step_no_wrap g ls Hinv t l Hl) as (Hw1 & _).
  pose proof (g_threads g ls Hinv t l Hl) as (_ & _ & _ & _ & _ & Hrole).
  unfold workload in Hstep.
  destruct l as [p a ms mc]; cbn [pc i my_sum my_count] in *.
  unfold prod_inv, cons_inv in Hrole. cbn [pc i my_sum my_count] in *.
  destruct p; simpl in Hstep.
  all: repeat match type of Hstep with
       | (if ?c then _ else _) = _ => destruct c eqn:?
       | match ?c with _ => _ end = _ => destruct c eqn:?
       end; try discriminate Hstep.
  all: injection Hstep as <- <-.
  all: unfold set_lock, set_done, set_sum, set_count, print, push, pop, set_pc
         in *;
       cbn [pc i my_sum my_count] in *.
  all: destruct (t =? 0)%nat eqn:Et0;
       [ destruct Hrole as (Hp1 & Hp2 & Hp3 & Hp4 & Hp5 & Hp6 & Hp7 & Hp8 & Hp9)
       | destruct Hrole as (Hq1 & Hq2 & Hq3 & Hq4 & Hq5) ];
       try discriminate.
  all: try (specialize (Hw1 eq_refl); rewrite Hw1 in *).
  all: try (specialize (Hgood1 eq_refl)); try (specialize (Hgood2 eq_refl)).
  all: try (apply Z.eqb_neq in Heqb; done).
  all: try match goal with
           | |- context [sumZ (weight ?x) ?ls0] =>
               assert (sumZ (weight x) ls0 = sumZ (weight g) ls0) as HW
                 by (apply sumZ_ext; intros; by apply weight_ext);
               rewrite HW in *; clear HW
           end.
  all: cbn [lock my_queue done sum count out pushed popped] in *.
  all: try (remember (sumZ (weight g) ls) as W eqn:HW; clear HW).
  all: remember (sumZ prod_left ls) as P eqn:HP; clear HP.
  all: unfold weight, prod_left in *;
       cbn [lock my_queue done sum count out pushed popped pc i] in *.
  all: try match goal with H : my_queue _ = _ |- _ => rewrite ?H in * end.
  all: destruct (my_queue g) eqn:Eq', (done g) eqn:Ed';
       cbn [is_empty length] in *; try lia; try congruence.
Qed.

(** The owner of the lock can always take a step. *)
Lemma enabled_critical g ls t l :
  ginv g ls → ls !! t = Some l → critical (pc l) = true →
  ∃ x, workload t g l = Some x.
Proof.
  intros Hinv Hl Hc.
  destruct (g_threads g ls Hinv t l Hl) as (_ & _ & _ & _ & _ & Hrole).
  unfold workload. destruct l as [p a ms mc]; cbn [pc] in *.
  destruct p; try done; eauto.
  all: destruct (t =? 0)%nat;
       [ by destruct Hrole as (? & _)
       | destruct Hrole as (_ & _ & Hni & _); specialize (Hni eq_refl);
         destruct (my_queue g); [done|eauto] ].
Qed.

(** While the lock is free every thread that has not returned can take
    a step. *)
Lemma enabled_free g ls t l :
  ginv g ls → ls !! t = Some l → lock g = None → pc l ≠ QRet →
  ∃ x, workload t g l = Some x.
Proof.
  intros Hinv Hl Hlk Hp.
  assert (critical (pc l) = false) as Hc.
  { apply (not_owner_not_critical g ls Hinv t l Hl). by rewrite Hlk. }
  unfold workload. destruct l as [p a ms mc]; cbn [pc i] in *.
  destruct p; try done; rewrite ?Hlk; eauto.
  - destruct (a <? total_work); eauto.
  - destruct (count g =? total_work); eauto.
Qed.

(** When every thread waits at the barrier or is past it, the barrier is
    open. *)
Lemma barrier_opens g ls :
  ginv g ls → 0 ≤ total_work → (0 < length ls)%nat →
  (∀ t l, ls !! t = Some l → past_loop (pc l) = true) →
  count g = total_work.
Proof.
  intros Hinv HT Hlen Hall.
  pose proof (g_count g ls Hinv) as Hcnt.
  rewrite sumZ_zero in Hcnt.
  2:{ intros t l Hl. specialize (Hall t l Hl). unfold cnt_pend.
      by destruct (pc l). }
  pose proof (lengths_pushed g ls Hinv) as Hlp.
  destruct (lookup_lt_is_Some_2 ls 0%nat Hlen) as [l0 Hl0].
  destruct (g_threads g ls Hinv _ _ Hl0) as (_ & _ & _ & _ & _ & Hrole).
  cbn [Nat.eqb] in Hrole.
  destruct Hrole as (_ & _ & _ & _ & _ & Hpush & _ & Hpast & _).
  specialize (Hpast (Hall _ _ Hl0)).
  assert (produced l0 = i l0) as Hpr.
  { pose proof (Hall _ _ Hl0). unfold produced. by destruct (pc l0). }
  assert (work = total_work) as Hw by (unfold work; lia).
  assert (my_queue g = []) as Hq.
  { destruct (decide (length ls = 1%nat)) as [H1|H1].
    - rewrite (g_len g ls Hinv) in H1. apply one_thread_no_work in H1.
      destruct (my_queue g); [done|]. simpl length in Hlp. lia.
    - destruct (lookup_lt_is_Some_2 ls 1%nat) as [l1 Hl1]; [lia|].
      destruct (g_threads g ls Hinv _ _ Hl1) as (_ & _ & _ & _ & _ & Hrole).
      cbn [Nat.eqb] in Hrole. destruct Hrole as (Hc & _ & _ & _ & Hal).
      pose proof (Hall _ _ Hl1) as Hp1.
      destruct (pc l1); try done; by destruct (Hal eq_refl). }
  rewrite Hq in Hlp. simpl length in Hlp. lia.
Qed.

(** A consumer that is outside its critical section and has not reached
    the barrier. *)
Definition busy (l : qlocal) : bool :=
  match pc l with
  | CLock | CPrint | CAddSum | CAddCount => true
  | _ => false
  end.

Lemma queue_progress f :
  finv f → 0 ≤ total_work → ¬ all_returned task f.2 →
  ∃ f', fstep task f f' ∧ lex3 (measure f') (measure f).
Proof.
  destruct f as [g ls]. unfold finv. cbn [fst snd]. intros Hinv HT Hnot.
  assert (Hgo : ∀ t l, ls !! t = Some l →
            (∃ x, workload t g l = Some x) →
            (pc l = CLock → done g = true) →
            (pc l = Barrier → count g = total_work) →
            ∃ f', fstep task (g, ls) f' ∧ lex3 (measure f') (measure (g, ls))).
  { intros t l Hl [[g' l'] Hx] H1 H2. exists (g', <[t:=l']> ls). split.
    - by apply (fstep_intro task t l).
    - by apply (step_decreases g ls t l). }
  destruct (lock g) as [h|] eqn:Elk.
  { destruct (owner_critical g ls Hinv h Elk) as (l & Hl & Hc).
    apply (Hgo h l Hl).
    - by apply (enabled_critical g ls).
    - intros Hp. by rewrite Hp in Hc.
    - intros Hp. by rewrite Hp in Hc. }
  destruct (all_returned_dec task ls) as [?|(t & l & Hl & Hr)]; [done|].
  assert (pc l ≠ QRet) as Hnr.
  { intros Hp. simpl in Hr. unfold has_returned in Hr. by rewrite Hp in Hr. }
  assert (0 < length ls)%nat as Hlen.
  { apply lookup_lt_Some in Hl. lia. }
  destruct (lookup_lt_is_Some_2 ls 0%nat Hlen) as [l0 Hl0].
  assert (Hnc : ∀ t l, ls !! t = Some l → critical (pc l) = false).
  { intros t' l' Hl'. apply (not_owner_not_critical g ls Hinv t' l' Hl').
    by rewrite Elk. }
  destruct (g_threads g ls Hinv _ _ Hl0) as (_ & _ & _ & _ & _ & Hrole0).
  cbn [Nat.eqb] in Hrole0.
  destruct Hrole0 as (Hprod0 & _ & _ & _ & _ & _ & Hdone0 & _).
  destruct (past_loop (pc l0)) eqn:Epast.
  2:{ (* the producer is at the head of its loop *)
      pose proof (Hnc _ _ Hl0) as Hc0.
      apply (Hgo 0%nat l0 Hl0).
      - apply (enabled_free g ls 0%nat l0 Hinv Hl0 Elk).
        intros Hp. by rewrite Hp in Epast.
      - intros Hp. by rewrite Hp in Hprod0.
      - intros Hp. by rewrite Hp in Epast. }
  destruct (exists_or_all busy ls) as [(t1 & l1 & Hl1 & Hb)|Hidle].
  { (* some consumer is on its way *)
    apply (Hgo t1 l1 Hl1).
    - apply (enabled_free g ls t1 l1 Hinv Hl1 Elk).
      intros Hp. unfold busy in Hb. by rewrite Hp in Hb.
    - done.
    - intros Hp. unfold busy in Hb. by rewrite Hp in Hb. }
  (* everyone is at the barrier *)
  assert (Hall : ∀ t l, ls !! t = Some l → past_loop (pc l) = true).
  { intros t' l' Hl'. pose proof (Hnc _ _ Hl') as Hc'.
    pose proof (Hidle _ _ Hl') as Hb'. unfold busy in Hb'.
    destruct (g_threads g ls Hinv _ _ Hl') as (_ & _ & _ & _ & _ & Hrole').
    destruct t' as [|t'].
    - pose proof (eq_trans (eq_sym Hl') Hl0) as Heq. by injection Heq as ->.
    - cbn [Nat.eqb] in Hrole'. destruct Hrole' as (Hcons & _).
      by destruct (pc l'). }
  apply (Hgo t l Hl).
  - by apply (enabled_free g ls t l Hinv Hl Elk).
  - intros Hp. pose proof (Hall _ _ Hl) as Ha. by rewrite Hp in Ha.
  - intros _. by apply (barrier_opens g ls).
Qed.

(** From every state some execution runs all the workers to their
    return. *)
Lemma queue_live f :
  0 ≤ total_work → finv f →
  ∃ f', rtc (fstep task) f f' ∧ all_returned task f'.2.
Proof.
  intros HT.
  apply (flat_live task lex3 measure finv lex3_wf queue_finv_step).
  intros f1 H1 Hnot. by apply queue_progress.
Qed.

(** *** [run_queue_test] as a whole *)

(** When [run_queue_test] returns, every item has been counted once. *)
Lemma run_queue_test_final s :
  reach s → main s = MDone → (0 < nthreads args)%nat →
  0 ≤ total_work ∧
  count (mem s) = total_work ∧
  sum (mem s) = triangle total_work ∧
  done (mem s) = true ∧
  my_queue (mem s) = [] ∧
  pushed (mem s) = seqZ 0 total_work ∧
  values (popped (mem s)) = seqZ 0 total_work ∧
  TotalSum (triangle total_work) ∈ out (mem s) ∧
  (∀ x, TotalSum x ∈ out (mem s) → x = triangle total_work).
Proof.
  intros Hr Hm Hn.
  destruct (joined_all task args init Hwf s Hr) as (Hf & Hlen & Hall); [auto|].
  pose proof (queue_reach_finv s Hr) as Hinv.
  rewrite flat_of_full in Hinv by done.
  apply (queue_final (mem s) (threads s) Hinv Hall).
  pose proof (eq_sym Hlen) as Hlen'. simpl in *. lia.
Qed.

(** From every state of [run_queue_test] some execution returns, when
    the number of work items is not negative. *)
Lemma run_queue_test_returns s :
  0 ≤ total_work → reach s →
  ∃ s', rtc (step task args) s s' ∧ main s' = MDone.
Proof.
  intros HT. apply (can_finish task args init Hwf).
  intros f Hf. apply queue_live; [done|]. by apply freach_finv.
Qed.

(** When the number of work items is negative the barrier never opens. *)
Lemma run_queue_test_hangs s :
  total_work < 0 → (0 < nthreads args)%nat → reach s → main s ≠ MDone.
Proof.
  intros HT Hn Hr Hm.
  destruct (run_queue_test_final s Hr Hm Hn) as (H0 & _). lia.
Qed.

Lemma run_queue_test_no_threads s :
  nthreads args = 0%nat → reach s → mem s = init.
Proof.
  intros H0 Hr.
  pose proof (reachable_flat task args init Hwf s Hr) as Hf.
  apply (no_threads task args init) in Hf; [|done].
  unfold flat_of, finit in Hf. by injection Hf as ->.
Qed.

(** The queue is touched only by the owner of the lock. *)
Lemma queue_access_locked s t l :
  reach s → threads s !! t = Some l → uses_queue (pc l) = true →
  lock (mem s) = Some t.
Proof.
  intros Hr Hl Hu. pose proof (queue_reach_finv s Hr) as Hinv.
  pose proof (threads_flat task args s t l Hl) as Hl'.
  destruct (g_threads _ _ Hinv t l Hl') as ([Hc _] & _).
  apply Hc. by destruct (pc l).
Qed.

(** At most one thread is inside a critical section. *)
Lemma mutual_exclusion s t1 l1 t2 l2 :
  reach s → threads s !! t1 = Some l1 → threads s !! t2 = Some l2 →
  critical (pc l1) = true → critical (pc l2) = true → t1 = t2.
Proof.
  intros Hr Hl1 Hl2 Hc1 Hc2. pose proof (queue_reach_finv s Hr) as Hinv.
  pose proof (threads_flat task args s t1 l1 Hl1) as Hl1'.
  pose proof (threads_flat task args s t2 l2 Hl2) as Hl2'.
  destruct (g_threads _ _ Hinv t1 l1 Hl1') as ([H1 _] & _).
  destruct (g_threads _ _ Hinv t2 l2 Hl2') as ([H2 _] & _).
  specialize (H1 Hc1). specialize (H2 Hc2). simpl in *. congruence.
Qed.

(** The items pushed so far are 0, 1, 2, ... without repetition; they are
    the items popped so far, in the order of popping, followed by the
    queue; every pop was made by a consumer. *)
Lemma queue_history s :
  reach s →
  pushed (mem s) = seqZ 0 (Z.of_nat (length (pushed (mem s)))) ∧
  NoDup (pushed (mem s)) ∧
  pushed (mem s) = values (popped (mem s)) ++ my_queue (mem s) ∧
  (∀ id v, (id, v) ∈ popped (mem s) → (0 < id < nthreads args)%nat).
Proof.
  intros Hr. pose proof (queue_reach_finv s Hr) as Hinv.
  pose proof (g_seq _ _ Hinv) as Hseq. simpl in Hseq.
  split; [done|]. split; [rewrite Hseq; apply NoDup_seqZ|].
  split; [apply (g_fifo _ _ Hinv)|].
  intros id v Hid. destruct (g_poppers _ _ Hinv id v Hid) as [H0 Hlt].
  rewrite (g_len _ _ Hinv) in Hlt. lia.
Qed.

(** The accumulators hold what the consumers have added so far. *)
Lemma queue_accounting s :
  reach s →
  count (mem s) ≤ Z.of_nat (length (popped (mem s))) ∧
  (main s = MDone → (0 < nthreads args)%nat →
   count (mem s) = Z.of_nat (length (popped (mem s))) ∧
   sum (mem s) = total (values (popped (mem s)))).
Proof.
  intros Hr. pose proof (queue_reach_finv s Hr) as Hinv. split.
  - remember (flat_of task args s) as f eqn:Hf.
    assert (f.1 = mem s) as Hm1 by (by rewrite Hf).
    pose proof (g_count _ _ Hinv) as Hc. rewrite Hm1 in Hc.
    assert (0 ≤ sumZ cnt_pend f.2); [|lia].
    apply sumZ_nonneg, (cnt_pend_nonneg _ _ Hinv).
  - intros Hm Hn.
    destruct (run_queue_test_final s Hr Hm Hn)
      as (H0 & Hc & Hs & _ & _ & _ & Hv & _).
    rewrite Hc, Hs, Hv.
    assert (length (popped (mem s)) = length (values (popped (mem s)))) as ->
      by (unfold values; by rewrite length_fmap).
    rewrite Hv, length_seqZ.
    replace total_work with (Z.of_nat (Z.to_nat total_work)) at 3 4 by lia.
    rewrite triangle_spec. split; [lia|done].
Qed.

(** Without work items nothing is pushed, popped or counted. *)
Lemma queue_no_work s :
  total_work ≤ 0 → reach s →
  pushed (mem s) = [] ∧ popped (mem s) = [] ∧ my_queue (mem s) = [] ∧
  count (mem s) = 0 ∧ sum (mem s) = 0.
Proof.
  intros HT Hr. pose proof (queue_reach_finv s Hr) as Hinv.
  destruct (flat_of task args s) as [g ls] eqn:Hf.
  unfold flat_of in Hf. injection Hf as Hg _. subst g.
  unfold finv in Hinv. cbn [fst snd shared local task] in *.
  pose proof (g_work _ _ Hinv) as Hw. pose proof (g_fifo _ _ Hinv) as Hfifo.
  assert (work = 0) as Hw0 by (unfold work; lia).
  assert (pushed (mem s) = []) as Hp.
  { destruct (pushed (mem s)); [done|]. simpl length in Hw. lia. }
  rewrite Hp in Hfifo. symmetry in Hfifo.
  apply app_eq_nil in Hfifo as [Hv Hq].
  assert (popped (mem s) = []) as Hpo.
  { unfold values in Hv. by apply fmap_nil_inv in Hv. }
  pose proof (g_count _ _ Hinv) as Hc. pose proof (g_sum _ _ Hinv) as Hs.
  pose proof (g_count0 _ _ Hinv). pose proof (g_sum0 _ _ Hinv).
  rewrite Hpo in Hc, Hs. rewrite Hq in Hs.
  rewrite (sumZ_zero (front_taken [])) in Hs
    by (intros t l _; unfold front_taken; by destruct (pc l)).
  assert (0 ≤ sumZ cnt_pend ls)
    by (apply sumZ_nonneg, (cnt_pend_nonneg _ _ Hinv)).
  assert (0 ≤ sumZ sum_pend ls)
    by (apply sumZ_nonneg, (sum_pend_nonneg _ _ Hinv)).
  simpl in Hc, Hs. unfold total in Hs. simpl in Hs.
  repeat split; try done; lia.
Qed.

(** The count of work items, when it fits an [int]. *)
Lemma total_work_exact :
  1 ≤ num_threads args →
  int_range ((num_threads args - 1) * num_ints args) →
  total_work = (num_threads args - 1) * num_ints args.
Proof.
  intros H1 Hr. unfold total_work. destruct Hwf as [_ Hnt].
  rewrite (wrap_int_id (num_threads args - 1)).
  - by apply wrap_int_id.
  - unfold int_range, INT_MIN, INT_MAX in *. lia.
Qed.

End Workload.
End Queue.

(** ** [parse_args] and [main] *)

Module Main.

(** What the calls of [getopt(argc, argv, "n:t:b:h")] return, in order:
    an option with its [optarg], or ['?'] for anything else. *)
Inductive option_t :=
  | OptN (optarg : string)
  | OptT (optarg : string)
  | OptB (optarg : string)
  | OptH
  | OptOther.

(** What [main] does after parsing. *)
Inductive call :=
  | Usage (progname : string)
  | RunCounter (args : arg_t)
  | RunCounters (args : arg_t)
  | RunQueue (args : arg_t)
  | Printf (text : string).

Definition newline : string := String (Ascii.ascii_of_nat 10) EmptyString.

Section ParseArgs.

(** [atoi] of the C library. *)
Context (atoi : string → Z).

(** One turn of the [switch] in [parse_args]. *)
Definition parse_opt (args : arg_t) (opt : option_t) : arg_t :=
  match opt with
  | OptN optarg =>
      ArgT (atoi optarg) (num_threads args) (behavior args) (usage args)
  | OptT optarg =>
      ArgT (num_ints args) (atoi optarg) (behavior args) (usage args)
  | OptB optarg =>
      ArgT (num_ints args) (num_threads args) optarg (usage args)
  | OptH => ArgT (num_ints args) (num_threads args) (behavior args) true
  | OptOther => args
  end.

Definition parse_args (opts : list option_t) (args : arg_t) : arg_t :=
  foldl parse_opt args opts.

(** The chain of comparisons at the end of [main]. *)
Definition select_and_run (args : arg_t) : call :=
  if (behavior args =? "counter")%string then RunCounter args
  else if (behavior args =? "counters")%string then RunCounters args
  else if (behavior args =? "queue")%string then RunQueue args
  else Printf ("invalid behavior parameter " ++ behavior args ++ newline).

(** [main]: what it does and the status it returns. *)
Definition main (progname : string) (opts : list option_t) : call * Z :=
  let args := parse_args opts default_args in
  if usage args then (Usage progname, 0) else (select_and_run args, 0).

(** The last [-n] decides [num_ints]; nothing checks its sign. *)
Lemma parse_args_num_ints opts optarg args :
  num_ints (parse_args (opts ++ [OptN optarg]) args) = atoi optarg.
Proof. unfold parse_args. by rewrite foldl_app. Qed.

Lemma parse_args_wf opts args :
  (∀ s, int_range (atoi s)) → wf_args args → wf_args (parse_args opts args).
Proof.
  intros Hatoi. revert args. unfold parse_args.
  induction opts as [|o opts IH]; intros args Hwf; [done|].
  simpl. apply IH. destruct Hwf as [H1 H2].
  destruct o; split; simpl; auto.
Qed.

Lemma select_and_run_cases args :
  (behavior args = "counter" ∧ select_and_run args = RunCounter args) ∨
  (behavior args = "counters" ∧ select_and_run args = RunCounters args) ∨
  (behavior args = "queue" ∧ select_and_run args = RunQueue args) ∨
  (behavior args ≠ "counter" ∧ behavior args ≠ "counters" ∧
   behavior args ≠ "queue" ∧
   select_and_run args
   = Printf ("invalid behavior parameter " ++ behavior args ++ newline)).
Proof.
  unfold select_and_run.
  destruct (String.eqb_spec (behavior args) "counter") as [H1|H1]; [auto|].
  destruct (String.eqb_spec (behavior args) "counters") as [H2|H2]; [auto|].
  destruct (String.eqb_spec (behavior args) "queue") as [H3|H3]; [auto|].
  right. right. right. auto.
Qed.

End ParseArgs.
End Main.

(** * The documented behaviour of the three workloads *)

Import Runner.

(** The configuration of the documentation's examples: four threads, one
    hundred items each. *)
Definition scenario (b : string) : arg_t := ArgT 100 4 b false.

(** A small configuration, cheap to run under any schedule. *)
Definition small (b : string) : arg_t := ArgT 3 2 b false.

(** A count that was never validated: [-n -5]. *)
Definition negative (b : string) : arg_t := ArgT (-5) 4 b false.

Lemma scenario_wf b : wf_args (scenario b).
Proof. split; unfold int_range, INT_MIN, INT_MAX; simpl; lia. Qed.

Lemma small_wf b : wf_args (small b).
Proof. split; unfold int_range, INT_MIN, INT_MAX; simpl; lia. Qed.

Lemma negative_wf b : wf_args (negative b).
Proof. split; unfold int_range, INT_MIN, INT_MAX; simpl; lia. Qed.

(** ** The single counter *)

(** C2: for [num_threads >= 1] and [num_ints >= 0], whenever
    [run_counter_test] has returned the counter equals
    [num_threads * num_ints]: no increment is lost.  The run can always
    return, every execution of the workers takes at most
    [num_threads * (4 * num_ints + 1)] steps, and the counter is read and
    written only by the thread that holds the mutex. *)
Theorem run_counter_test_exact (args : arg_t) :
  wf_args args → 1 ≤ num_threads args → 0 ≤ num_ints args →
  (∀ s, Counter.reach args s → main s = MDone →
     Counter.counter (mem s) = num_threads args * num_ints args) ∧
  (∀ s, Counter.reach args s →
     ∃ s', rtc (step (Counter.task args) args) s s' ∧ main s' = MDone) ∧
  (∀ n f,
     nsteps (fstep (Counter.task args)) n
       (finit (Counter.task args) args Counter.init) f →
     Z.of_nat n ≤ num_threads args * (4 * num_ints args + 1)) ∧
  (∀ s t l, Counter.reach args s → threads s !! t = Some l →
     Counter.pc l = Counter.WLoad ∨ Counter.pc l = Counter.WStore →
     Counter.lock (mem s) = Some t).
Proof.
  intros Hwf Hnt Hni. split; [|split; [|split]].
  - intros s Hr Hm.
    rewrite (Counter.run_counter_test_final args Hwf s Hr Hm). lia.
  - intros s. by apply Counter.run_counter_test_returns.
  - intros n f Hn.
    pose proof (Counter.counter_bounded args Hwf n f Hn) as Hb.
    unfold nthreads, Counter.bound in Hb.
    rewrite Z2Nat.id, Z.max_r in Hb by lia. done.
  - intros s t l. by apply Counter.counter_access_locked.
Qed.

(** Four threads of one hundred increments leave 400. *)
Lemma run_counter_test_exact_scenario :
  wf_args (scenario "counter") ∧
  main (rounds (Counter.task (scenario "counter")) (scenario "counter")
          Counter.init 2000) = MDone ∧
  Counter.counter
    (mem (rounds (Counter.task (scenario "counter")) (scenario "counter")
            Counter.init 2000)) = 400.
Proof.
  pose proof (scenario_wf "counter") as Hwf.
  assert (main (rounds (Counter.task (scenario "counter"))
                  (scenario "counter") Counter.init 2000) = MDone) as Hm
    by (vm_compute; reflexivity).
  split; [exact Hwf|]. split; [exact Hm|].
  destruct (run_counter_test_exact (scenario "counter") Hwf
              ltac:(simpl; lia) ltac:(simpl; lia)) as [Hfin _].
  exact (Hfin _ (rounds_reachable _ _ _ 2000) Hm).
Defined.

(** ** The sharded counters *)

(** C3: for [num_threads >= 1] and [num_ints >= 0], whenever
    [run_counters_test] has returned there are still 1024 slots and their
    sum equals [num_threads * num_ints], with [rand_r] any function that
    returns a non-negative value.  The run can always
    return and every execution of the workers takes at most
    [num_threads * (num_ints + 1)] steps. *)
Theorem run_counters_test_exact (args : arg_t) (rand_r : Z → Z * Z) :
  wf_args args → (∀ seed, 0 ≤ (rand_r seed).1) →
  1 ≤ num_threads args → 0 ≤ num_ints args →
  (∀ s, Counters.reach args rand_r s → main s = MDone →
     length (mem s) = 1024%nat ∧
     Counters.slot_sum (mem s) = num_threads args * num_ints args) ∧
  (∀ s, Counters.reach args rand_r s →
     ∃ s', rtc (step (Counters.task args rand_r) args) s s' ∧
           main s' = MDone) ∧
  (∀ n f,
     nsteps (fstep (Counters.task args rand_r)) n
       (finit (Counters.task args rand_r) args Counters.init) f →
     Z.of_nat n ≤ num_threads args * (num_ints args + 1)).
Proof.
  intros Hwf Hrand Hnt Hni. split; [|split].
  - intros s Hr Hm.
    destruct (Counters.run_counters_test_final args rand_r Hwf Hrand s Hr Hm)
      as [Hlen Hsum].
    split; [exact Hlen|]. rewrite Hsum. lia.
  - intros s. by apply Counters.run_counters_test_returns.
  - intros n f Hn.
    pose proof (Counters.counters_bounded args rand_r Hwf Hrand n f Hn) as Hb.
    unfold nthreads, Counters.bound in Hb.
    rewrite Z2Nat.id, Z.max_r in Hb by lia. done.
Qed.

(** Four threads of one hundred increments: the slots sum to 400. *)
Lemma run_counters_test_exact_scenario :
  wf_args (scenario "counters") ∧
  main (rounds (Counters.task (scenario "counters") Counters.sample_rand_r)
          (scenario "counters") Counters.init 200) = MDone ∧
  Counters.slot_sum
    (mem (rounds (Counters.task (scenario "counters") Counters.sample_rand_r)
            (scenario "counters") Counters.init 200)) = 400.
Proof.
  pose proof (scenario_wf "counters") as Hwf.
  assert (main (rounds (Counters.task (scenario "counters")
                          Counters.sample_rand_r)
                  (scenario "counters") Counters.init 200) = MDone) as Hm
    by (vm_compute; reflexivity).
  split; [exact Hwf|]. split; [exact Hm|].
  destruct (run_counters_test_exact (scenario "counters")
              Counters.sample_rand_r Hwf Counters.sample_rand_r_nonneg
              ltac:(simpl; lia) ltac:(simpl; lia)) as [Hfin _].
  exact (proj2 (Hfin _ (rounds_reachable _ _ _ 200) Hm)).
Defined.

(** C9: the index [rand_r(&seed) % 1024] lies in [[0, 1024)], so the
    increment finds its slot in an array of 1024, and no worker of
    [run_counters_test] ever indexes outside the array. *)
Theorem shard_index_in_bounds (args : arg_t) (rand_r : Z → Z * Z) :
  wf_args args → (∀ seed, 0 ≤ (rand_r seed).1) →
  (∀ seed, 0 ≤ Counters.shard_index (rand_r seed).1 < 1024) ∧
  (∀ counters seed, length counters = Counters.NCOUNTERS →
     is_Some (Counters.fetch_add counters
                (Counters.shard_index (rand_r seed).1))) ∧
  (∀ s t l, Counters.reach args rand_r s → threads s !! t = Some l →
     Counters.pc l ≠ Counters.SFault).
Proof.
  intros Hwf Hrand. split; [|split].
  - intros seed. apply Counters.shard_index_range, Hrand.
  - intros counters seed Hlen.
    destruct (Counters.fetch_add_in_range counters
                (Counters.shard_index (rand_r seed).1) Hlen
                (Counters.shard_index_range _ (Hrand seed)))
      as (v & _ & ->).
    by eexists.
  - intros s t l. by apply Counters.no_out_of_bounds.
Qed.

Lemma shard_index_in_bounds_sample :
  wf_args (scenario "counters") ∧
  0 ≤ Counters.shard_index (Counters.sample_rand_r 3).1 < 1024.
Proof.
  split; [apply scenario_wf|].
  exact (proj1 (shard_index_in_bounds (scenario "counters")
                  Counters.sample_rand_r (scenario_wf "counters")
                  Counters.sample_rand_r_nonneg) 3).
Defined.

(** The remainder of C has the sign of the dividend: the bound rests on
    [rand_r] returning nothing negative. *)
Example shard_index_negative :
  Counters.shard_index (-1) = -1 ∧
  Counters.fetch_add Counters.init (Counters.shard_index (-1)) = None.
Proof. split; reflexivity. Qed.

(** ** Counts that are not positive *)

(** C10: with [num_ints <= 0], and a number of threads that is not
    negative, the loops of the single-counter and of the sharded-counter
    workload run no iteration: the counter stays 0 and every slot stays
    as initialised in every state of the run, and the run can always
    return.  [parse_args] stores what [atoi] gives for [-n], negative or
    not. *)
Theorem no_iterations (args : arg_t) (rand_r : Z → Z * Z)
    (atoi : string → Z) :
  wf_args args → 0 ≤ num_threads args → num_ints args ≤ 0 →
  (∀ s, Counter.reach args s → Counter.counter (mem s) = 0) ∧
  (∀ s, Counter.reach args s →
     ∃ s', rtc (step (Counter.task args) args) s s' ∧ main s' = MDone) ∧
  (∀ s, Counters.reach args rand_r s →
     mem s = Counters.init ∧ Counters.slot_sum (mem s) = 0) ∧
  (∀ s, Counters.reach args rand_r s →
     ∃ s', rtc (step (Counters.task args rand_r) args) s s' ∧
           main s' = MDone) ∧
  (∀ opts optarg a,
     num_ints (Main.parse_args atoi (opts ++ [Main.OptN optarg]) a)
     = atoi optarg).
Proof.
  intros Hwf Hnt Hn. split; [|split; [|split; [|split]]].
  - intros s Hr.
    pose proof (Counter.run_counter_test_bounds args Hwf s Hr) as Hb.
    rewrite (Z.max_l 0 (num_ints args)) in Hb by done. lia.
  - intros s. by apply Counter.run_counter_test_returns.
  - intros s Hr.
    rewrite (Counters.run_counters_test_idle args rand_r Hwf s Hn Hr).
    split; [done|apply Counters.slot_sum_init].
  - intros s. by apply Counters.run_counters_test_idle_returns.
  - intros opts optarg a. apply Main.parse_args_num_ints.
Qed.

(** [-n -5] with four threads: both workloads return with nothing
    counted. *)
Lemma no_iterations_negative :
  wf_args (negative "counter") ∧ 0 ≤ num_threads (negative "counter") ∧
  num_ints (negative "counter") ≤ 0 ∧
  main (rounds (Counter.task (negative "counter")) (negative "counter")
          Counter.init 20) = MDone ∧
  Counter.counter
    (mem (rounds (Counter.task (negative "counter")) (negative "counter")
            Counter.init 20)) = 0.
Proof.
  pose proof (negative_wf "counter") as Hwf.
  split; [exact Hwf|]. split; [simpl; lia|]. split; [simpl; lia|].
  split; [vm_compute; reflexivity|].
  destruct (no_iterations (negative "counter") Counters.sample_rand_r
              (λ _, -5) Hwf ltac:(simpl; lia) ltac:(simpl; lia))
    as [Hzero _].
  exact (Hzero _ (rounds_reachable _ _ _ 20)).
Defined.

(** ** The selector *)

(** C6: [main] starts the single-counter workload exactly when the
    behaviour string is [counter], the sharded one exactly when it is
    [counters], the queue exactly when it is [queue]; any other string is
    reported as an invalid behaviour parameter.  In every case [main]
    returns 0; the selection is made when [-h] was not given, otherwise
    the usage text is shown. *)
Theorem select_and_run_dispatch (args : arg_t) :
  (Main.select_and_run args = Main.RunCounter args
   ↔ behavior args = "counter") ∧
  (Main.select_and_run args = Main.RunCounters args
   ↔ behavior args = "counters") ∧
  (Main.select_and_run args = Main.RunQueue args
   ↔ behavior args = "queue") ∧
  (Main.select_and_run args
   = Main.Printf ("invalid behavior parameter " ++ behavior args
                  ++ Main.newline)
   ↔ behavior args ≠ "counter" ∧ behavior args ≠ "counters" ∧
     behavior args ≠ "queue") ∧
  (∀ atoi progname opts,
     (Main.main atoi progname opts).2 = 0 ∧
     (usage (Main.parse_args atoi opts default_args) = false →
      (Main.main atoi progname opts).1
      = Main.select_and_run (Main.parse_args atoi opts default_args)) ∧
     (usage (Main.parse_args atoi opts default_args) = true →
      (Main.main atoi progname opts).1 = Main.Usage progname)).
Proof.
  split; [|split; [|split; [|split]]].
  1-4: destruct (Main.select_and_run_cases args)
         as [[Hb ->]|[[Hb ->]|[[Hb ->]|(H1 & H2 & H3 & ->)]]];
       split; intros H; try done; try congruence;
       try (rewrite Hb in H; discriminate);
       try (destruct H as (? & ? & ?); congruence).
  intros atoi progname opts. unfold Main.main.
  destruct (usage (Main.parse_args atoi opts default_args)); simpl;
    repeat split; congruence.
Qed.

Example main_counter :
  Main.main (λ _, 0) "threads" [] = (Main.RunCounter default_args, 0).
Proof. reflexivity. Qed.

Example main_queue :
  Main.main (λ _, 7) "threads" [Main.OptB "queue"; Main.OptT "7"]
  = (Main.RunQueue (ArgT 64 7 "queue" false), 0).
Proof. reflexivity. Qed.

Example main_invalid :
  Main.main (λ _, 0) "threads" [Main.OptB "stack"]
  = (Main.Printf ("invalid behavior parameter stack" ++ Main.newline), 0).
Proof. reflexivity. Qed.

Example main_usage :
  Main.main (λ _, 0) "threads" [Main.OptB "stack"; Main.OptH]
  = (Main.Usage "threads", 0).
Proof. reflexivity. Qed.

(** ** The timed runner *)

(** C7: [run_timed_test] calls [task(i)] once for each [i] from 0 to
    [num_threads - 1], in this order, and never for another value; it goes
    past the joins only when every worker has returned, the workers having
    run from their entry points with their own indices; then it reports
    the difference of the two clock readings, taken before the first
    launch and after the last join, in seconds: the number of ticks
    between the readings times the length of a tick, a fraction. *)
Theorem run_timed_test_contract (T : Task) (args : arg_t) (g0 : shared T) :
  wf_args args → 0 ≤ num_threads args →
  (∀ s, reachable T args g0 s →
     started s = seqZ 0 (Z.of_nat (length (threads s))) ∧
     Z.of_nat (length (threads s)) ≤ num_threads args) ∧
  (∀ s, reachable T args g0 s →
     main s = MStop ∨ main s = MReport ∨ main s = MDone →
     started s = seqZ 0 (num_threads args) ∧
     Z.of_nat (length (threads s)) = num_threads args ∧
     all_returned T (threads s) ∧
     freach T args g0 (mem s, threads s)) ∧
  (∀ sched s, exec T args sched (rinit T g0) = Some s → main s = MDone →
     ∃ now1 mid now2 x,
       sched = AMain now1 :: mid ++ [AMain now2; AMain x] ∧
       total_time s = Some (now2 - now1) ∧
       ∀ period,
         printed_seconds T period s
         = Some (QArith_base.Qmult (QArith_base.inject_Z (now2 - now1))
                   period)) ∧
  (∀ s period, reachable T args g0 s → main s = MDone →
     printed_seconds T period s
     = Some (QArith_base.Qmult (QArith_base.inject_Z (t2 s - t1 s))
               period)).
Proof.
  intros Hwf Hnt. split; [|split; [|split]].
  - intros s Hr. destruct (reachable_rinv T args g0 Hwf s Hr) as [Hst Hm].
    split; [done|]. unfold nthreads in Hm.
    destruct (main s);
      [rewrite Hm; simpl; lia|destruct Hm as [_ Hm]; lia
      |destruct Hm as [Hm _]; lia..].
  - intros s Hr Hm.
    destruct (reachable_rinv T args g0 Hwf s Hr) as [Hst _].
    destruct (joined_all T args g0 Hwf s Hr Hm) as (Hf & Hlen & Hall).
    unfold nthreads in Hlen. rewrite Hst, Hlen, Z2Nat.id by lia. done.
  - intros sched s He Hm.
    destruct (complete_run_shape T args g0 Hwf sched s He Hm)
      as (now1 & mid & now2 & x & Hs & Ht).
    exists now1, mid, now2, x. split; [done|]. split; [done|].
    intros period. unfold printed_seconds, seconds. by rewrite Ht.
  - intros s period Hr Hm.
    destruct (reachable_rinv T args g0 Hwf s Hr) as [_ Hinv].
    rewrite Hm in Hinv. destruct Hinv as (_ & _ & Ht).
    unfold printed_seconds, seconds. by rewrite Ht.
Qed.

(** Two workers: launched with 0 and 1, both returned at the end; 25
    ticks of a millisecond are reported as 25/1000 of a second. *)
Lemma run_timed_test_contract_small :
  wf_args (small "counter") ∧ 0 ≤ num_threads (small "counter") ∧
  started (rounds (Counter.task (small "counter")) (small "counter")
             Counter.init 40) = [0; 1] ∧
  total_time (rounds (Counter.task (small "counter")) (small "counter")
                Counter.init 40) = Some 25 ∧
  printed_seconds (Counter.task (small "counter"))
    (QArith_base.Qmake 1 1000)
    (rounds (Counter.task (small "counter")) (small "counter")
       Counter.init 40)
  = Some (QArith_base.Qmake 25 1000).
Proof.
  pose proof (small_wf "counter") as Hwf.
  assert (main (rounds (Counter.task (small "counter")) (small "counter")
                  Counter.init 40) = MDone) as Hm
    by (vm_compute; reflexivity).
  split; [exact Hwf|]. split; [simpl; lia|].
  destruct (run_timed_test_contract (Counter.task (small "counter"))
              (small "counter") Counter.init Hwf ltac:(simpl; lia))
    as (_ & Hend & _ & Hsec).
  split; [|split; [vm_compute; reflexivity|]].
  - refine (proj1 (Hend _ (rounds_reachable _ _ _ 40) _)). auto.
  - exact (Hsec _ (QArith_base.Qmake 1 1000)
             (rounds_reachable _ _ _ 40) Hm).
Defined.

(** ** The queue *)

(** What the documentation promises of [run_queue_test]: on return the
    count is [(num_threads - 1) * num_ints], the sum is that of
    [0 .. count - 1], the total has been printed; and the run returns. *)
Definition queue_result (args : arg_t) : Prop :=
  (∀ s, Queue.reach args s → main s = MDone →
     Queue.count (mem s) = (num_threads args - 1) * num_ints args ∧
     Queue.sum (mem s)
     = (num_threads args - 1) * num_ints args
       * ((num_threads args - 1) * num_ints args - 1) / 2 ∧
     Queue.TotalSum ((num_threads args - 1) * num_ints args
                     * ((num_threads args - 1) * num_ints args - 1) / 2)
     ∈ Queue.out (mem s)) ∧
  (∀ s, Queue.reach args s →
     ∃ s', rtc (step (Queue.task args) args) s s' ∧ main s' = MDone).

(** Three threads and [2^30] items each: the product [2 * 2^30] does not
    fit an [int]. *)
Definition overflowing : arg_t := ArgT 1073741824 3 "queue" false.

(** C1: for [num_threads >= 2] and [num_ints >= 0] whose product
    [(num_threads - 1) * num_ints] fits an [int], whenever
    [run_queue_test] has returned the count is
    [n = (num_threads - 1) * num_ints], the sum is [n * (n - 1) / 2] and
    this sum has been printed as the total; and the run can always
    return. *)
Theorem run_queue_test_exact (args : arg_t) :
  wf_args args → 2 ≤ num_threads args → 0 ≤ num_ints args →
  (num_threads args - 1) * num_ints args ≤ INT_MAX →
  queue_result args.
Proof.
  intros Hwf Hnt Hni Hfit.
  assert (0 ≤ (num_threads args - 1) * num_ints args) as Hnn by nia.
  assert (Queue.total_work args = (num_threads args - 1) * num_ints args)
    as HT.
  { apply Queue.total_work_exact; [done|lia|].
    unfold int_range, INT_MIN, INT_MAX in *. lia. }
  assert (0 < nthreads args)%nat as Hpos by (unfold nthreads; lia).
  split.
  - intros s Hr Hm.
    destruct (Queue.run_queue_test_final args Hwf s Hr Hm Hpos)
      as (_ & Hc & Hs & _ & _ & _ & _ & Ho & _).
    unfold Queue.triangle in *. rewrite HT in *. done.
  - intros s Hr. apply Queue.run_queue_test_returns; [done|lia|done].
Qed.

(** Four threads of one hundred items: count 300, sum 44850. *)
Lemma run_queue_test_exact_scenario :
  wf_args (scenario "queue") ∧
  main (rounds (Queue.task (scenario "queue")) (scenario "queue")
          Queue.init 4900) = MDone ∧
  Queue.count (mem (rounds (Queue.task (scenario "queue"))
                      (scenario "queue") Queue.init 4900)) = 300 ∧
  Queue.sum (mem (rounds (Queue.task (scenario "queue"))
                    (scenario "queue") Queue.init 4900)) = 44850.
Proof.
  pose proof (scenario_wf "queue") as Hwf.
  assert (main (rounds (Queue.task (scenario "queue")) (scenario "queue")
                  Queue.init 4900) = MDone) as Hm
    by (vm_compute; reflexivity).
  split; [exact Hwf|]. split; [exact Hm|].
  destruct (run_queue_test_exact (scenario "queue") Hwf
              ltac:(simpl; lia) ltac:(simpl; lia)
              ltac:(unfold INT_MAX; simpl; lia)) as [Hfin _].
  destruct (Hfin _ (rounds_reachable _ _ _ 4900) Hm) as (Hc & Hs & _).
  split; [exact Hc|exact Hs].
Defined.

(** Without the bound on the product the promise fails: the count of
    work items wraps to [-2^31], nothing is pushed, the counter stays 0
    and never equals the negative target, so nobody leaves the barrier. *)
Lemma run_queue_test_overflow :
  wf_args overflowing ∧ 2 ≤ num_threads overflowing ∧
  0 ≤ num_ints overflowing ∧
  Queue.total_work overflowing = -2147483648 ∧
  (∀ s, Queue.reach overflowing s →
     main s ≠ MDone ∧ Queue.count (mem s) = 0) ∧
  ¬ queue_result overflowing.
Proof.
  assert (wf_args overflowing) as Hwf
    by (split; unfold int_range, INT_MIN, INT_MAX; simpl; lia).
  assert (Queue.total_work overflowing = -2147483648) as HT
    by (vm_compute; reflexivity).
  assert (∀ s, Queue.reach overflowing s →
            main s ≠ MDone ∧ Queue.count (mem s) = 0) as Hstuck.
  { intros s Hr. split.
    - apply (Queue.run_queue_test_hangs overflowing Hwf);
        [rewrite HT; lia|vm_compute; lia|done].
    - by destruct (Queue.queue_no_work overflowing Hwf s
                     ltac:(rewrite HT; lia) Hr) as (_ & _ & _ & ? & _). }
  split; [done|]. split; [simpl; lia|]. split; [simpl; lia|].
  split; [done|]. split; [done|].
  intros [_ Hret].
  destruct (Hret (rinit (Queue.task overflowing) Queue.init))
    as (s' & Hs' & Hm); [apply rtc_refl|].
  by destruct (Hstuck s' Hs').
Qed.

(** C4: the queue is touched only by the thread that holds the mutex,
    and at most one thread is inside a critical section.  The producer
    pushes 0, 1, 2, ... without repetition; what has been pushed is what
    has been popped, in the order of popping, followed by what is still
    queued; every pop is by a consumer.  When [run_queue_test] has returned
    the pops are exactly the pushes, each item once, the queue is empty and
    count and sum are the number and the sum of the items popped. *)
Theorem queue_items_once_under_lock (args : arg_t) :
  wf_args args →
  (∀ s t l, Queue.reach args s → threads s !! t = Some l →
     Queue.uses_queue (Queue.pc l) = true → Queue.lock (mem s) = Some t) ∧
  (∀ s t1 l1 t2 l2, Queue.reach args s →
     threads s !! t1 = Some l1 → threads s !! t2 = Some l2 →
     Queue.critical (Queue.pc l1) = true →
     Queue.critical (Queue.pc l2) = true → t1 = t2) ∧
  (∀ s, Queue.reach args s →
     Queue.pushed (mem s)
     = seqZ 0 (Z.of_nat (length (Queue.pushed (mem s)))) ∧
     NoDup (Queue.pushed (mem s)) ∧
     Queue.pushed (mem s)
     = Queue.values (Queue.popped (mem s)) ++ Queue.my_queue (mem s) ∧
     (∀ id v, (id, v) ∈ Queue.popped (mem s) →
        (0 < id < nthreads args)%nat)) ∧
  (∀ s, Queue.reach args s → main s = MDone → 1 ≤ num_threads args →
     Queue.values (Queue.popped (mem s)) = Queue.pushed (mem s) ∧
     NoDup (Queue.values (Queue.popped (mem s))) ∧
     Queue.my_queue (mem s) = [] ∧
     Queue.count (mem s) = Z.of_nat (length (Queue.popped (mem s))) ∧
     Queue.sum (mem s) = Queue.total (Queue.values (Queue.popped (mem s)))).
Proof.
  intros Hwf. split; [|split; [|split]].
  - intros s t l. by apply Queue.queue_access_locked.
  - intros s t1 l1 t2 l2. by apply Queue.mutual_exclusion.
  - intros s. by apply Queue.queue_history.
  - intros s Hr Hm Hnt.
    assert (0 < nthreads args)%nat as Hpos by (unfold nthreads; lia).
    destruct (Queue.run_queue_test_final args Hwf s Hr Hm Hpos)
      as (_ & _ & _ & _ & Hq & Hpu & Hpo & _).
    destruct (Queue.queue_accounting args Hwf s Hr) as [_ Hacc].
    destruct (Hacc Hm Hpos) as [Hc Hs].
    split; [by rewrite Hpu, Hpo|]. split; [rewrite Hpo; apply NoDup_seqZ|].
    done.
Qed.

(** One producer, one consumer, three items: the consumer pops 0, 1, 2. *)
Lemma queue_items_once_under_lock_small :
  wf_args (small "queue") ∧
  Queue.popped (mem (rounds (Queue.task (small "queue")) (small "queue")
                       Queue.init 80)) = [(1%nat, 0); (1%nat, 1); (1%nat, 2)] ∧
  Queue.values
    (Queue.popped (mem (rounds (Queue.task (small "queue")) (small "queue")
                          Queue.init 80)))
  = Queue.pushed (mem (rounds (Queue.task (small "queue")) (small "queue")
                         Queue.init 80)).
Proof.
  pose proof (small_wf "queue") as Hwf.
  split; [exact Hwf|]. split; [vm_compute; reflexivity|].
  destruct (queue_items_once_under_lock (small "queue") Hwf)
    as (_ & _ & _ & Hend).
  refine (proj1 (Hend _ (rounds_reachable _ _ _ 80) _ _));
    [vm_compute; reflexivity|simpl; lia].
Defined.

(** C5: with [num_threads = 1] there is no consumer: nothing is ever
    pushed or popped, count and sum stay 0, so the condition of the
    barrier, [count = (num_threads - 1) * num_ints = 0], holds from the
    start; the run can always return, and when it has, [done] is set and
    the total printed is 0 and nothing else. *)
Theorem run_queue_test_single_thread (args : arg_t) :
  wf_args args → num_threads args = 1 →
  Queue.total_work args = 0 ∧
  (∀ s, Queue.reach args s →
     Queue.pushed (mem s) = [] ∧ Queue.popped (mem s) = [] ∧
     Queue.count (mem s) = Queue.total_work args ∧
     Queue.count (mem s) = 0 ∧ Queue.sum (mem s) = 0) ∧
  (∀ s, Queue.reach args s → main s = MDone →
     Queue.done (mem s) = true ∧
     Queue.TotalSum 0 ∈ Queue.out (mem s) ∧
     ∀ x, Queue.TotalSum x ∈ Queue.out (mem s) → x = 0) ∧
  (∀ s, Queue.reach args s →
     ∃ s', rtc (step (Queue.task args) args) s s' ∧ main s' = MDone).
Proof.
  intros Hwf H1.
  assert (nthreads args = 1%nat) as Hn by (unfold nthreads; by rewrite H1).
  pose proof (Queue.one_thread_no_work args Hn) as HT.
  split; [done|]. split; [|split].
  - intros s Hr.
    destruct (Queue.queue_no_work args Hwf s ltac:(lia) Hr)
      as (Hpu & Hpo & _ & Hc & Hs).
    rewrite HT. done.
  - intros s Hr Hm.
    destruct (Queue.run_queue_test_final args Hwf s Hr Hm ltac:(lia))
      as (_ & _ & _ & Hd & _ & _ & _ & Ho & Hu).
    rewrite HT in Ho, Hu. done.
  - intros s Hr. apply Queue.run_queue_test_returns; [done|lia|done].
Qed.

(** One thread and five items asked for: the total printed is 0. *)
Lemma run_queue_test_single_thread_five :
  wf_args (ArgT 5 1 "queue" false) ∧
  num_threads (ArgT 5 1 "queue" false) = 1 ∧
  main (rounds (Queue.task (ArgT 5 1 "queue" false))
          (ArgT 5 1 "queue" false) Queue.init 20) = MDone ∧
  Queue.out (mem (rounds (Queue.task (ArgT 5 1 "queue" false))
                    (ArgT 5 1 "queue" false) Queue.init 20))
  = [Queue.TotalSum 0] ∧
  Queue.count (mem (rounds (Queue.task (ArgT 5 1 "queue" false))
                      (ArgT 5 1 "queue" false) Queue.init 20)) = 0.
Proof.
  assert (wf_args (ArgT 5 1 "queue" false)) as Hwf
    by (split; unfold int_range, INT_MIN, INT_MAX; simpl; lia).
  split; [exact Hwf|]. split; [reflexivity|].
  split; [vm_compute; reflexivity|]. split; [vm_compute; reflexivity|].
  destruct (run_queue_test_single_thread (ArgT 5 1 "queue" false) Hwf
              eq_refl) as (_ & Hall & _).
  destruct (Hall _ (rounds_reachable _ _ _ 20)) as (_ & _ & _ & Hc & _).
  exact Hc.
Defined.

(** ** Repeated runs *)

(** C8: two runs with the same configuration return with the same
    counter, the same sum of the slots, the same count and sum of the
    queue, whatever the schedules and the clock readings were. *)
Theorem same_configuration_same_result (args : arg_t)
    (rand_r : Z → Z * Z) :
  wf_args args → (∀ seed, 0 ≤ (rand_r seed).1) →
  (∀ s1 s2, Counter.reach args s1 → Counter.reach args s2 →
     main s1 = MDone → main s2 = MDone →
     Counter.counter (mem s1) = Counter.counter (mem s2)) ∧
  (∀ s1 s2, Counters.reach args rand_r s1 → Counters.reach args rand_r s2 →
     main s1 = MDone → main s2 = MDone →
     Counters.slot_sum (mem s1) = Counters.slot_sum (mem s2)) ∧
  (∀ s1 s2, Queue.reach args s1 → Queue.reach args s2 →
     main s1 = MDone → main s2 = MDone →
     Queue.count (mem s1) = Queue.count (mem s2) ∧
     Queue.sum (mem s1) = Queue.sum (mem s2)).
Proof.
  intros Hwf Hrand. split; [|split].
  - intros s1 s2 Hr1 Hr2 Hm1 Hm2.
    rewrite (Counter.run_counter_test_final args Hwf s1 Hr1 Hm1).
    by rewrite (Counter.run_counter_test_final args Hwf s2 Hr2 Hm2).
  - intros s1 s2 Hr1 Hr2 Hm1 Hm2.
    destruct (Counters.run_counters_test_final args rand_r Hwf Hrand
                s1 Hr1 Hm1) as [_ ->].
    by destruct (Counters.run_counters_test_final args rand_r Hwf Hrand
                   s2 Hr2 Hm2) as [_ ->].
  - intros s1 s2 Hr1 Hr2 Hm1 Hm2.
    destruct (decide (0 < nthreads args)%nat) as [Hpos|Hzero].
    + destruct (Queue.run_queue_test_final args Hwf s1 Hr1 Hm1 Hpos)
        as (_ & -> & -> & _).
      by destruct (Queue.run_queue_test_final args Hwf s2 Hr2 Hm2 Hpos)
        as (_ & -> & -> & _).
    + rewrite (Queue.run_queue_test_no_threads args Hwf s1) by (lia || done).
      by rewrite (Queue.run_queue_test_no_threads args Hwf s2)
        by (lia || done).
Qed.

(** Two schedules of the queue, with different clocks: other durations,
    the same count and sum. *)
Lemma same_configuration_two_schedules :
  wf_args (small "queue") ∧
  total_time (rounds_in (Queue.task (small "queue")) (small "queue")
                [0; 1]%nat 1 80 0 (rinit (Queue.task (small "queue"))
                                     Queue.init)) = Some 37 ∧
  total_time (rounds_in (Queue.task (small "queue")) (small "queue")
                [1; 0]%nat 3 80 7 (rinit (Queue.task (small "queue"))
                                     Queue.init)) = Some 111 ∧
  Queue.count (mem (rounds_in (Queue.task (small "queue")) (small "queue")
                      [0; 1]%nat 1 80 0 (rinit (Queue.task (small "queue"))
                                           Queue.init)))
  = Queue.count (mem (rounds_in (Queue.task (small "queue"))
                        (small "queue") [1; 0]%nat 3 80 7
                        (rinit (Queue.task (small "queue")) Queue.init))).
Proof.
  pose proof (small_wf "queue") as Hwf.
  split; [exact Hwf|]. split; [vm_compute; reflexivity|].
  split; [vm_compute; reflexivity|].
  destruct (same_configuration_same_result (small "queue")
              Counters.sample_rand_r Hwf Counters.sample_rand_r_nonneg)
    as (_ & _ & Hq).
  refine (proj1 (Hq _ _ (rounds_in_reachable _ _ _ _ _ 80 _)
                   (rounds_in_reachable _ _ _ _ _ 80 _) _ _));
    vm_compute; reflexivity.
Defined.

(** * Further properties of [threads.cc] *)

(** ** [parse_args] and the start of [main] *)

Section MoreParseArgs.
Context (atoi : string → Z).

(** The argument of [-n], of [-t], of [-b]. *)
Definition arg_n (o : Main.option_t) : option string :=
  match o with Main.OptN s => Some s | _ => None end.

Definition arg_t_opt (o : Main.option_t) : option string :=
  match o with Main.OptT s => Some s | _ => None end.

Definition arg_b (o : Main.option_t) : option string :=
  match o with Main.OptB s => Some s | _ => None end.

Definition is_help (o : Main.option_t) : bool :=
  match o with Main.OptH => true | _ => false end.

(** What [getopt] answers for an option it does not know, or for one
    whose argument is missing. *)
Definition is_other (o : Main.option_t) : bool :=
  match o with Main.OptOther => true | _ => false end.

(** The argument of the last option of one kind on the command line. *)
Definition last_arg (sel : Main.option_t → option string)
    (opts : list Main.option_t) : option string :=
  last (omap sel opts).

Lemma parse_args_snoc opts o a :
  Main.parse_args atoi (opts ++ [o]) a
  = Main.parse_opt atoi (Main.parse_args atoi opts a) o.
Proof. unfold Main.parse_args. by rewrite foldl_app. Qed.

Lemma last_arg_snoc sel opts o :
  last_arg sel (opts ++ [o])
  = match sel o with Some s => Some s | None => last_arg sel opts end.
Proof.
  unfold last_arg. rewrite omap_app. simpl.
  destruct (sel o) as [s|]; simpl.
  - by rewrite last_snoc.
  - by rewrite app_nil_r.
Qed.

Lemma parse_args_usage opts a :
  usage (Main.parse_args atoi opts a) = usage a || existsb is_help opts.
Proof.
  induction opts as [|o opts IH] using rev_ind.
  - simpl. by rewrite orb_false_r.
  - rewrite parse_args_snoc, existsb_app. simpl. rewrite orb_false_r.
    destruct o; simpl; rewrite ?IH, ?orb_false_r, ?orb_true_r; done.
Qed.

(** X1: of several [-n] the last one counts, and so for [-t] and [-b]; an
    option that is absent leaves its member as it was; [-h] is never
    taken back. *)
Theorem parse_args_last_wins (opts : list Main.option_t) (a : arg_t) :
  num_ints (Main.parse_args atoi opts a)
  = default (num_ints a) (atoi <$> last_arg arg_n opts) ∧
  num_threads (Main.parse_args atoi opts a)
  = default (num_threads a) (atoi <$> last_arg arg_t_opt opts) ∧
  behavior (Main.parse_args atoi opts a)
  = default (behavior a) (last_arg arg_b opts) ∧
  usage (Main.parse_args atoi opts a) = usage a || existsb is_help opts.
Proof.
  split; [|split; [|split]]; [| | |apply parse_args_usage].
  all: induction opts as [|o opts IH] using rev_ind; [done|].
  all: rewrite parse_args_snoc, last_arg_snoc.
  all: destruct o; simpl; done.
Qed.

(** X2: options that [getopt] rejects change nothing: the [switch] has no
    case for them. *)
Theorem parse_args_unknown_ignored (opts : list Main.option_t) (a : arg_t) :
  Main.parse_args atoi opts a
  = Main.parse_args atoi (filter (λ o, is_other o = false) opts) a.
Proof.
  revert a. induction opts as [|o opts IH]; intros a; [done|].
  destruct o; simpl; rewrite ?filter_cons_True by done; simpl; apply IH.
Qed.


End MoreParseArgs.


(** ** [run_timed_test] *)

Section MoreRunner.
Context (T : Task) (args : arg_t) (g0 : shared T).
Hypothesis Hwf : wf_args args.

(** X4: with [num_threads = 0] the array of threads is empty: no worker is
    ever launched, nobody touches the shared variables, and five steps
    of the launching thread complete the run and report the time between
    its first and fourth. *)
Theorem run_timed_test_no_workers :
  num_threads args = 0 →
  (∀ s, reachable T args g0 s →
     threads s = [] ∧ started s = [] ∧ mem s = g0) ∧
  (∀ s t, reachable T args g0 s → rstep T args (AWorker t) s = None) ∧
  (∀ now1 a b now2 c,
     ∃ s, exec T args [AMain now1; AMain a; AMain b; AMain now2; AMain c]
            (rinit T g0) = Some s ∧
          main s = MDone ∧ total_time s = Some (now2 - now1)).
Proof.
  intros H0.
  assert (nthreads args = 0%nat) as Hn by (unfold nthreads; by rewrite H0).
  assert (∀ s, reachable T args g0 s →
            threads s = [] ∧ started s = [] ∧ mem s = g0) as Hidle.
  { intros s Hr.
    destruct (reachable_rinv T args g0 Hwf s Hr) as [Hst Hm].
    assert (threads s = []) as Hth.
    { apply nil_length_inv. rewrite Hn in Hm.
      destruct (main s);
        [by rewrite Hm|destruct Hm as [_ Hm]; lia
        |destruct Hm as [Hm _]; lia..]. }
    split; [done|]. split; [by rewrite Hst, Hth|].
    pose proof (reachable_flat T args g0 Hwf s Hr) as Hf.
    apply (no_threads T args g0 _ Hn) in Hf.
    unfold flat_of, finit in Hf. by injection Hf as ->. }
  split; [done|]. split.
  - intros s t Hr. destruct (Hidle s Hr) as (Hth & _). simpl. by rewrite Hth.
  - intros now1 a b now2 c. simpl. rewrite H0. simpl. rewrite Hn. simpl.
    eexists. done.
Qed.

(** X5: with a number of threads that is not negative, the launching
    thread is held up in one place only: at the [join] of a worker that
    has not returned yet.  Everywhere else, until the run is complete, it
    can take its next step. *)
Theorem run_timed_test_waits_in_join (s : rstate T) (now : Z) :
  0 ≤ num_threads args → reachable T args g0 s →
  (rstep T args (AMain now) s = None ↔
   main s = MDone ∨
   ∃ j l, main s = MJoin j ∧ (j < nthreads args)%nat ∧
          threads s !! j = Some l ∧ returned T l = false).
Proof.
  intros Hnt Hr. destruct (reachable_rinv T args g0 Hwf s Hr) as [_ Hm].
  unfold rstep. destruct (main s) as [|i|j| | |] eqn:Em.
  - split; [done|]. intros [?|(j & l & ? & _)]; done.
  - split.
    + by destruct (i <? num_threads args).
    + intros [?|(j & l & ? & _)]; done.
  - destruct Hm as (Hlen & Hj & _).
    destruct (Nat.ltb_spec j (nthreads args)) as [Hlt|Hge].
    + destruct (lookup_lt_is_Some_2 (threads s) j) as [l Hl]; [lia|].
      rewrite Hl. destruct (returned T l) eqn:Er.
      * split; [done|]. intros [?|(j' & l' & Hj' & _ & Hl' & Hr')]; [done|].
        injection Hj' as <-. rewrite Hl in Hl'. injection Hl' as <-.
        congruence.
      * split; [|done]. intros _. right. by exists j, l.
    + split; [done|]. intros [?|(j' & l' & Hj' & Hlt & _)]; [done|].
      injection Hj' as <-. lia.
  - split; [done|]. intros [?|(j & l & ? & _)]; done.
  - split; [done|]. intros [?|(j & l & ? & _)]; done.
  - split; [by left|done].
Qed.

(** Whether an action is enabled, and the states of schedules. *)
Definition can_step (a : action) (s : rstate T) : bool :=
  match rstep T args a s with Some _ => true | None => false end.

Lemma try_step_step a s :
  can_step a s = true → step T args s (try_step T args a s).
Proof.
  unfold can_step, try_step. intros H. exists a.
  by destruct (rstep T args a s).
Qed.

Lemma run_is_reachable sched : reachable T args g0 (run T args g0 sched).
Proof.
  unfold run. destruct (exec T args sched (rinit T g0)) as [s|] eqn:E; simpl.
  - by apply (run_reachable T args g0 sched).
  - apply rtc_refl.
Qed.

End MoreRunner.

Lemma run_timed_test_no_workers_counter :
  wf_args (ArgT 7 0 "counter" false) ∧
  num_threads (ArgT 7 0 "counter" false) = 0 ∧
  Counter.counter
    (mem (rounds (Counter.task (ArgT 7 0 "counter" false))
            (ArgT 7 0 "counter" false) Counter.init 9))
  = Counter.counter Counter.init.
Proof.
  assert (wf_args (ArgT 7 0 "counter" false)) as Hwf
    by (split; unfold int_range, INT_MIN, INT_MAX; simpl; lia).
  split; [exact Hwf|]. split; [reflexivity|].
  destruct (run_timed_test_no_workers
              (Counter.task (ArgT 7 0 "counter" false))
              (ArgT 7 0 "counter" false) Counter.init Hwf eq_refl)
    as (Hidle & _).
  destruct (Hidle _ (rounds_reachable _ _ _ 9)) as (_ & _ & Hmem).
  exact (f_equal Counter.counter Hmem).
Defined.

(** Two workers of three increments, three rounds into the run: the
    launching thread stands at the first [join]. *)
Lemma run_timed_test_waits_in_join_small :
  wf_args (small "counter") ∧ 0 ≤ num_threads (small "counter") ∧
  main (rounds (Counter.task (small "counter")) (small "counter")
          Counter.init 5) = MJoin 0 ∧
  rstep (Counter.task (small "counter")) (small "counter") (AMain 0)
    (rounds (Counter.task (small "counter")) (small "counter")
       Counter.init 5) = None.
Proof.
  pose proof (small_wf "counter") as Hwf.
  split; [exact Hwf|]. split; [simpl; lia|].
  split; [vm_compute; reflexivity|].
  apply (run_timed_test_waits_in_join (Counter.task (small "counter"))
           (small "counter") Counter.init Hwf _ 0 ltac:(simpl; lia)
           (rounds_reachable _ _ _ 5)).
  right. exists 0%nat. eexists.
  split; [vm_compute; reflexivity|]. split; [vm_compute; lia|].
  split; vm_compute; reflexivity.
Defined.

(** ** [run_counter_test] *)

Section MoreCounter.
Context (args : arg_t).
Hypothesis Hwf : wf_args args.

Lemma counter_thread_inv s t l :
  Counter.reach args s → threads s !! t = Some l →
  Counter.tinv args t (mem s) l.
Proof.
  intros Hr Hl.
  destruct (Counter.counter_reach_finv args Hwf s Hr) as (_ & _ & _ & Hth).
  exact (Hth t l (threads_flat (Counter.task args) args s t l Hl)).
Qed.

(** X6: at most one worker is between the constructor and the destructor of
    its [lock_guard]; and when [run_timed_test] is past its joins, the
    mutex is free: every acquisition has been released. *)
Theorem counter_lock_discipline :
  (∀ s t1 l1 t2 l2, Counter.reach args s →
     threads s !! t1 = Some l1 → threads s !! t2 = Some l2 →
     Counter.critical (Counter.pc l1) = true →
     Counter.critical (Counter.pc l2) = true → t1 = t2) ∧
  (∀ s, Counter.reach args s →
     main s = MStop ∨ main s = MReport ∨ main s = MDone →
     Counter.lock (mem s) = None).
Proof.
  split.
  - intros s t1 l1 t2 l2 Hr Hl1 Hl2 Hc1 Hc2.
    destruct (counter_thread_inv s t1 l1 Hr Hl1) as (_ & _ & [H1 _] & _).
    destruct (counter_thread_inv s t2 l2 Hr Hl2) as (_ & _ & [H2 _] & _).
    specialize (H1 Hc1). specialize (H2 Hc2). congruence.
  - intros s Hr Hm.
    destruct (joined_all (Counter.task args) args Counter.init Hwf s Hr Hm)
      as (_ & Hlen & Hall).
    pose proof (Counter.counter_reach_finv args Hwf s Hr) as Hinv.
    rewrite flat_of_full in Hinv by done.
    destruct Hinv as (_ & _ & Hlock & _). cbn [fst snd] in Hlock.
    destruct (Counter.lock (mem s)) as [h|] eqn:Elk; [|done].
    destruct (lookup_lt_is_Some_2 (threads s) h (Hlock h eq_refl))
      as [l Hl].
    destruct (counter_thread_inv s h l Hr Hl) as (_ & _ & [_ Hc] & _).
    specialize (Hc Elk). pose proof (Hall h l Hl) as Hret.
    simpl in Hret. unfold Counter.has_returned in Hret.
    by destruct (Counter.pc l).
Qed.

(** X7: no update is lost: every step of the run leaves the counter as it
    was or adds exactly one to it, the counter never wraps, and at no
    moment does it exceed the number of increments asked for. *)
Theorem counter_grows_by_one (s s' : rstate (Counter.task args)) :
  Counter.reach args s → step (Counter.task args) args s s' →
  (Counter.counter (mem s') = Counter.counter (mem s) ∨
   Counter.counter (mem s') = Counter.counter (mem s) + 1) ∧
  0 ≤ Counter.counter (mem s')
    ≤ Z.max 0 (num_threads args) * Z.max 0 (num_ints args).
Proof.
  intros Hr Hs. split.
  - pose proof (Counter.run_counter_test_bounds args Hwf s Hr) as Hb.
    assert (Z.max 0 (num_threads args) * Z.max 0 (num_ints args)
            ≤ INT_MAX * INT_MAX) as Hmax.
    { destruct Hwf as [H1 H2]. unfold int_range, INT_MIN, INT_MAX in *.
      nia. }
    destruct Hs as [[now|t] Hs].
    + left. unfold rstep in Hs.
      destruct (main s); simplify_eq; try done.
      * by destruct (_ <? _); simplify_eq.
      * destruct (_ <? _)%nat; simplify_eq; [|done].
        destruct (threads s !! _) as [l|]; [|done].
        by destruct (returned _ l); simplify_eq.
    + unfold rstep in Hs.
      destruct (threads s !! t) as [l|] eqn:Hl; [|done].
      destruct (counter_thread_inv s t l Hr Hl) as (_ & _ & _ & Htmp & _).
      cbn [tstep Counter.task] in Hs. unfold Counter.workload in Hs.
      destruct l as [p a b]; cbn [Counter.pc Counter.i Counter.tmp] in *.
      destruct p; try done.
      * destruct (a <? num_ints args).
        -- destruct (Counter.lock (mem s)); simplify_eq. by left.
        -- simplify_eq. by left.
      * simplify_eq. by left.
      * simplify_eq. right. cbn [mem set_workers Counter.counter].
        rewrite (Htmp eq_refl). apply wrap_u64_id.
        unfold INT_MAX in *. lia.
      * simplify_eq. by left.
  - apply (Counter.run_counter_test_bounds args Hwf).
    eapply rtc_r; [exact Hr|exact Hs].
Qed.

End MoreCounter.

Lemma counter_lock_discipline_small :
  wf_args (small "counter") ∧
  Counter.lock
    (mem (rounds (Counter.task (small "counter")) (small "counter")
            Counter.init 40)) = None.
Proof.
  pose proof (small_wf "counter") as Hwf.
  split; [exact Hwf|].
  refine (proj2 (counter_lock_discipline (small "counter") Hwf) _
            (rounds_reachable _ _ _ 40) _).
  right; right. vm_compute; reflexivity.
Defined.

(** Both workers launched, worker 0 has taken the lock and read the
    counter. *)
Definition before_store : rstate (Counter.task (small "counter")) :=
  run (Counter.task (small "counter")) (small "counter") Counter.init
    [AMain 0; AMain 0; AMain 0; AWorker 0; AWorker 0].

(** The first store of the run: the counter goes from 0 to 1. *)
Lemma counter_grows_by_one_first_store :
  wf_args (small "counter") ∧
  Counter.counter (mem before_store) = 0 ∧
  Counter.counter
    (mem (try_step (Counter.task (small "counter")) (small "counter")
            (AWorker 0) before_store)) = 1 ∧
  (Counter.counter
     (mem (try_step (Counter.task (small "counter")) (small "counter")
             (AWorker 0) before_store))
   = Counter.counter (mem before_store) ∨
   Counter.counter
     (mem (try_step (Counter.task (small "counter")) (small "counter")
             (AWorker 0) before_store))
   = Counter.counter (mem before_store) + 1).
Proof.
  pose proof (small_wf "counter") as Hwf.
  split; [exact Hwf|]. split; [vm_compute; reflexivity|].
  split; [vm_compute; reflexivity|].
  refine (proj1 (counter_grows_by_one (small "counter") Hwf _ _ _ _)).
  - apply run_is_reachable.
  - apply try_step_step. vm_compute; reflexivity.
Defined.

(** ** [run_counters_test] *)

(** Sums over the threads of a quantity that depends on the index of the
    thread. *)
Fixpoint sumZi {A : Type} (f : nat → A → Z) (t : nat) (l : list A) : Z :=
  match l with
  | [] => 0
  | x :: l' => f t x + sumZi f (S t) l'
  end.

Lemma sumZi_insert {A} (f : nat → A → Z) t l k x y :
  l !! k = Some x →
  sumZi f t (<[k:=y]> l) = sumZi f t l - f (t + k)%nat x + f (t + k)%nat y.
Proof.
  revert t k. induction l as [|z l IH]; intros t [|k] Hk; simplify_eq/=.
  - rewrite Nat.add_0_r. lia.
  - rewrite (IH (S t) k Hk).
    replace (S t + k)%nat with (t + S k)%nat by lia. lia.
Qed.

Lemma sumZi_seq {A} (f : nat → A → Z) (h : nat → Z) t l :
  (∀ k x, l !! k = Some x → f (t + k)%nat x = h (t + k)%nat) →
  sumZi f t l = sumZ h (seq t (length l)).
Proof.
  revert t. induction l as [|z l IH]; intros t H; simpl; [done|].
  rewrite (IH (S t)).
  - specialize (H 0%nat z eq_refl). rewrite Nat.add_0_r in H. by rewrite H.
  - intros k x Hk. specialize (H (S k) x Hk).
    by replace (S t + k)%nat with (t + S k)%nat by lia.
Qed.

Section MoreCounters.
Context (args : arg_t) (rand_r : Z → Z * Z).

(** [unsigned seed = (unsigned)id]. *)
Definition own_seed (id : nat) : Z := wrap_u32 (Z.of_nat id).

(** The seed after [n] calls of [rand_r]. *)
Fixpoint seed_after (n : nat) (seed : Z) : Z :=
  match n with
  | O => seed
  | S n' => (rand_r (seed_after n' seed)).2
  end.

(** The index drawn in iteration [n], counted from 0. *)
Definition draw (seed : Z) (n : nat) : Z :=
  Counters.shard_index (rand_r (seed_after n seed)).1.

(** How many of the first [n] draws fall on slot [k]. *)
Fixpoint hits (k : Z) (seed : Z) (n : nat) : Z :=
  match n with
  | O => 0
  | S n' => hits k seed n' + (if draw seed n' =? k then 1 else 0)
  end.

Definition done_hits (k : nat) (t : nat) (l : Counters.slocal) : Z :=
  hits (Z.of_nat k) (own_seed t) (Z.to_nat (Counters.i l)).

(** Every worker is where its own seed has led it, and every slot holds
    the draws that fell on it so far. *)
Definition replay (f : fstate (Counters.task args rand_r)) : Prop :=
  (∀ t l, f.2 !! t = Some l →
     Counters.seed l
     = seed_after (Z.to_nat (Counters.i l)) (own_seed t)) ∧
  (∀ k v, f.1 !! k = Some v → v = sumZi (done_hits k) 0 f.2).

(** What slot [k] holds when all workers have returned. *)
Definition final_slot (k : nat) : Z :=
  sumZ (λ t, hits (Z.of_nat k) (own_seed t) (Z.to_nat (num_ints args)))
    (seq 0 (nthreads args)).

Definition final_table : list Z := final_slot <$> seq 0 Counters.NCOUNTERS.

Lemma replay_init :
  replay (finit (Counters.task args rand_r) args Counters.init).
Proof.
  split.
  - intros t l Hl.
    by rewrite (finit_lookup (Counters.task args rand_r) args
                  Counters.init t l Hl).
  - intros k v Hv. unfold finit in *. cbn [fst snd] in *.
    apply lookup_replicate in Hv as [-> _].
    rewrite (sumZi_seq _ (λ _, 0)).
    + symmetry. by apply sumZ_zero.
    + intros t l Hl. rewrite list_lookup_fmap in Hl.
      destruct (seq 0 (nthreads args) !! t); [|done]. by injection Hl as <-.
Qed.

Hypothesis Hwf : wf_args args.
Hypothesis rand_r_nonneg : ∀ s, 0 ≤ (rand_r s).1.

Lemma replay_step f f' :
  Counters.finv args rand_r f → replay f →
  fstep (Counters.task args rand_r) f f' → replay f'.
Proof.
  intros Hinv [Hseed Hslot] Hstep.
  pose proof (Counters.slots_no_wrap args rand_r Hwf f) as Hnw.
  specialize (λ k v, Hnw k v Hinv).
  destruct Hinv as (Hlen & Hlc & Hnn & Hsum & Hth).
  apply fstep_inv in Hstep as (t & l & g' & l' & Hl & Hstep & ->).
  destruct f as [g ls]; cbn [fst snd shared local Counters.task] in *.
  pose proof (Hth t l Hl) as (Hi & Hnf & Hr).
  pose proof (Hseed t l Hl) as Hsd.
  pose proof (Counters.counters_bound_range args Hwf) as Hb.
  unfold Counters.bound, INT_MAX in *.
  cbn [tstep Counters.task] in Hstep. unfold Counters.workload in Hstep.
  destruct l as [p a sd]; cbn [Counters.pc Counters.i Counters.seed] in *.
  destruct p; [|done|done].
  destruct (Z.ltb_spec a (num_ints args)) as [Hlt|Hge].
  - destruct (rand_r sd) as [r sd'] eqn:Er.
    pose proof (rand_r_nonneg sd) as Hr0. rewrite Er in Hr0. simpl in Hr0.
    pose proof (Counters.shard_index_range r Hr0) as Hidx.
    destruct (Counters.fetch_add_in_range g (Counters.shard_index r) Hlc
                Hidx) as (v & Hv & Hfa).
    rewrite Hfa in Hstep. injection Hstep as <- <-.
    specialize (Hnw _ _ Hv).
    rewrite wrap_u64_id by (unfold INT_MAX in Hnw; lia).
    rewrite wrap_int_id by (unfold int_range, INT_MIN, INT_MAX; lia).
    assert (Z.to_nat (a + 1) = S (Z.to_nat a)) as HS by lia.
    split; cbn [fst snd].
    + intros t' l'' [(<- & <- & _)|(_ & Hl'')]%list_lookup_insert_Some;
        [|by apply Hseed].
      cbn [Counters.i Counters.seed]. rewrite HS. simpl.
      by rewrite <- Hsd, Er.
    + intros k v' Hk. rewrite (sumZi_insert _ _ _ _ _ _ Hl).
      unfold done_hits at 2 3. cbn [Counters.i]. rewrite HS. simpl hits.
      unfold draw. rewrite <- Hsd, Er. cbn [fst].
      apply list_lookup_insert_Some in Hk as [(Hk & <- & _)|(Hne & Hk)].
      * rewrite <- Hk, Z2Nat.id, Z.eqb_refl by lia.
        rewrite <- (Hslot _ _ Hv). lia.
      * rewrite <- (Hslot _ _ Hk).
        destruct (Z.eqb_spec (Counters.shard_index r) (Z.of_nat k)) as [E|E];
          [|lia].
        rewrite E, Nat2Z.id in Hne. done.
  - injection Hstep as <- <-. split; cbn [fst snd].
    + intros t' l'' [(<- & <- & _)|(_ & Hl'')]%list_lookup_insert_Some;
        [done|by apply Hseed].
    + intros k v' Hk. rewrite (sumZi_insert _ _ _ _ _ _ Hl).
      unfold done_hits at 2 3. cbn [Counters.i].
      rewrite <- (Hslot _ _ Hk). lia.
Qed.

Lemma reach_replay s :
  Counters.reach args rand_r s →
  Counters.finv args rand_r (flat_of (Counters.task args rand_r) args s) ∧
  replay (flat_of (Counters.task args rand_r) args s).
Proof.
  apply (reachable_inv (Counters.task args rand_r) args Counters.init Hwf
           (λ f, Counters.finv args rand_r f ∧ replay f)).
  - split; [apply Counters.counters_finv_init|apply replay_init].
  - intros f f' [Hf Hp] Hs. split.
    + by destruct (Counters.counters_finv_step args rand_r Hwf
                     rand_r_nonneg f f' Hf Hs).
    + by apply (replay_step f).
Qed.

(** X8: the table that [run_counters_test] leaves behind is the same in every
    run: slot [k] holds the number of draws of all workers that fell on
    [k], and the draws of a worker are fixed by its index. *)
Theorem counters_final_table :
  (∀ s, Counters.reach args rand_r s → main s = MDone →
     mem s = final_table) ∧
  (∀ s1 s2, Counters.reach args rand_r s1 → Counters.reach args rand_r s2 →
     main s1 = MDone → main s2 = MDone → mem s1 = mem s2).
Proof.
  assert (∀ s, Counters.reach args rand_r s → main s = MDone →
            mem s = final_table) as Hfin.
  { intros s Hr Hm.
    destruct (joined_all (Counters.task args rand_r) args Counters.init Hwf
                s Hr) as (_ & Hlen & Hall); [auto|].
    destruct (reach_replay s Hr) as [Hinv [_ Hslot]].
    rewrite flat_of_full in Hinv, Hslot by done.
    destruct Hinv as (_ & Hlc & _ & _ & Hth). cbn [fst snd] in *.
    apply list_eq. intros k. unfold final_table.
    rewrite list_lookup_fmap.
    destruct (decide (k < Counters.NCOUNTERS)%nat) as [Hk|Hk].
    - rewrite lookup_seq_lt by done. simpl.
      destruct (lookup_lt_is_Some_2 (mem s) k) as [v Hv]; [lia|].
      rewrite Hv, (Hslot k v Hv). f_equal. unfold final_slot.
      rewrite <- Hlen. apply sumZi_seq. intros t l Hl. unfold done_hits.
      destruct (Hth t l Hl) as (_ & _ & Hr').
      pose proof (Hall t l Hl) as Hret. simpl in Hret.
      unfold Counters.has_returned in Hret.
      rewrite Hr' by (by destruct (Counters.pc l)).
      unfold Counters.bound. f_equal. lia.
    - rewrite lookup_seq_ge by lia. simpl.
      apply lookup_ge_None. lia. }
  split; [done|]. intros s1 s2 Hr1 Hr2 Hm1 Hm2.
  by rewrite (Hfin s1), (Hfin s2).
Qed.

(** X9: every step of the run leaves the table as it was or adds exactly one
    to exactly one slot, without wrapping; the table keeps its 1024 slots,
    and their sum never exceeds the number of increments asked for. *)
Theorem counters_add_one_slot (s s' : rstate (Counters.task args rand_r)) :
  Counters.reach args rand_r s →
  step (Counters.task args rand_r) args s s' →
  (mem s' = mem s ∨
   ∃ k v, mem s !! k = Some v ∧ mem s' = <[k:=v + 1]> (mem s)) ∧
  length (mem s') = Counters.NCOUNTERS ∧
  0 ≤ Counters.slot_sum (mem s')
    ≤ Z.max 0 (num_threads args) * Z.max 0 (num_ints args).
Proof.
  intros Hr Hs. split.
  - pose proof (Counters.counters_reach_finv args rand_r Hwf rand_r_nonneg
                  s Hr) as Hinv.
    pose proof (λ k v, Counters.slots_no_wrap args rand_r Hwf _ k v Hinv)
      as Hnw.
    destruct Hinv as (_ & Hlc & _). cbn [fst snd flat_of] in Hlc, Hnw.
    destruct Hs as [[now|t] Hs].
    + left. unfold rstep in Hs.
      destruct (main s); simplify_eq; try done.
      * by destruct (_ <? _); simplify_eq.
      * destruct (_ <? _)%nat; simplify_eq; [|done].
        destruct (threads s !! _) as [l|]; [|done].
        by destruct (returned _ l); simplify_eq.
    + unfold rstep in Hs.
      destruct (threads s !! t) as [l|] eqn:Hl; [|done].
      cbn [tstep Counters.task] in Hs. unfold Counters.workload in Hs.
      destruct (Counters.pc l); [|done|done].
      destruct (Counters.i l <? num_ints args); [|simplify_eq; by left].
      destruct (rand_r (Counters.seed l)) as [r sd'] eqn:Er.
      pose proof (rand_r_nonneg (Counters.seed l)) as Hr0.
      rewrite Er in Hr0. simpl in Hr0.
      destruct (Counters.fetch_add_in_range (mem s)
                  (Counters.shard_index r) Hlc
                  (Counters.shard_index_range r Hr0)) as (v & Hv & Hfa).
      rewrite Hfa in Hs. simplify_eq. right.
      exists (Z.to_nat (Counters.shard_index r)), v. split; [done|].
      cbn [mem set_workers]. rewrite wrap_u64_id; [done|].
      specialize (Hnw _ _ Hv). unfold INT_MAX in Hnw. lia.
  - assert (Counters.reach args rand_r s') as Hr'
      by (eapply rtc_r; [exact Hr|exact Hs]).
    pose proof (Counters.counters_reach_finv args rand_r Hwf rand_r_nonneg
                  s' Hr') as (Hlen & Hlc & Hnn & Hsum & Hth).
    unfold flat_of in *. cbn [fst snd] in *. split; [done|].
    unfold Counters.slot_sum in *. split.
    + by apply sumZ_nonneg.
    + rewrite Hsum. etrans.
      * apply (sumZ_le_const _ _ (Counters.bound args)). intros t x Hx.
        destruct (Hth t x Hx) as (? & _). lia.
      * cbn [local Counters.task] in Hlen |- *. rewrite Hlen.
        unfold nthreads, Counters.bound. nia.
Qed.

End MoreCounters.

(** Two workers of three draws each, under two schedules. *)
Lemma counters_final_table_small :
  wf_args (small "counters") ∧
  mem (rounds_in (Counters.task (small "counters") Counters.sample_rand_r)
         (small "counters") [1; 0]%nat 1 20 0
         (rinit (Counters.task (small "counters") Counters.sample_rand_r)
            Counters.init))
  = final_table (small "counters") Counters.sample_rand_r ∧
  Counters.slot_sum
    (final_table (small "counters") Counters.sample_rand_r) = 6.
Proof.
  pose proof (small_wf "counters") as Hwf.
  split; [exact Hwf|]. split; [|vm_compute; reflexivity].
  refine (proj1 (counters_final_table (small "counters")
                   Counters.sample_rand_r Hwf
                   Counters.sample_rand_r_nonneg) _
            (rounds_in_reachable _ _ _ _ _ 20 _) _).
  vm_compute; reflexivity.
Defined.

(** Worker 0 of the small configuration makes its first draw. *)
Definition before_draw
  : rstate (Counters.task (small "counters") Counters.sample_rand_r) :=
  run (Counters.task (small "counters") Counters.sample_rand_r)
    (small "counters") Counters.init [AMain 0; AMain 0; AMain 0].

Lemma counters_add_one_slot_first_draw :
  wf_args (small "counters") ∧
  Counters.slot_sum (mem before_draw) = 0 ∧
  Counters.slot_sum
    (mem (try_step (Counters.task (small "counters") Counters.sample_rand_r)
            (small "counters") (AWorker 0) before_draw)) = 1 ∧
  length
    (mem (try_step (Counters.task (small "counters") Counters.sample_rand_r)
            (small "counters") (AWorker 0) before_draw))
  = Counters.NCOUNTERS.
Proof.
  pose proof (small_wf "counters") as Hwf.
  split; [exact Hwf|]. split; [vm_compute; reflexivity|].
  split; [vm_compute; reflexivity|].
  refine (proj1 (proj2 (counters_add_one_slot (small "counters")
                          Counters.sample_rand_r Hwf
                          Counters.sample_rand_r_nonneg _ _ _ _))).
  - apply run_is_reachable.
  - apply try_step_step. vm_compute; reflexivity.
Defined.

(** ** [run_queue_test] *)

Section MoreQueue.
Context (args : arg_t).
Hypothesis Hwf : wf_args args.

Lemma queue_state_inv s :
  Queue.reach args s →
  Queue.ginv args (mem s) (flat_of (Queue.task args) args s).2.
Proof. intros Hr. apply (Queue.queue_reach_finv args Hwf s Hr). Qed.

Lemma queue_thread_inv s t l :
  Queue.reach args s → threads s !! t = Some l →
  Queue.tinv args t (mem s) l.
Proof.
  intros Hr Hl.
  apply (Queue.g_threads args _ _ (queue_state_inv s Hr)).
  exact (threads_flat (Queue.task args) args s t l Hl).
Qed.

(** Once [done] is set, the producer has pushed all its items. *)
Lemma done_all_pushed s :
  Queue.reach args s → Queue.done (mem s) = true →
  Queue.pushed (mem s) = seqZ 0 (Z.max 0 (Queue.total_work args)).
Proof.
  intros Hr Hd. pose proof (queue_state_inv s Hr) as Hinv.
  destruct (decide (nthreads args = 0)%nat) as [H0|H0].
  { rewrite (Queue.run_queue_test_no_threads args Hwf s H0 Hr) in Hd.
    done. }
  destruct (lookup_lt_is_Some_2
              (flat_of (Queue.task args) args s).2 0%nat) as [l Hl].
  { pose proof (Queue.g_len args _ _ Hinv) as Hlen.
    cbn [local Queue.task] in *. lia. }
  destruct (Queue.g_threads args _ _ Hinv 0%nat l Hl)
    as (_ & _ & _ & _ & _ & Hrole).
  cbn [Nat.eqb] in Hrole.
  destruct Hrole as (_ & _ & _ & _ & _ & Hpush & Hdone & Hpast & _).
  rewrite Hd in Hdone. symmetry in Hdone. specialize (Hpast Hdone).
  rewrite (Queue.g_seq args _ _ Hinv), Hpush.
  unfold Queue.produced. unfold Queue.work in Hpast.
  destruct (Queue.pc l); try done; by rewrite Hpast.
Qed.

(** X10: a negative [num_ints] with two threads or more: the count of work
    items is negative, the producer pushes nothing, [count] stays 0 and
    never equals the negative target, so no thread leaves the barrier and
    [run_queue_test] does not return. *)
Theorem run_queue_test_negative_hangs :
  2 ≤ num_threads args → num_ints args < 0 →
  INT_MIN ≤ (num_threads args - 1) * num_ints args →
  ∀ s, Queue.reach args s →
    main s ≠ MDone ∧ Queue.pushed (mem s) = [] ∧
    Queue.count (mem s) = 0 ∧ Queue.count (mem s) ≠ Queue.total_work args.
Proof.
  intros Hnt Hni Hmin s Hr.
  assert (Queue.total_work args = (num_threads args - 1) * num_ints args)
    as HT.
  { apply Queue.total_work_exact; [done|lia|].
    unfold int_range, INT_MIN, INT_MAX in *. nia. }
  assert (Queue.total_work args < 0) as Hneg by nia.
  destruct (Queue.queue_no_work args Hwf s ltac:(lia) Hr)
    as (Hpu & _ & _ & Hc & _).
  split; [|split; [done|split; [done|lia]]].
  apply (Queue.run_queue_test_hangs args Hwf s Hneg); [|done].
  unfold nthreads. lia.
Qed.

(** X11: [front] and [pop] are called on a queue that is not empty, and by
    consumers only. *)
Theorem queue_never_pops_empty s t l :
  Queue.reach args s → threads s !! t = Some l →
  Queue.needs_item (Queue.pc l) = true →
  t ≠ 0%nat ∧ Queue.my_queue (mem s) ≠ [] ∧
  Queue.workload args t (mem s) l ≠ None.
Proof.
  intros Hr Hl Hn.
  destruct (queue_thread_inv s t l Hr Hl) as (_ & _ & _ & _ & _ & Hrole).
  destruct t as [|t]; cbn [Nat.eqb] in Hrole.
  - destruct Hrole as (Hp & _). by destruct (Queue.pc l).
  - destruct Hrole as (_ & _ & Hq & _). specialize (Hq Hn).
    split; [done|]. split; [done|]. unfold Queue.workload.
    destruct (Queue.pc l); try done; by destruct (Queue.my_queue (mem s)).
Qed.

(** X12: the completion flag is raised only after the last push: when [done]
    reads true, the items [0 .. total - 1] have all been pushed. *)
Theorem queue_done_after_last_push s :
  Queue.reach args s → Queue.done (mem s) = true →
  Queue.pushed (mem s) = seqZ 0 (Z.max 0 (Queue.total_work args)) ∧
  Z.of_nat (length (Queue.pushed (mem s)))
  = Z.max 0 (Queue.total_work args).
Proof.
  intros Hr Hd. rewrite (done_all_pushed s Hr Hd). split; [done|].
  rewrite length_seqZ. lia.
Qed.

(** X13: a consumer leaves its loop only when there is nothing left to do:
    the flag is set, the queue is empty, and every item of the producer
    has been popped. *)
Theorem queue_consumer_leaves_when_drained s t l :
  Queue.reach args s → threads s !! t = Some l → t ≠ 0%nat →
  Queue.after_loop (Queue.pc l) = true →
  Queue.done (mem s) = true ∧ Queue.my_queue (mem s) = [] ∧
  Queue.values (Queue.popped (mem s))
  = seqZ 0 (Z.max 0 (Queue.total_work args)).
Proof.
  intros Hr Hl Ht Ha.
  destruct (queue_thread_inv s t l Hr Hl) as (_ & _ & _ & _ & _ & Hrole).
  destruct t as [|t]; [done|]. cbn [Nat.eqb] in Hrole.
  destruct Hrole as (_ & _ & _ & _ & Hafter).
  destruct (Hafter Ha) as [Hq Hd]. split; [done|]. split; [done|].
  pose proof (Queue.g_fifo args _ _ (queue_state_inv s Hr)) as Hfifo.
  rewrite Hq, app_nil_r in Hfifo. rewrite <- Hfifo.
  by apply done_all_pushed.
Qed.

(** X14: [count] never overshoots the target of the barrier; and when it has
    reached it, nothing is left in the queue or in the hands of a
    consumer: every item has been popped and [sum] has its final value. *)
Theorem queue_barrier_sound s :
  Queue.reach args s →
  0 ≤ Queue.count (mem s) ≤ Z.max 0 (Queue.total_work args) ∧
  (Queue.count (mem s) = Queue.total_work args →
   Queue.sum (mem s) = Queue.triangle (Queue.total_work args) ∧
   Queue.my_queue (mem s) = [] ∧
   Queue.values (Queue.popped (mem s))
   = seqZ 0 (Queue.total_work args)).
Proof.
  intros Hr. pose proof (queue_state_inv s Hr) as Hinv. split.
  - pose proof (Queue.count_bounds args _ _ Hinv) as Hb.
    pose proof (Queue.g_count0 args _ _ Hinv) as H0.
    assert (0 ≤ sumZ Queue.cnt_pend (flat_of (Queue.task args) args s).2)
      by (apply sumZ_nonneg, (Queue.cnt_pend_nonneg args _ _ Hinv)).
    unfold Queue.work in Hb. lia.
  - intros Hc.
    destruct (Queue.count_full args _ _ Hinv Hc)
      as (Hw & Hq & Hlp & _ & _ & Hs).
    rewrite Hw. split; [done|]. split; [done|].
    pose proof (Queue.g_fifo args _ _ Hinv) as Hfifo.
    rewrite Hq, app_nil_r in Hfifo.
    by rewrite <- Hfifo, (Queue.g_seq args _ _ Hinv), Hlp.
Qed.

(** X15: whenever a line [Total Sum] is on the output, it carries the sum of
    all items; and when [run_timed_test] is past its joins the mutex is
    free. *)
Theorem queue_total_and_lock s :
  Queue.reach args s →
  (∀ x, Queue.TotalSum x ∈ Queue.out (mem s) →
     x = Queue.triangle (Z.max 0 (Queue.total_work args))) ∧
  (main s = MStop ∨ main s = MReport ∨ main s = MDone →
   Queue.lock (mem s) = None).
Proof.
  intros Hr. pose proof (queue_state_inv s Hr) as Hinv. split.
  - apply (Queue.g_out args _ _ Hinv).
  - intros Hm.
    destruct (joined_all (Queue.task args) args Queue.init Hwf s Hr Hm)
      as (_ & Hlen & Hall).
    destruct (Queue.lock (mem s)) as [h|] eqn:Elk; [|done].
    destruct (Queue.owner_critical args _ _ Hinv h Elk) as (l & Hl & Hc).
    rewrite flat_of_full in Hl by done. cbn [snd] in Hl.
    pose proof (Hall h l Hl) as Hret. simpl in Hret.
    unfold Queue.has_returned in Hret. by destruct (Queue.pc l).
Qed.

End MoreQueue.

(** [-n -5 -t 2 -b queue]: after sixty rounds both threads spin at the
    barrier, and so they do for ever. *)
Definition negative_queue : arg_t := ArgT (-5) 2 "queue" false.

Lemma negative_queue_wf : wf_args negative_queue.
Proof. split; unfold int_range, INT_MIN, INT_MAX; simpl; lia. Qed.

Lemma run_queue_test_negative_hangs_run :
  wf_args negative_queue ∧ 2 ≤ num_threads negative_queue ∧
  num_ints negative_queue < 0 ∧
  INT_MIN ≤ (num_threads negative_queue - 1) * num_ints negative_queue ∧
  Queue.pc <$> threads (rounds (Queue.task negative_queue) negative_queue
                          Queue.init 60) = [Queue.Barrier; Queue.Barrier] ∧
  main (rounds (Queue.task negative_queue) negative_queue Queue.init 60)
  ≠ MDone.
Proof.
  pose proof negative_queue_wf as Hwf.
  split; [exact Hwf|]. split; [simpl; lia|]. split; [simpl; lia|].
  split; [unfold INT_MIN; simpl; lia|]. split; [vm_compute; reflexivity|].
  exact (proj1 (run_queue_test_negative_hangs negative_queue Hwf
                  ltac:(simpl; lia) ltac:(simpl; lia)
                  ltac:(unfold INT_MIN; simpl; lia) _
                  (rounds_reachable _ _ _ 60))).
Defined.

(** The consumer of the small configuration, about to call [front]. *)
Lemma queue_never_pops_empty_small :
  wf_args (small "queue") ∧
  Queue.pc <$> threads (rounds (Queue.task (small "queue")) (small "queue")
                          Queue.init 6) = [Queue.PLoop; Queue.CFront] ∧
  Queue.my_queue (mem (rounds (Queue.task (small "queue")) (small "queue")
                         Queue.init 6)) ≠ [].
Proof.
  pose proof (small_wf "queue") as Hwf.
  split; [exact Hwf|]. split; [vm_compute; reflexivity|].
  refine (proj1 (proj2 (queue_never_pops_empty (small "queue") Hwf _ 1%nat
                          (Queue.QLocal Queue.CFront 0 0 0)
                          (rounds_reachable _ _ _ 6) _ _)));
    vm_compute; reflexivity.
Defined.

Lemma queue_done_after_last_push_small :
  wf_args (small "queue") ∧
  Queue.done (mem (rounds (Queue.task (small "queue")) (small "queue")
                     Queue.init 30)) = true ∧
  Queue.pushed (mem (rounds (Queue.task (small "queue")) (small "queue")
                       Queue.init 30)) = [0; 1; 2].
Proof.
  pose proof (small_wf "queue") as Hwf.
  assert (Queue.done (mem (rounds (Queue.task (small "queue"))
                             (small "queue") Queue.init 30)) = true) as Hd
    by (vm_compute; reflexivity).
  split; [exact Hwf|]. split; [exact Hd|].
  exact (proj1 (queue_done_after_last_push (small "queue") Hwf _
                  (rounds_reachable _ _ _ 30) Hd)).
Defined.

Lemma queue_consumer_leaves_when_drained_small :
  wf_args (small "queue") ∧
  Queue.values
    (Queue.popped (mem (rounds (Queue.task (small "queue")) (small "queue")
                          Queue.init 80))) = [0; 1; 2].
Proof.
  pose proof (small_wf "queue") as Hwf.
  split; [exact Hwf|].
  refine (proj2 (proj2 (queue_consumer_leaves_when_drained (small "queue")
                          Hwf _ 1%nat (Queue.QLocal Queue.QRet 0 3 3)
                          (rounds_reachable _ _ _ 80) _ _ _)));
    [vm_compute; reflexivity|lia|reflexivity].
Defined.

Lemma queue_barrier_sound_small :
  wf_args (small "queue") ∧
  Queue.count (mem (rounds (Queue.task (small "queue")) (small "queue")
                      Queue.init 80)) = 3 ∧
  Queue.sum (mem (rounds (Queue.task (small "queue")) (small "queue")
                    Queue.init 80)) = 3.
Proof.
  pose proof (small_wf "queue") as Hwf.
  assert (Queue.count (mem (rounds (Queue.task (small "queue"))
                              (small "queue") Queue.init 80)) = 3) as Hc
    by (vm_compute; reflexivity).
  split; [exact Hwf|]. split; [exact Hc|].
  exact (proj1 (proj2 (queue_barrier_sound (small "queue") Hwf _
                         (rounds_reachable _ _ _ 80)) Hc)).
Defined.

Lemma queue_total_and_lock_small :
  wf_args (small "queue") ∧
  Queue.lock (mem (rounds (Queue.task (small "queue")) (small "queue")
                     Queue.init 80)) = None.
Proof.
  pose proof (small_wf "queue") as Hwf.
  split; [exact Hwf|].
  refine (proj2 (queue_total_and_lock (small "queue") Hwf _
                   (rounds_reachable _ _ _ 80)) _).
  right; right. vm_compute; reflexivity.
Defined.

(** *** The lines printed by the consumers *)

Section Reports.
Context (args : arg_t).

(** The count and the sum on a line [Thread/Count/Sum], and the thread
    named on it. *)
Definition report_count (o : Queue.output) : Z :=
  match o with Queue.ThreadCountSum _ c _ => c | Queue.TotalSum _ => 0 end.

Definition report_sum (o : Queue.output) : Z :=
  match o with Queue.ThreadCountSum _ _ s => s | Queue.TotalSum _ => 0 end.

Definition report_id (o : Queue.output) : option nat :=
  match o with
  | Queue.ThreadCountSum id _ _ => Some id
  | Queue.TotalSum _ => None
  end.

Definition report_ids (out : list Queue.output) : list nat :=
  omap report_id out.

(** Program points of a consumer after its [printf]. *)
Definition printed (p : Queue.qpc) : bool :=
  match p with
  | Queue.CAddSum | Queue.CAddCount | Queue.Barrier | Queue.PTotal
  | Queue.QRet => true
  | _ => false
  end.

(** Printed, and not yet added to [count]; to [sum]. *)
Definition count_due (l : Queue.qlocal) : Z :=
  match Queue.pc l with
  | Queue.CAddSum | Queue.CAddCount => Queue.my_count l
  | _ => 0
  end.

Definition sum_due (l : Queue.qlocal) : Z :=
  match Queue.pc l with Queue.CAddSum => Queue.my_sum l | _ => 0 end.

Definition reports_add_up (f : fstate (Queue.task args)) : Prop :=
  sumZ report_count (Queue.out f.1)
  = Queue.count f.1 + sumZ count_due f.2 ∧
  sumZ report_sum (Queue.out f.1) = Queue.sum f.1 + sumZ sum_due f.2.

Lemma reports_add_up_init :
  reports_add_up (finit (Queue.task args) args Queue.init).
Proof.
  unfold reports_add_up, finit; cbn [fst snd].
  rewrite !sumZ_zero; [done|..].
  all: intros t l Hl; try done; rewrite list_lookup_fmap in Hl.
  all: destruct (seq 0 (nthreads args) !! t) as [k|]; [|done].
  all: injection Hl as <-; simpl; unfold Queue.enter.
  all: by destruct (k =? 0)%nat.
Qed.

Lemma reports_add_up_step f f' :
  Queue.finv args f → reports_add_up f →
  fstep (Queue.task args) f f' → reports_add_up f'.
Proof.
  intros Hinv [Hc Hs] Hstep.
  apply fstep_inv in Hstep as (t & l & g' & l' & Hl & Hstep & ->).
  destruct f as [g ls]. unfold Queue.finv in Hinv.
  cbn [fst snd shared local Queue.task] in *.
  destruct (Queue.step_no_wrap args g ls Hinv t l Hl)
    as (_ & _ & _ & Hws & Hwc).
  unfold reports_add_up; cbn [fst snd].
  rewrite !(sumZ_insert _ _ _ l) by done.
  cbn [tstep Queue.task] in Hstep. unfold Queue.workload in Hstep.
  destruct l as [p a ms mc].
  cbn [Queue.pc Queue.i Queue.my_sum Queue.my_count] in *.
  destruct p; repeat case_match; simplify_eq;
    unfold count_due, sum_due, Queue.set_pc, Queue.print in *;
    cbn [Queue.pc Queue.i Queue.my_sum Queue.my_count
         Queue.out Queue.count Queue.sum Queue.set_lock Queue.set_done
         Queue.set_sum Queue.set_count Queue.push Queue.pop];
    rewrite ?sumZ_app, ?Hws, ?Hwc by done; simpl sumZ; lia.
Qed.

(** One line for each consumer that has printed, with that consumer's
    own count and sum; no line for anyone else. *)
Definition reports_named (f : fstate (Queue.task args)) : Prop :=
  NoDup (report_ids (Queue.out f.1)) ∧
  (∀ t l, f.2 !! t = Some l → t ≠ 0%nat → printed (Queue.pc l) = true →
     Queue.ThreadCountSum t (Queue.my_count l) (Queue.my_sum l)
     ∈ Queue.out f.1) ∧
  (∀ id c s, Queue.ThreadCountSum id c s ∈ Queue.out f.1 →
     id ≠ 0%nat ∧
     ∃ l, f.2 !! id = Some l ∧ printed (Queue.pc l) = true ∧
          Queue.my_count l = c ∧ Queue.my_sum l = s).

Lemma report_ids_elem id out :
  id ∈ report_ids out ↔ ∃ c s, Queue.ThreadCountSum id c s ∈ out.
Proof.
  unfold report_ids. rewrite list_elem_of_omap. split.
  - intros (o & Ho & Hid). destruct o as [id' c s|x]; simplify_eq/=.
    by exists c, s.
  - intros (c & s & Ho). by exists (Queue.ThreadCountSum id c s).
Qed.

Lemma reports_named_init :
  reports_named (finit (Queue.task args) args Queue.init).
Proof.
  unfold reports_named, finit; cbn [fst snd]. split; [constructor|]. split.
  - intros t l Hl Ht Hp. rewrite list_lookup_fmap in Hl.
    destruct (seq 0 (nthreads args) !! t) as [k|]; [|done].
    injection Hl as <-. simpl in Hp. unfold Queue.enter in Hp.
    by destruct (k =? 0)%nat.
  - intros id c s Ho. simpl in Ho. by apply elem_of_nil in Ho.
Qed.

Section NamedSteps.
Context (g g' : Queue.qshared) (ls : list Queue.qlocal).
Context (t : nat) (l l' : Queue.qlocal).
Hypothesis Hnamed : reports_named (g, ls).
Hypothesis Hl : ls !! t = Some l.

(** A step that prints nothing. *)
Lemma named_quiet :
  Queue.out g' = Queue.out g →
  printed (Queue.pc l') = printed (Queue.pc l) →
  (printed (Queue.pc l) = true →
   Queue.my_count l' = Queue.my_count l ∧ Queue.my_sum l' = Queue.my_sum l) →
  reports_named (g', <[t:=l']> ls).
Proof.
  destruct Hnamed as (Hnd & Hline & Hown).
  cbn [fst snd local shared Queue.task] in Hnd, Hline, Hown.
  intros Ho Hp Hv. unfold reports_named.
  cbn [fst snd local shared Queue.task]. rewrite Ho.
  split; [done|]. split.
  - intros t' l'' [(<- & <- & _)|(_ & Hl'')]%list_lookup_insert_Some Ht Hp';
      [|by apply Hline].
    rewrite Hp in Hp'. destruct (Hv Hp') as [-> ->]. by apply Hline.
  - intros id c s Hin. destruct (Hown id c s Hin) as (Hid & l0 & Hl0 & H0).
    split; [done|]. destruct (decide (t = id)) as [<-|Hne].
    + rewrite Hl in Hl0. injection Hl0 as <-.
      destruct H0 as (Hp0 & Hc0 & Hs0). destruct (Hv Hp0) as [Hc Hs].
      exists l'. rewrite list_lookup_insert_eq by (by eapply lookup_lt_Some).
      rewrite Hp, Hc, Hs. done.
    + exists l0. by rewrite list_lookup_insert_ne.
Qed.

(** The [printf] of a consumer. *)
Lemma named_print :
  t ≠ 0%nat → printed (Queue.pc l) = false → printed (Queue.pc l') = true →
  Queue.out g'
  = Queue.out g
    ++ [Queue.ThreadCountSum t (Queue.my_count l') (Queue.my_sum l')] →
  reports_named (g', <[t:=l']> ls).
Proof.
  destruct Hnamed as (Hnd & Hline & Hown).
  cbn [fst snd local shared Queue.task] in Hnd, Hline, Hown.
  intros Ht Hp Hp' Ho. unfold reports_named.
  cbn [fst snd local shared Queue.task]. rewrite Ho.
  assert (t ∉ report_ids (Queue.out g)) as Hfresh.
  { intros (c & s & Hin)%report_ids_elem.
    destruct (Hown t c s Hin) as (_ & l0 & Hl0 & Hp0 & _).
    rewrite Hl in Hl0. injection Hl0 as <-. congruence. }
  split; [|split].
  - unfold report_ids. rewrite omap_app. simpl.
    apply NoDup_app. split; [done|]. split; [|apply NoDup_singleton].
    intros x Hx ->%list_elem_of_singleton. done.
  - intros t' l'' [(<- & <- & _)|(_ & Hl'')]%list_lookup_insert_Some Ht' Hp'';
      apply elem_of_app; [right; apply list_elem_of_singleton; done|].
    left. by apply Hline.
  - intros id c s [Hin|Hin%list_elem_of_singleton]%elem_of_app.
    + destruct (Hown id c s Hin) as (Hid & l0 & Hl0 & H0).
      split; [done|]. exists l0. rewrite list_lookup_insert_ne; [done|].
      intros <-. apply Hfresh, report_ids_elem. eauto.
    + injection Hin as -> -> ->. split; [done|]. exists l'.
      by rewrite list_lookup_insert_eq by (by eapply lookup_lt_Some).
Qed.

(** The [printf] of the producer. *)
Lemma named_total x :
  t = 0%nat → Queue.out g' = Queue.out g ++ [Queue.TotalSum x] →
  reports_named (g', <[t:=l']> ls).
Proof.
  destruct Hnamed as (Hnd & Hline & Hown).
  cbn [fst snd local shared Queue.task] in Hnd, Hline, Hown.
  intros -> Ho. unfold reports_named.
  cbn [fst snd local shared Queue.task]. rewrite Ho.
  split; [|split].
  - unfold report_ids. rewrite omap_app. simpl. by rewrite app_nil_r.
  - intros t' l'' [(<- & _)|(_ & Hl'')]%list_lookup_insert_Some Ht' Hp'';
      [done|].
    apply elem_of_app. left. by apply Hline.
  - intros id c s [Hin|Hin%list_elem_of_singleton]%elem_of_app; [|done].
    destruct (Hown id c s Hin) as (Hid & l0 & Hl0 & H0).
    split; [done|]. exists l0. by rewrite list_lookup_insert_ne.
Qed.

(** A step of the producer that prints nothing. *)
Lemma named_producer :
  t = 0%nat → Queue.out g' = Queue.out g →
  reports_named (g', <[t:=l']> ls).
Proof.
  destruct Hnamed as (Hnd & Hline & Hown).
  cbn [fst snd local shared Queue.task] in Hnd, Hline, Hown.
  intros -> Ho. unfold reports_named.
  cbn [fst snd local shared Queue.task]. rewrite Ho.
  split; [done|]. split.
  - intros t' l'' [(<- & _)|(_ & Hl'')]%list_lookup_insert_Some Ht' Hp'';
      [done|by apply Hline].
  - intros id c s Hin. destruct (Hown id c s Hin) as (Hid & l0 & Hl0 & H0).
    split; [done|]. exists l0. by rewrite list_lookup_insert_ne.
Qed.

End NamedSteps.

Lemma reports_named_step f f' :
  Queue.finv args f → reports_named f →
  fstep (Queue.task args) f f' → reports_named f'.
Proof.
  intros Hinv Hn Hstep.
  apply fstep_inv in Hstep as (t & l & g' & l' & Hl & Hstep & ->).
  destruct f as [g ls]. unfold Queue.finv in Hinv.
  cbn [fst snd shared local Queue.task] in *.
  destruct (Queue.g_threads args g ls Hinv t l Hl)
    as (_ & _ & _ & _ & _ & Hrole).
  unfold Queue.prod_inv, Queue.cons_inv in Hrole.
  destruct (Nat.eqb_spec t 0) as [Ht|Ht]; destruct Hrole as [Hrole _].
  all: cbn [tstep Queue.task] in Hstep; unfold Queue.workload in Hstep.
  all: destruct l as [p a ms mc].
  all: cbn [Queue.pc Queue.i Queue.my_sum Queue.my_count] in *.
  all: destruct p; try discriminate Hrole.
  all: repeat case_match; simplify_eq.
  all: try (apply (named_quiet _ _ _ _ _ _ Hn Hl); [done|done|by intros]).
  all: try (apply (named_producer _ _ _ _ _ _ Hn Hl); done).
  - by apply (named_total _ _ _ _ _ _ Hn Hl (Queue.sum g)).
  - by apply (named_print _ _ _ _ _ _ Hn Hl).
Qed.

Hypothesis Hwf : wf_args args.

Lemma reach_reports s :
  Queue.reach args s →
  reports_add_up (flat_of (Queue.task args) args s) ∧
  reports_named (flat_of (Queue.task args) args s).
Proof.
  intros Hr.
  assert (Queue.finv args (flat_of (Queue.task args) args s) ∧
          reports_add_up (flat_of (Queue.task args) args s) ∧
          reports_named (flat_of (Queue.task args) args s)) as (_ & ? & ?);
    [|done].
  revert s Hr.
  apply (reachable_inv (Queue.task args) args Queue.init Hwf
           (λ f, Queue.finv args f ∧ reports_add_up f ∧ reports_named f)).
  - split; [apply Queue.queue_finv_init|].
    split; [apply reports_add_up_init|apply reports_named_init].
  - intros f f' (Hf & Ha & Hn) Hs.
    split; [by apply (Queue.queue_finv_step args f)|].
    split; [by apply (reports_add_up_step f)|by apply (reports_named_step f)].
Qed.

(** X16: the lines [Thread/Count/Sum]: never two for one thread, never one
    for the producer or for a thread that does not exist.  When
    [run_queue_test] has returned there is exactly one line for each
    consumer, the counts on the lines add up to the number of items and
    the sums to the sum of all items. *)
Theorem queue_consumer_reports s :
  Queue.reach args s →
  NoDup (report_ids (Queue.out (mem s))) ∧
  (∀ id c sm, Queue.ThreadCountSum id c sm ∈ Queue.out (mem s) →
     (0 < id < nthreads args)%nat ∧ 0 ≤ c ∧ 0 ≤ sm) ∧
  (main s = MDone → (0 < nthreads args)%nat →
   (∀ id, id ∈ report_ids (Queue.out (mem s))
          ↔ (0 < id < nthreads args)%nat) ∧
   sumZ report_count (Queue.out (mem s)) = Queue.total_work args ∧
   sumZ report_sum (Queue.out (mem s))
   = Queue.triangle (Queue.total_work args)).
Proof.
  intros Hr.
  assert (NoDup (report_ids (Queue.out (mem s))) ∧
          ∀ id c sm, Queue.ThreadCountSum id c sm ∈ Queue.out (mem s) →
            (0 < id < nthreads args)%nat ∧ 0 ≤ c ∧ 0 ≤ sm) as [Hnd Hlines].
  { destruct (reach_reports s Hr) as [_ (Hnd & _ & Hown)].
    pose proof (Queue.queue_reach_finv args Hwf s Hr) as Hinv.
    unfold Queue.finv in Hinv.
    cbn [fst snd local shared Queue.task flat_of] in *.
    split; [done|]. intros id c sm Hin.
    destruct (Hown id c sm Hin) as (Hid & l & Hl & _ & <- & <-).
    pose proof (lookup_lt_Some _ _ _ Hl) as Hlt.
    rewrite (Queue.g_len args _ _ Hinv) in Hlt.
    destruct (Queue.g_threads args _ _ Hinv id l Hl) as (_ & _ & ? & ? & _).
    split; [lia|done]. }
  split; [done|]. split; [done|]. intros Hm Hpos.
  destruct (joined_all (Queue.task args) args Queue.init Hwf s Hr)
    as (_ & Hlen & Hall); [auto|].
  pose proof (reach_reports s Hr) as Hrep.
  rewrite flat_of_full in Hrep by done.
  destruct Hrep as [[Hcnt Hsum] (_ & Hline & _)].
  cbn [fst snd local shared Queue.task] in *.
  assert (∀ t l, threads s !! t = Some l → Queue.pc l = Queue.QRet) as Hret.
  { intros t l Hl. pose proof (Hall t l Hl) as H. simpl in H.
    unfold Queue.has_returned in H. by destruct (Queue.pc l). }
  destruct (Queue.run_queue_test_final args Hwf s Hr Hm Hpos)
    as (_ & Hc & Hs & _).
  split; [|split].
  - intros id. split.
    + intros (c & sm & Hin)%report_ids_elem. by destruct (Hlines id c sm Hin).
    + intros [H0 Hlt]. apply report_ids_elem.
      destruct (lookup_lt_is_Some_2 (threads s) id) as [l Hl];
        [cbn [local Queue.task]; lia|].
      exists (Queue.my_count l), (Queue.my_sum l).
      apply (Hline id l Hl); [lia|]. by rewrite (Hret id l Hl).
  - rewrite Hcnt, Hc. rewrite (sumZ_zero count_due); [lia|].
    intros t l Hl. unfold count_due. by rewrite (Hret t l Hl).
  - rewrite Hsum, Hs. rewrite (sumZ_zero sum_due); [lia|].
    intros t l Hl. unfold sum_due. by rewrite (Hret t l Hl).
Qed.

End Reports.

(** One producer and one consumer of three items: one line, for
    thread 1. *)
Lemma queue_consumer_reports_small :
  wf_args (small "queue") ∧
  Queue.out (mem (rounds (Queue.task (small "queue")) (small "queue")
                    Queue.init 80))
  = [Queue.ThreadCountSum 1 3 3; Queue.TotalSum 3] ∧
  sumZ report_count
    (Queue.out (mem (rounds (Queue.task (small "queue")) (small "queue")
                       Queue.init 80))) = 3.
Proof.
  pose proof (small_wf "queue") as Hwf.
  split; [exact Hwf|]. split; [vm_compute; reflexivity|].
  destruct (queue_consumer_reports (small "queue") Hwf _
              (rounds_reachable _ _ _ 80)) as (_ & _ & Hend).
  refine (proj1 (proj2 (Hend _ _))); [vm_compute; reflexivity|vm_compute; lia].
Defined.

(** *** The clock of [run_timed_test] *)

Section MoreClock.
Context (T : Task) (args : arg_t) (g0 : shared T).
Hypothesis Hwf : wf_args args.

(** The readings of the clock along a schedule, in order. *)
Definition reading (a : action) : option Z :=
  match a with AMain now => Some now | AWorker _ => None end.

Definition readings (sched : list action) : list Z := omap reading sched.

(** Whether a schedule can be run to its end. *)
Definition runs (sched : list action) : bool :=
  match exec T args sched (rinit T g0) with Some _ => true | None => false end.

Lemma runs_exec sched :
  runs sched = true →
  exec T args sched (rinit T g0) = Some (run T args g0 sched).
Proof.
  unfold runs, run. by destruct (exec T args sched (rinit T g0)).
Qed.

(** X17: with a clock that never goes back, the time reported is not
    negative: the first reading is taken before the first launch, the
    second after the last join. *)
Theorem run_timed_test_duration_nonneg (sched : list action)
    (s : rstate T) :
  exec T args sched (rinit T g0) = Some s → main s = MDone →
  StronglySorted Z.le (readings sched) →
  ∃ d, total_time s = Some d ∧ 0 ≤ d.
Proof.
  intros He Hm Hs.
  destruct (complete_run_shape T args g0 Hwf sched s He Hm)
    as (now1 & mid & now2 & x & -> & Ht).
  exists (now2 - now1). split; [done|].
  unfold readings in Hs. simpl in Hs.
  apply StronglySorted_inv in Hs as [_ Hall].
  rewrite omap_app in Hall. apply Forall_app in Hall as [_ Hall].
  simpl in Hall. apply Forall_cons in Hall as [Hle _]. lia.
Qed.

End MoreClock.

(** No workers, readings 1, 2, 3, 5 and 8: the time reported is 4. *)
Lemma run_timed_test_duration_nonneg_idle :
  wf_args (ArgT 7 0 "counter" false) ∧
  total_time (run (Counter.task (ArgT 7 0 "counter" false))
                (ArgT 7 0 "counter" false) Counter.init
                [AMain 1; AMain 2; AMain 3; AMain 5; AMain 8]) = Some 4 ∧
  ∃ d, total_time (run (Counter.task (ArgT 7 0 "counter" false))
                     (ArgT 7 0 "counter" false) Counter.init
                     [AMain 1; AMain 2; AMain 3; AMain 5; AMain 8])
       = Some d ∧ 0 ≤ d.
Proof.
  assert (wf_args (ArgT 7 0 "counter" false)) as Hwf
    by (split; unfold int_range, INT_MIN, INT_MAX; simpl; lia).
  split; [exact Hwf|]. split; [vm_compute; reflexivity|].
  apply (run_timed_test_duration_nonneg
           (Counter.task (ArgT 7 0 "counter" false))
           (ArgT 7 0 "counter" false) Counter.init Hwf
           [AMain 1; AMain 2; AMain 3; AMain 5; AMain 8]).
  - apply runs_exec. vm_compute; reflexivity.
  - vm_compute; reflexivity.
  - unfold readings. simpl. repeat (constructor; try lia).
Defined.
